(** * Botpress Ghost store: the disk storage driver

    A shallow embedding of [src/bp/core/services/ghost/disk-driver.ts]
    (class [DiskStorageDriver]) together with the parts of its host it
    calls into: Node's [path] module (POSIX flavour), a file tree with
    the [fs-extra] calls the driver makes, [glob], [tar], and the
    promise discipline of [async] functions.

    Definitions: [Str] and [Path] (strings and path arithmetic), [Fs]
    (the file tree), [Js] (completions, promises, [try]/[catch]), the
    host and its libraries, [DiskStorageDriver] itself, and [Sample], a
    concrete host with a few trees.  Then the facts: strings and paths,
    the file tree, [glob], archives, the properties of the driver, and
    its operations one by one (what each changes, how it fails, how
    they compose), each followed up at the end by an instance on the
    sample host. *)

From Stdlib Require Import String Ascii List Bool.
From stdpp Require Import base option list strings gmap fin_maps sorting.

Open Scope string_scope.
Open Scope list_scope.

(* ===================================================================== *)
(** ** Strings as JavaScript sees them *)
(* ===================================================================== *)

Module Str.

Definition slash : ascii := "/"%char.
Definition dot : ascii := "."%char.
(** The quotation mark, for the driver's message templates. *)
Definition dquote : string := String (ascii_of_nat 34) EmptyString.

(** [s.split(c)]: never empty, one more piece than there are [c]s. *)
Fixpoint split (c : ascii) (s : string) : list string :=
  match s with
  | EmptyString => [EmptyString]
  | String a s' =>
      if Ascii.eqb a c then EmptyString :: split c s'
      else match split c s' with
           | [] => [String a EmptyString]
           | w :: ws => String a w :: ws
           end
  end.

(** [xs.join("/")]. *)
Definition join (xs : list string) : string := String.concat "/" xs.

Fixpoint contains (c : ascii) (s : string) : bool :=
  match s with
  | EmptyString => false
  | String a s' => Ascii.eqb a c || contains c s'
  end.

Definition startsWith (c : ascii) (s : string) : bool :=
  match s with
  | String a _ => Ascii.eqb a c
  | EmptyString => false
  end.

(** [s.substr(1)]. *)
Definition tail (s : string) : string :=
  match s with
  | String _ s' => s'
  | EmptyString => EmptyString
  end.

(** [s.toLowerCase()] on the ASCII range; the only use in the driver
    compares the result with an ASCII literal, and no character outside
    ASCII lower-cases to one of the letters of that literal. *)
Definition lower_ascii (a : ascii) : ascii :=
  let n := nat_of_ascii a in
  if (65 <=? n)%nat && (n <=? 90)%nat then ascii_of_nat (n + 32) else a.

Fixpoint toLowerCase (s : string) : string :=
  match s with
  | EmptyString => EmptyString
  | String a s' => String (lower_ascii a) (toLowerCase s')
  end.

Fixpoint dropWhile {A} (f : A → bool) (l : list A) : list A :=
  match l with
  | x :: l' => if f x then dropWhile f l' else l
  | [] => []
  end.

Fixpoint takeWhile {A} (f : A → bool) (l : list A) : list A :=
  match l with
  | x :: l' => if f x then x :: takeWhile f l' else []
  | [] => []
  end.

Definition of_chars (l : list ascii) : string := string_of_list_ascii l.
Definition chars (s : string) : list ascii := list_ascii_of_string s.

End Str.

(* ===================================================================== *)
(** ** Node's [path] module, POSIX flavour *)
(* ===================================================================== *)

Module Path.

(** One step of [normalizeString] on a whole segment; [res] is the
    stack of segments kept so far, last one first.  Empty segments and
    [.] are dropped, [..] pops a kept segment, or is itself kept when
    there is nothing to pop and the path is relative
    ([allowAboveRoot]). *)
Definition normalizeStep (allowAboveRoot : bool) (res : list string) (seg : string)
  : list string :=
  if decide (seg = "" ∨ seg = ".") then res
  else if decide (seg = "..") then
    match res with
    | top :: rest =>
        if decide (top = "..") then (if allowAboveRoot then ".." :: res else res)
        else rest
    | [] => if allowAboveRoot then [".."] else []
    end
  else seg :: res.

Definition normalizeSegs (allowAboveRoot : bool) (segs : list string) : list string :=
  rev (fold_left (normalizeStep allowAboveRoot) segs []).

(** The segments that name something: not empty, not [.]. *)
Definition names (segs : list string) : list string :=
  filter (λ s, s ≠ "" ∧ s ≠ ".") segs.

(** [normalizeString(path, allowAboveRoot, "/")]. *)
Definition normalizeString (path : string) (allowAboveRoot : bool) : string :=
  Str.join (normalizeSegs allowAboveRoot (Str.split Str.slash path)).

Definition isAbsolute (p : string) : bool := Str.startsWith Str.slash p.

(** The loop of [path.resolve]: arguments are taken from the right
    until one is absolute; when none is, the working directory is
    used.  [args_rev] is the argument list reversed. *)
Fixpoint resolveLoop (cwd : string) (args_rev : list string) (resolvedPath : string)
  : string * bool :=
  match args_rev with
  | [] => (cwd +:+ "/" +:+ resolvedPath, isAbsolute cwd)
  | p :: rest =>
      if decide (p = "") then resolveLoop cwd rest resolvedPath
      else if isAbsolute p then (p +:+ "/" +:+ resolvedPath, true)
      else resolveLoop cwd rest (p +:+ "/" +:+ resolvedPath)
  end.

(** The normalized segments of [path.resolve(...args)], and whether
    the result is absolute. *)
Definition resolveSegs (cwd : string) (args : list string) : list string * bool :=
  let '(resolvedPath, resolvedAbsolute) := resolveLoop cwd (rev args) "" in
  (normalizeSegs (negb resolvedAbsolute) (Str.split Str.slash resolvedPath),
   resolvedAbsolute).

Definition resolve (cwd : string) (args : list string) : string :=
  let '(segs, resolvedAbsolute) := resolveSegs cwd args in
  if resolvedAbsolute then "/" +:+ Str.join segs
  else if decide (segs = []) then "." else Str.join segs.

(** [path.normalize]. *)
Definition normalize (p : string) : string :=
  if decide (p = "") then "."
  else
    let absolute := isAbsolute p in
    let trailing := Str.startsWith Str.slash (Str.of_chars (rev (Str.chars p))) in
    let n := normalizeString p (negb absolute) in
    if decide (n = "") then
      (if absolute then "/" else if trailing then "./" else ".")
    else
      let n' := if trailing then n +:+ "/" else n in
      if absolute then "/" +:+ n' else n'.

(** [path.join(...args)]: the non-empty arguments joined by [/], then
    normalized. *)
Definition join (args : list string) : string :=
  match filter (λ a, a ≠ "") args with
  | [] => "."
  | parts => normalize (Str.join parts)
  end.

(** [path.dirname], character by character: trailing slashes are
    skipped, then the last name, and the result is what stands before
    the slash in front of that name.  Index 0 is never examined by the
    loop. *)
Definition dirname (p : string) : string :=
  match Str.chars p with
  | [] => "."
  | c0 :: cs =>
      let hasRoot := Ascii.eqb c0 Str.slash in
      let r1 := Str.dropWhile (λ c, bool_decide (c = Str.slash)) (rev cs) in
      let r2 := Str.dropWhile (λ c, bool_decide (c ≠ Str.slash)) r1 in
      match r2 with
      | [] => if hasRoot then "/" else "."
      | _ :: before =>
          if hasRoot && bool_decide (before = []) then "//"
          else Str.of_chars (c0 :: rev before)
      end
  end.

(** [path.basename(p)] (no extension argument). *)
Definition basename (p : string) : string :=
  let r1 := Str.dropWhile (λ c, bool_decide (c = Str.slash)) (rev (Str.chars p)) in
  Str.of_chars (rev (Str.takeWhile (λ c, bool_decide (c ≠ Str.slash)) r1)).

Fixpoint dropCommon (a b : list string) : list string * list string :=
  match a, b with
  | x :: a', y :: b' => if decide (x = y) then dropCommon a' b' else (a, b)
  | _, _ => (a, b)
  end.

(** How many [..] segments a normalized relative path begins with:
    those that nothing cancels. *)
Definition climbs (segs : list string) : nat :=
  length (Str.takeWhile (λ s, bool_decide (s = "..")) segs).

(** [path.relative(from, to)]: both are resolved, the common leading
    segments are dropped, and every segment left of [from] becomes
    [..]. *)
Definition relative (cwd : string) (from to : string) : string :=
  if decide (from = to) then ""
  else
    let '(up, down) := dropCommon (resolveSegs cwd [from]).1 (resolveSegs cwd [to]).1 in
    Str.join (replicate (length up) ".." ++ down).

End Path.

(* ===================================================================== *)
(** ** The file tree *)
(* ===================================================================== *)

Module Fs.

Definition Buffer := list Byte.byte.

#[global] Instance byte_eq_dec : EqDecision Byte.byte := Byte.byte_eq_dec.

(** What the driver can meet at a location: a regular file with its
    bytes, or a directory, which the process may or may not be allowed
    to read (the one permission the driver inspects, in
    [directoryListing]).  There are no symbolic links. *)
Inductive node :=
| File (data : Buffer)
| Dir (readable : bool).

(** A location is the list of names from the root; the root itself,
    [[]], is a readable directory that is always there. *)
Abbreviation key := (list string).
Abbreviation tree := (gmap (list string) node).

Inductive errno := ENOENT | ENOTDIR | EISDIR | EEXIST | EACCES | ENOTEMPTY.

#[global] Instance errno_eq_dec : EqDecision errno.
Proof. solve_decision. Defined.

Definition node_at (t : tree) (k : key) : option node :=
  match k with
  | [] => Some (Dir true)
  | _ => t !! k
  end.

(** Name lookup, one component at a time: a missing component is
    [ENOENT], a file met before the last component is [ENOTDIR]. *)
Fixpoint namei (t : tree) (pre rest : key) : errno + node :=
  match node_at t pre with
  | None => inl ENOENT
  | Some n =>
      match rest with
      | [] => inr n
      | s :: rest' =>
          match n with
          | File _ => inl ENOTDIR
          | Dir _ => namei t (pre ++ [s]) rest'
          end
      end
  end.

Definition stat (t : tree) (k : key) : errno + node := namei t [] k.

(** Everything on the way from [pre] down to, and not counting,
    [pre ++ rest] is a directory. *)
Definition dirsAbove (t : tree) (pre rest : key) : Prop :=
  ∀ r1, r1 `prefix_of` rest → r1 ≠ rest → ∃ b, node_at t (pre ++ r1) = Some (Dir b).

Definition parent (k : key) : key := removelast k.

(** [access(p, R_OK)]. *)
Definition access_R (t : tree) (k : key) : errno + unit :=
  match stat t k with
  | inl e => inl e
  | inr (Dir false) => inl EACCES
  | inr _ => inr ()
  end.

Definition readFile (t : tree) (k : key) : errno + Buffer :=
  match stat t k with
  | inl e => inl e
  | inr (Dir _) => inl EISDIR
  | inr (File d) => inr d
  end.

(** [writeFile]: creates or truncates the file; the directory that is
    to hold it must exist. *)
Definition writeFile (t : tree) (k : key) (d : Buffer) : errno + tree :=
  match k with
  | [] => inl EISDIR
  | _ =>
      match stat t (parent k) with
      | inl e => inl e
      | inr (File _) => inl ENOTDIR
      | inr (Dir _) =>
          match t !! k with
          | Some (Dir _) => inl EISDIR
          | _ => inr (<[k := File d]> t)
          end
      end
  end.

(** [mkdirp]: every missing directory on the way is made; a file in
    the way is an error ([EEXIST] at the end, [ENOTDIR] before). *)
Fixpoint mkdirpFrom (t : tree) (pre rest : key) : errno + tree :=
  match rest with
  | [] => inr t
  | s :: rest' =>
      let k := pre ++ [s] in
      match t !! k with
      | None => mkdirpFrom (<[k := Dir true]> t) k rest'
      | Some (Dir _) => mkdirpFrom t k rest'
      | Some (File _) => inl (match rest' with [] => EEXIST | _ => ENOTDIR end)
      end
  end.

Definition mkdirp (t : tree) (k : key) : errno + tree := mkdirpFrom t [] k.

(** [mkdirSync] without [recursive]. *)
Definition mkdir (t : tree) (k : key) : errno + tree :=
  match stat t k with
  | inr _ => inl EEXIST
  | inl _ =>
      match stat t (parent k) with
      | inl e => inl e
      | inr (File _) => inl ENOTDIR
      | inr (Dir _) => inr (<[k := Dir true]> t)
      end
  end.

Definition unlink (t : tree) (k : key) : errno + tree :=
  match stat t k with
  | inl e => inl e
  | inr (Dir _) => inl EISDIR
  | inr (File _) => inr (delete k t)
  end.

Definition has_children (t : tree) (k : key) : bool :=
  existsb (λ j, bool_decide (k `prefix_of` j ∧ j ≠ k)) (map_to_list t).*1.

Definition rmdir (t : tree) (k : key) : errno + tree :=
  match stat t k with
  | inl e => inl e
  | inr (File _) => inl ENOTDIR
  | inr (Dir _) => if has_children t k then inl ENOTEMPTY else inr (delete k t)
  end.

(** [removeSync]: the location and everything below it go; nothing
    there is not an error. *)
Definition remove (t : tree) (k : key) : tree :=
  filter (λ kn, ¬ k `prefix_of` kn.1) t.

Definition exists_ (t : tree) (k : key) : bool :=
  match stat t k with inr _ => true | inl _ => false end.

(** A name the tree can hold. *)
Definition valid_name (s : string) : Prop :=
  s ≠ "" ∧ s ≠ "." ∧ s ≠ ".." ∧ Str.contains Str.slash s = false.

#[global] Instance valid_name_dec s : Decision (valid_name s).
Proof. unfold valid_name. apply _. Defined.

(** The limits of the file system on a name: at most 255 bytes, none
    of them zero.  The tree has no limit of its own; a property that
    says that a call makes something asks for a path within the
    limits. *)
Definition nameable (s : string) : Prop :=
  (String.length s ≤ 255)%nat ∧ Str.contains (ascii_of_nat 0) s = false.

#[global] Instance nameable_dec s : Decision (nameable s).
Proof. unfold nameable. apply _. Defined.

(** And on a path: names within the limits, and at most 4095 bytes
    in all. *)
Definition addressable (k : key) : Prop :=
  Forall nameable k ∧ (String.length ("/" +:+ Str.join k) ≤ 4095)%nat.

#[global] Instance addressable_dec k : Decision (addressable k).
Proof. unfold addressable. apply _. Defined.

(** Well-formed trees: every entry has valid names, is not the root,
    and hangs below directories that are themselves entries. *)
Definition wf (t : tree) : Prop :=
  ∀ k n, t !! k = Some n →
    k ≠ [] ∧ Forall valid_name k ∧
    ∀ j, j `prefix_of` k → j ≠ k → ∃ r, node_at t j = Some (Dir r).

(** The same, as a check that runs. *)
Definition wfb (t : tree) : bool :=
  forallb (λ k, bool_decide (k ≠ [] ∧ Forall valid_name k)
                && forallb (λ i, match node_at t (take i k) with
                                 | Some (Dir _) => true
                                 | _ => false
                                 end)
                           (seq 0 (length k)))
          (map_to_list t).*1.

End Fs.

(* ===================================================================== *)
(** ** Completions, promises and [async] functions *)
(* ===================================================================== *)

Module Js.

(** The values the driver throws or rejects with.  [SystemError] is
    what Node's [fs] raises; its [code] is the field the driver's
    handlers test. *)
Inductive exn :=
| SystemError (code : Fs.errno) (syscall path : string)
| PlainError (message : string)
| VError (cause : exn) (message : string)
| SyntaxError
| GlobError (code : Fs.errno) (message : string)
| TarError (message : string).

(** [e.code]. *)
Definition code (e : exn) : option Fs.errno :=
  match e with
  | SystemError c _ _ | GlobError c _ => Some c
  | _ => None
  end.

(** [e.name], the kind of an error a caller can test for: the errors
    of [fs], [glob] and [tar], like the driver's own, are plain
    [Error]s. *)
Definition name (e : exn) : string :=
  match e with
  | VError _ _ => "VError"
  | SyntaxError => "SyntaxError"
  | _ => "Error"
  end.

(** A statement list either runs to its end with a value or throws. *)
Inductive completion (A : Type) :=
| Normal (a : A)
| Throw (e : exn).
Arguments Normal {A} a.
Arguments Throw {A} e.

(** Code runs against the file tree and may change it. *)
Definition M (A : Type) : Type := Fs.tree → Fs.tree * completion A.

#[global] Instance M_ret : MRet M := λ A a t, (t, Normal a).
#[global] Instance M_bind : MBind M := λ A B f m t,
  match m t with
  | (t', Normal a) => f a t'
  | (t', Throw e) => (t', Throw e)
  end.

Definition throw {A} (e : exn) : M A := λ t, (t, Throw e).

(** [try { body } catch (e) { handler }]: the handler sees what the
    body throws while it runs, and nothing else. *)
Definition tryCatch {A} (body : M A) (handler : exn → M A) : M A := λ t,
  match body t with
  | (t', Throw e) => handler e t'
  | r => r
  end.

(** A promise, by how it settles.  The model is sequential: the
    effect of the operation behind a promise has taken place when the
    promise is handed out. *)
Inductive Promise (A : Type) :=
| Fulfilled (a : A)
| Rejected (e : exn).
Arguments Fulfilled {A} a.
Arguments Rejected {A} e.

(** [await p]: the value of a fulfilled promise; a rejection is
    thrown at the place of the [await]. *)
Definition await {A} (call : M (Promise A)) : M A :=
  p ← call;
  match p with
  | Fulfilled a => mret a
  | Rejected e => throw e
  end.

(** An [async] function never throws to its caller: what its body
    returns resolves its promise (a returned promise is adopted as it
    is), what its body throws rejects it. *)
Definition async {A} (body : M (Promise A)) : M (Promise A) := λ t,
  match body t with
  | (t', Throw e) => (t', Normal (Rejected e))
  | r => r
  end.

(** [return v] for a [v] that is not a promise. *)
Definition return_ {A} (v : A) : M (Promise A) := mret (Fulfilled v).

End Js.

(* ===================================================================== *)
(** ** The host: process, libraries *)
(* ===================================================================== *)

(** What [JSON.parse] returns.  A number is kept as its literal. *)
#[local] Set Warnings "-register-all".
Inductive value :=
| Null
| Boolean (b : bool)
| Number (literal : string)
| Text (s : string)
| Array (items : list value)
| Object (fields : list (string * value)).

(** A member of a tape archive: its path, and its bytes when it is a
    file ([None] for a directory). *)
Record tar_entry := TarEntry { entry_path : string; entry_body : option Fs.Buffer }.

(** The process the driver runs in and the library behaviour the model
    does not fix: the order [glob] sorts in; what its [ignore] patterns
    match, and which directories they keep the walk out of (those a
    pattern ending in [/**] names); [JSON.parse]; and what the
    unpacker, in strict mode, makes of a buffer: the members it finds
    in it, or [None] when it reports the bytes as damaged.  An archive
    decodes to the members it was built from.  Members are regular
    files and directories: the file tree has no links, and archives
    with link members are outside the model. *)
Class Host := {
  PROJECT_LOCATION : string;
  cwd : string;
  cwd_absolute : Path.isAbsolute cwd = true;
  alphasort : list string → list string;
  alphasort_perm : ∀ l, alphasort l ≡ₚ l;
  ignored : list string → string → bool;
  ignored_nil : ∀ f, ignored [] f = false;
  childrenIgnored : list string → string → bool;
  childrenIgnored_nil : ∀ d, childrenIgnored [] d = false;
  JSON_parse : string → option value;
  tgz_pack : list tar_entry → Fs.Buffer;
  tgz_unpack : Fs.Buffer → option (list tar_entry);
  tgz_unpack_pack : ∀ a, tgz_unpack (tgz_pack a) = Some a
}.

Section Libraries.
Context `{Host}.
Import Js.

(** Where a path leads that is resolved on its text, as [path.resolve]
    does and as the libraries do with what they are given: a relative
    path starts at the working directory, and [.] and [..] are
    cancelled without looking at the tree.  The kernel, handed a path
    as written, walks it instead, and agrees with this when the path is
    made of names only ([direct], below) and the directories it names
    are there; the properties that speak of a path the driver hands on
    as written ask for that. *)
Definition key_of (p : string) : Fs.key := (Path.resolveSegs cwd [p]).1.

(** Where a member path [f] lies relative to the [cwd] option of
    [tar]. *)
Definition memberKey (cwd_opt f : string) : Fs.key :=
  (Path.resolveSegs cwd [cwd_opt; f]).1.

(** A call into [fs] that answers with a promise. *)
Definition promised {A} (syscall p : string) (op : Fs.tree → Fs.errno + (Fs.tree * A))
  : M (Promise A) := λ t,
  match op t with
  | inl e => (t, Normal (Rejected (SystemError e syscall p)))
  | inr (t', a) => (t', Normal (Fulfilled a))
  end.

(** A synchronous call into [fs]: it throws. *)
Definition sync {A} (syscall p : string) (op : Fs.tree → Fs.errno + (Fs.tree * A))
  : M A := λ t,
  match op t with
  | inl e => (t, Throw (SystemError e syscall p))
  | inr (t', a) => (t', Normal a)
  end.

Definition changing (op : Fs.tree → Fs.errno + Fs.tree) (t : Fs.tree)
  : Fs.errno + (Fs.tree * unit) :=
  match op t with inl e => inl e | inr t' => inr (t', ()) end.

Definition reading {A} (op : Fs.tree → Fs.errno + A) (t : Fs.tree)
  : Fs.errno + (Fs.tree * A) :=
  match op t with inl e => inl e | inr a => inr (t, a) end.

(** [mkdirp], alias [ensureDir], resolves its argument first: the
    error it fails with names the resolved path. *)
Definition fse_mkdirp (p : string) : M (Promise unit) :=
  promised "mkdir" (Path.resolve cwd [p]) (changing (λ t, Fs.mkdirp t (key_of p))).
Definition fse_ensureDir := fse_mkdirp.
Definition fse_writeFile (p : string) (d : Fs.Buffer) : M (Promise unit) :=
  promised "open" p (changing (λ t, Fs.writeFile t (key_of p) d)).
(** [readFile] opens the path and reads.  Every failure is given
    here with the syscall and the path of the open; the kernel lets a
    directory be opened and refuses the read, so that failure is one
    of [read] and carries no path. *)
Definition fse_readFile (p : string) : M (Promise Fs.Buffer) :=
  promised "open" p (reading (λ t, Fs.readFile t (key_of p))).
Definition fse_unlink (p : string) : M (Promise unit) :=
  promised "unlink" p (changing (λ t, Fs.unlink t (key_of p))).
Definition fse_access_R_OK (p : string) : M (Promise unit) :=
  promised "access" p (reading (λ t, Fs.access_R t (key_of p))).
(** A directory at or below [k] that has entries and may not be read:
    its entries cannot be listed, so it cannot be emptied. *)
Definition sealedBelow (t : Fs.tree) (k : Fs.key) : bool :=
  existsb (λ jn, bool_decide (k `prefix_of` jn.1)
                 && match jn.2 with Fs.Dir false => true | _ => false end
                 && Fs.has_children t jn.1)
          (map_to_list t).

(** The directory a removal below [k] fails at, when there is one:
    which of several depends on the order the entries are read in; it
    is taken here to be the first in the order of the tree. *)
Definition sealedDir (t : Fs.tree) (k : Fs.key) : option Fs.key :=
  fst <$> find (λ jn, bool_decide (k `prefix_of` jn.1)
                      && match jn.2 with Fs.Dir false => true | _ => false end
                      && Fs.has_children t jn.1)
               (map_to_list t).

(** [removeSync]: nothing at the path is not an error, a regular file
    on the way to it is ([ENOTDIR]), and so is a directory that cannot
    be emptied ([EACCES], with the path of that directory).  What a
    removal has taken away before it fails depends on the order the
    entries are read in as well, and is not modelled: the tree of a
    failed removal is given as it was before, and stands for any tree
    between that and the tree a full removal leaves. *)
Definition fse_removeSync (p : string) : M unit := λ t,
  match Fs.stat t (key_of p) with
  | inl Fs.ENOTDIR => (t, Throw (SystemError Fs.ENOTDIR "unlink" p))
  | _ =>
      if sealedBelow t (key_of p)
      then (t, Throw (SystemError Fs.EACCES "scandir"
                        ("/" +:+ Str.join (default (key_of p) (sealedDir t (key_of p))))))
      else (Fs.remove t (key_of p), Normal ())
  end.
Definition fse_existsSync (p : string) : M bool :=
  λ t, (t, Normal (Fs.exists_ t (key_of p))).
Definition fse_mkdirSync (p : string) : M unit :=
  sync "mkdir" p (changing (λ t, Fs.mkdir t (key_of p))).

(** *** [glob("**/*.*", { cwd, dot, ignore })] *)

(** A name a [*] or a [**] may stand for: one that does not begin
    with a dot, unless [dot] is set. *)
Definition visible (dot : bool) (name : string) : bool :=
  dot || negb (Str.startsWith Str.dot name).

(** The last part of the pattern: a name with a dot in it. *)
Definition star_dot_star (dot : bool) (name : string) : bool :=
  Str.contains Str.dot name && visible dot name.

(** The whole pattern against a path relative to [cwd]. *)
Definition matches (dot : bool) (rel : list string) : bool :=
  match rev rel with
  | [] => false
  | base :: dirs => star_dot_star dot base && forallb (visible dot) dirs
  end.

Fixpoint below (pre k : Fs.key) : option Fs.key :=
  match pre, k with
  | [], _ => Some k
  | x :: pre', y :: k' => if decide (x = y) then below pre' k' else None
  | _ :: _, [] => None
  end.

(** The walk reads directories: it reaches an entry only through
    directories it may read. *)
Definition reachable (t : Fs.tree) (c rel : Fs.key) : bool :=
  forallb (λ i, match t !! (c ++ take i rel) with
                | Some (Fs.Dir true) => true
                | _ => false
                end)
          (seq 1 (length rel - 1)).

(** Every entry under [c], file or directory, that the pattern
    matches ([nodir] is not set), as paths relative to [c]. *)
Definition globWalk (t : Fs.tree) (c : Fs.key) (dot : bool) : list Fs.key :=
  omap (λ k, rel ← below c k;
             if matches dot rel && reachable t c rel then Some rel else None)
       (map_to_list t).*1.

(** What lies below a directory that an [ignore] pattern keeps the
    walk out of is not visited. *)
Definition pruned (ignore : list string) (rel : Fs.key) : bool :=
  existsb (λ i, childrenIgnored ignore (Str.join (take i rel)))
          (seq 1 (length rel - 1)).

(** The directories the walk goes into, by their path from [cwd]:
    those it may show, that no [ignore] pattern keeps it out of. *)
Definition entered (dot : bool) (ignore : list string) (rel : Fs.key) : bool :=
  forallb (visible dot) rel
  && negb (pruned ignore rel)
  && negb (childrenIgnored ignore (Str.join rel)).

(** [glob] is strict unless it is told otherwise: a directory the
    walk goes into and may not read makes the whole evaluation fail. *)
Definition barred (t : Fs.tree) (c : Fs.key) (dot : bool) (ignore : list string)
  : bool :=
  existsb (λ kn, match below c kn.1, kn.2 with
                 | Some (s :: rel), Fs.Dir false => entered dot ignore (s :: rel)
                 | _, _ => false
                 end)
          (map_to_list t).

(** How the promise of [glob] settles.  A working directory that is
    not there gives no match; one that is not a directory, or may not
    be read, is an error, and so is a directory below it that the walk
    goes into and may not read. *)
Definition globResult (cwd_opt : string) (dot : bool) (ignore : list string)
    (t : Fs.tree) : Promise (list string) :=
  let c := key_of cwd_opt in
  match Fs.stat t c with
  | inr (Fs.Dir true) =>
      if barred t c dot ignore
      then Rejected (GlobError Fs.EACCES "EACCES: permission denied, scandir")
      else Fulfilled (alphasort
                        (filter (λ f, ignored ignore f = false)
                           (Str.join <$> filter (λ rel, pruned ignore rel = false)
                                           (globWalk t c dot))))
  | inr (Fs.Dir false) =>
      Rejected (GlobError Fs.EACCES "EACCES: permission denied, scandir")
  | inr (Fs.File _) | inl Fs.ENOTDIR =>
      Rejected (GlobError Fs.ENOTDIR ("ENOTDIR invalid cwd " +:+ cwd_opt))
  | _ => Fulfilled []
  end.

Definition glob (cwd_opt : string) (dot : bool) (ignore : list string)
  : M (Promise (list string)) := λ t,
  (t, Normal (globResult cwd_opt dot ignore t)).

(** A listed path [f] stands for an entry below [c], a file or a
    directory, whose base name has a dot in it and is one the walk
    may show. *)
Definition listedEntry (t : Fs.tree) (c : Fs.key) (dot : bool) (f : string) : Prop :=
  ∃ rel, f = Str.join rel ∧ is_Some (t !! (c ++ rel))
         ∧ Str.contains Str.dot (Path.basename f) = true
         ∧ visible dot (Path.basename f) = true.

(** A listing of what is below [c] lists such entries only, and no
    entry whose base name is without a dot. *)
Definition dottedListing (t : Fs.tree) (c : Fs.key) (dot : bool) (l : list string) : Prop :=
  (∀ f, f ∈ l → listedEntry t c dot f)
  ∧ (∀ rel, is_Some (t !! (c ++ rel)) → rel ≠ [] →
            Str.contains Str.dot (List.last rel "") = false → Str.join rel ∉ l).


(** *** [tar.create({ cwd, file, portable, gzip }, files)] *)

Definition stripTrailingSlashes (s : string) : string :=
  Str.of_chars (rev (Str.dropWhile (λ c, bool_decide (c = Str.slash)) (rev (Str.chars s)))).

(** The prefix the members found inside directory [f] are named with. *)
Definition dirPrefix (f : string) : string :=
  if decide (f = "./") then "" else stripTrailingSlashes f +:+ "/".

Definition memberBelow (k : Fs.key) (pre : string) (jn : Fs.key * Fs.node)
  : option tar_entry :=
  rel ← below k jn.1;
  if decide (rel = []) then None
  else Some match jn.2 with
            | Fs.File d => TarEntry (pre +:+ Str.join rel) (Some d)
            | Fs.Dir _ => TarEntry (pre +:+ Str.join rel +:+ "/") None
            end.

Definition unreadable (n : Fs.node) : bool :=
  match n with Fs.Dir false => true | _ => false end.

Definition at_sign : ascii := "@"%char.

(** The members one argument contributes: the file itself, or the
    directory and all that is below it.  An argument that begins with
    [@] is not a member: it names an archive, [f.substr(1)] below
    [folder], whose members are taken over.  The model takes them over
    when that archive reads without damage and takes none when it does
    not; when the archive cannot be read at all the library leaves the
    call unsettled, which is given here as the failure of reading it.
    The properties of [createArchive] are about arguments that do not
    begin with [@]. *)
Definition tarMembers (t : Fs.tree) (folder f : string) : Fs.errno + list tar_entry :=
  if Str.startsWith at_sign f then
    match Fs.readFile t (memberKey folder (Str.tail f)) with
    | inl e => inl e
    | inr b => inr (default [] (tgz_unpack b))
    end
  else
    let k := memberKey folder f in
    match Fs.stat t k with
    | inl e => inl e
    | inr (Fs.File d) => inr [TarEntry f (Some d)]
    | inr (Fs.Dir r) =>
        if negb r || existsb (λ jn, bool_decide (k `prefix_of` jn.1) && unreadable jn.2)
                             (map_to_list t)
        then inl Fs.EACCES
        else inr (TarEntry (dirPrefix f) None
                    :: omap (memberBelow k (dirPrefix f)) (map_to_list t))
    end.

Fixpoint tarGather (t : Fs.tree) (folder : string) (files : list string)
  : Fs.errno * string + list tar_entry :=
  match files with
  | [] => inr []
  | f :: rest =>
      match tarMembers t folder f with
      | inl e => inl (e, f)
      | inr ms =>
          match tarGather t folder rest with
          | inl ef => inl ef
          | inr more => inr (ms ++ more)
          end
      end
  end.

(** An empty list of files is refused on the spot.  Otherwise the
    archive file is opened (created or emptied) before the members
    are read; [file] is relative to the working directory of the
    process, the members to [cwd_opt]. *)
Definition tar_create (cwd_opt file : string) (files : list string)
  : M (Promise unit) := λ t,
  match files with
  | [] => (t, Throw (PlainError "no files or directories specified"))
  | _ =>
      match Fs.writeFile t (key_of file) [] with
      | inl e => (t, Normal (Rejected (SystemError e "open" file)))
      | inr t1 =>
          match tarGather t1 cwd_opt files with
          | inl (e, f) => (t1, Normal (Rejected (SystemError e "lstat" f)))
          | inr members =>
              (<[key_of file := Fs.File (tgz_pack members)]> t1, Normal (Fulfilled ()))
          end
      end
  end.

(** *** Paths an archive round trip can show *)

(** A path made of names only. *)
Definition plain (f : string) : Prop := Forall Fs.valid_name (Str.split Str.slash f).

(** A path that the kernel, walking it, and [path.resolve], reading
    it, take to the same place whatever the tree holds: names only,
    after the slash it may begin with. *)
Definition direct (p : string) : Prop :=
  plain p ∨ (Path.isAbsolute p = true ∧ plain (Str.tail p)).

#[global] Instance direct_dec p : Decision (direct p).
Proof. unfold direct, plain. apply _. Defined.

(** An argument of [tar.create] that stands for itself: one that does
    not begin with [@]. *)
Definition literal (f : string) : Prop := Str.startsWith at_sign f = false.

#[global] Instance literal_dec f : Decision (literal f).
Proof. unfold literal. apply _. Defined.




(** [x] is above [r]: a prefix of it, and not [r] itself. *)
Definition properPrefix (x r : Fs.key) : Prop := x `prefix_of` r ∧ x ≠ r.

#[global] Instance properPrefix_dec x r : Decision (properPrefix x r).
Proof. unfold properPrefix. apply _. Defined.

(** Files, by path and content, that can stand side by side: a path
    has one content, and no path runs through another. *)
Definition consistent (items : list (Fs.key * Fs.Buffer)) : Prop :=
  ∀ r d r' d', (r, d) ∈ items → (r', d') ∈ items →
    (r = r' → d = d') ∧ ¬ properPrefix r r'.

(** The same, as a check that runs. *)
Definition consistentb (items : list (Fs.key * list Byte.byte)) : bool :=
  forallb (λ rb, forallb (λ rb', bool_decide ((rb.1 = rb'.1 → rb.2 = rb'.2)
                                              ∧ ¬ properPrefix rb.1 rb'.1))
                         items)
          items.

(** The tree holds, below the readable directory [d], the files of
    [items], the directories leading to them, and nothing else. *)
Definition unpacked (t : Fs.tree) (d : Fs.key) (items : list (Fs.key * Fs.Buffer)) : Prop :=
  Fs.stat t d = inr (Fs.Dir true)
  ∧ ∀ x n, x ≠ [] →
      (t !! (d ++ x) = Some n ↔
       (∃ b, n = Fs.File b ∧ (x, b) ∈ items)
       ∨ (n = Fs.Dir true ∧ ∃ r b, (r, b) ∈ items ∧ properPrefix x r)).


(** The members [tar.create] makes of files. *)
Definition fileMembers (items : list (Fs.key * Fs.Buffer)) : list tar_entry :=
  (λ rb, TarEntry (Str.join rb.1) (Some rb.2)) <$> items.


(** The tree of claim C4 below [baseDir]: [a/x.txt], [b/y.txt], and a
    marker [m] at [b/ds/m], any number of directories [ds] deep. *)
Definition claimTree (bx by_ bm : Fs.Buffer) (ds : list string) (m : string)
  : list (Fs.key * Fs.Buffer) :=
  [ (["a"; "x.txt"], bx); (["b"; "y.txt"], by_); ("b" :: ds ++ [m], bm) ].

(** *** [tar.x({ sync, strict, cwd })] fed with a buffer *)

(** Member paths the unpacker objects to: absolute ones and ones with
    a [..] segment.  In strict mode the objection is an error.  The
    model is POSIX: a path is absolute when it begins with a slash, and
    its root is the slashes it begins with. *)
Definition refused (p : string) : bool :=
  Path.isAbsolute p || bool_decide (".." ∈ Str.split Str.slash p).

(** What is left of an absolute member path when its root is taken
    off. *)
Definition stripRoot (p : string) : string :=
  Str.of_chars (Str.dropWhile (λ c, bool_decide (c = Str.slash)) (Str.chars p)).

Definition orError {A} (syscall p : string) (r : Fs.errno + A) : exn + A :=
  match r with inl e => inl (SystemError e syscall p) | inr a => inr a end.

(** Putting a member in its place, at the path [p] below the
    destination: the directories above it are made; a file replaces a
    file, and an empty directory, that is in its place. *)
Definition place (dest : string) (t : Fs.tree) (p : string) (body : option Fs.Buffer)
  : exn + Fs.tree :=
  let k := memberKey dest p in
  match body with
  | None => orError "mkdir" p (Fs.mkdirp t k)
  | Some d =>
      match Fs.mkdirp t (Fs.parent k) with
      | inl e => inl (SystemError e "mkdir" p)
      | inr t1 =>
          match t1 !! k with
          | Some (Fs.Dir _) =>
              match Fs.rmdir t1 k with
              | inl e => inl (SystemError e "rmdir" p)
              | inr t2 => orError "open" p (Fs.writeFile t2 k d)
              end
          | _ => orError "open" p (Fs.writeFile t1 k d)
          end
      end
  end.

(** One member, with the tree it leaves and the error it reports.  A
    member with a [..] segment is passed over; an absolute one is
    unpacked below the destination, its root taken off; both are
    reported.  A member that cannot be put in its place leaves the
    tree as it was. *)
Definition unpackMember (dest : string) (t : Fs.tree) (m : tar_entry)
  : Fs.tree * option exn :=
  let p := entry_path m in
  if bool_decide (".." ∈ Str.split Str.slash p)
  then (t, Some (TarError ("path contains .. " +:+ p)))
  else if Path.isAbsolute p then
    (match place dest t (stripRoot p) (entry_body m) with
     | inl _ => t
     | inr t' => t'
     end,
     Some (TarError ("stripping / from absolute path " +:+ p)))
  else
    match place dest t p (entry_body m) with
    | inl e => (t, Some e)
    | inr t' => (t', None)
    end.

(** All members in order: the unpacking goes on after a member that
    is reported, and the first report is the one the stream ends
    with. *)
Fixpoint unpackAll (dest : string) (t : Fs.tree) (ms : list tar_entry)
  : Fs.tree * option exn :=
  match ms with
  | [] => (t, None)
  | m :: rest =>
      let '(t1, first) := unpackMember dest t m in
      let '(t', later) := unpackAll dest t1 rest in
      (t', match first with Some e => Some e | None => later end)
  end.

(** The stream the driver pipes the buffer into, by the event it ends
    with: [end] fulfils, [error] rejects.  Bytes the unpacker reports
    as damaged are an error, whose message depends on the damage and
    is not modelled; bytes in which it finds no member are an archive
    without members. *)
Definition tar_x (cwd_opt : string) (archive : Fs.Buffer) : M (Promise unit) := λ t,
  match tgz_unpack archive with
  | None => (t, Normal (Rejected (TarError "damaged archive")))
  | Some ms =>
      match unpackAll cwd_opt t ms with
      | (t', Some e) => (t', Normal (Rejected e))
      | (t', None) => (t', Normal (Fulfilled ()))
      end
  end.

End Libraries.

(* ===================================================================== *)
(** ** [DiskStorageDriver] *)
(* ===================================================================== *)

(** What [upsertFile] is given to write: [string | Buffer].  A string
    is held as its UTF-8 bytes, which is what [fs.writeFile] writes. *)
Inductive content :=
| FromString (s : string)
| FromBuffer (b : Fs.Buffer).

Definition bytes (c : content) : Fs.Buffer :=
  match c with
  | FromString s => list_byte_of_string s
  | FromBuffer b => b
  end.

(** [buffer.toString()]. *)
Definition toString (b : Fs.Buffer) : string := string_of_list_byte b.

(** The separator of the host's path convention; the model is POSIX. *)
Definition hostSeparator : ascii := "/"%char.

(** Modelled from the spec: [forceForwardSlashes] of [core/misc/utils],
    which is not among the sources.  The spec has listings returned with
    forward-slash separators regardless of host path convention: every
    separator of the host becomes a forward slash. *)
Definition forceForwardSlashes (p : string) : string :=
  Str.of_chars ((λ c, if Ascii.eqb c hostSeparator then Str.slash else c) <$> Str.chars p).

(** [_.uniq]: the first occurrence of each element, in order. *)
Fixpoint uniq (l : list string) : list string :=
  match l with
  | [] => []
  | x :: l' => x :: filter (λ y, y ≠ x) (uniq l')
  end.

(** [_.without(array, ...values)]. *)
Definition without (array values : list string) : list string :=
  filter (λ x, x ∉ values) array.

Module DiskStorageDriver.
Section Driver.
Context `{Host}.
Import Js.

Definition quoted (s : string) : string := Str.dquote +:+ s +:+ Str.dquote.

(** [resolvePath = p => path.resolve(process.PROJECT_LOCATION, p)] *)
Definition resolvePath (p : string) : string :=
  Path.resolve cwd [PROJECT_LOCATION; p].

(** Where the file tree holds the logical path [p]. *)
Definition location (p : string) : Fs.key := key_of (resolvePath p).

(** The store root: where [PROJECT_LOCATION] itself resolves to. *)
Definition storeRoot : Fs.key := (Path.resolveSegs cwd [PROJECT_LOCATION]).1.

(** A logical path without traversal segments. *)
Definition noTraversal (p : string) : Prop := ".." ∉ Str.split Str.slash p.

(** The segments of [path.normalize(p)] for a relative [p]: the [..]
    segments that nothing of [p] cancels come first, the names that
    are left after them. *)
Definition normalized (p : string) : list string :=
  Path.normalizeSegs true (Str.split Str.slash p).

(** [recordRevision] is accepted and not used. *)
Definition upsertFile (filePath : string) (content : content) (recordRevision : bool)
  : M (Promise unit) :=
  async
    (tryCatch
       (let folder := Path.dirname (resolvePath filePath) in
        await (fse_mkdirp folder);;
        await (fse_writeFile (resolvePath filePath) (bytes content));;
        return_ ())
       (λ e, throw (VError e ("[Disk Storage] Error upserting file " +:+ quoted filePath)))).

Definition createDir (dirname : string) : M (Promise unit) :=
  async (fse_ensureDir dirname).

(** The body of the [try] is [return fse.readFile(...)]: the promise
    is returned as it is, without an [await], so the [try] block is
    left before the promise settles. *)
Definition readFile (filePath : string) : M (Promise Fs.Buffer) :=
  async
    (tryCatch
       (fse_readFile (resolvePath filePath))
       (λ e, if decide (code e = Some Fs.ENOENT)
             then throw (PlainError ("[Disk Storage] File " +:+ quoted filePath +:+ " not found"))
             else throw (VError e ("[Disk Storage] Error reading file " +:+ quoted filePath)))).

(** Here too the promise of [fse.unlink] is returned, not awaited,
    and [recordRevision] is not used. *)
Definition deleteFile (filePath : string) (recordRevision : bool) : M (Promise unit) :=
  async
    (tryCatch
       (fse_unlink (resolvePath filePath))
       (λ e, throw (VError e ("[Disk Storage] Error deleting file " +:+ quoted filePath)))).

Definition deleteDir (dirPath : string) : M (Promise unit) :=
  async
    (tryCatch
       (fse_removeSync (resolvePath dirPath);; return_ ())
       (λ e, throw (VError e ("[Disk Storage] Error deleting directory " +:+ quoted dirPath)))).

(** [exclude?: string | string[]], as the [ignore] option it becomes
    under [if (exclude)]: an absent or empty string sets nothing. *)
Definition ignoreOption (exclude : option (string + list string)) : list string :=
  match exclude with
  | None => []
  | Some (inl s) => if decide (s = "") then [] else [s]
  | Some (inr l) => l
  end.

Definition directoryListing (folder : string) (exclude : option (string + list string))
    (includeDotFiles : bool) : M (Promise (list string)) :=
  async
    (early ← tryCatch
               (await (fse_access_R_OK (resolvePath folder));; mret None)
               (λ e, (* if directory doesn't exist we don't care *)
                  if decide (code e = Some Fs.ENOENT) then mret (Some [])
                  else throw (VError e ("[Disk Storage] No read access to directory "
                                        +:+ quoted folder)));
     match early with
     | Some result => return_ result
     | None =>
         tryCatch
           (files ← await (glob (resolvePath folder) includeDotFiles (ignoreOption exclude));
            return_ (forceForwardSlashes <$> files))
           (λ _, return_ [])
     end).

Definition deleteRevision (filePath revision : string) : M (Promise unit) :=
  async (throw (PlainError "Method not implemented.")).

Definition listRevisions (pathPrefix : string) : M (Promise value) :=
  async
    (tryCatch
       (content ← await (readFile (Path.join [pathPrefix; "revisions.json"]));
        match JSON_parse (toString content) with
        | Some v => return_ v
        | None => throw SyntaxError
        end)
       (λ _, return_ (Array []))).

Definition _getBaseDirectories (files : list string) : list string :=
  uniq ((λ f, hd "" (Str.split Str.slash f))
          <$> (Path.dirname
                 <$> (Path.relative cwd PROJECT_LOCATION <$> files))).

Definition discoverTrackableFolders (baseDir : string) : M (Promise (list string)) :=
  async
    (tryCatch
       (allFiles ← await (directoryListing baseDir None true);
        let allDirectories := _getBaseDirectories allFiles in
        let noghostFiles :=
          filter (λ x, Str.toLowerCase (Path.basename x) = ".noghost") allFiles in
        let noghostDirectories := _getBaseDirectories noghostFiles in
        return_ (without allDirectories noghostDirectories))
       (λ _, return_ [])).

Definition createArchive (fileName folder : string) (files : list string)
  : M (Promise string) :=
  async
    (tryCatch
       (await (tar_create folder fileName files);;
        return_ fileName)
       (λ e, throw (VError e ("[Disk Storage] Error creating archive " +:+ quoted fileName)))).

Definition extractArchive (archive : Fs.Buffer) (destination : string)
  : M (Promise (list string)) :=
  async
    (there ← fse_existsSync destination;
     (if negb there then fse_mkdirSync destination else mret ());;
     await (tar_x destination archive);;
     files ← await (glob destination false []);
     return_ (forceForwardSlashes <$> files)).

(** What stands in the way of an [upsertFile]: a regular file on the
    way to the directory that is to hold the file, or a directory (the
    root of the file system included) where the file is to be. *)
Definition blocked (t : Fs.tree) (k : Fs.key) : Prop :=
  (∃ j d, j `prefix_of` Fs.parent k ∧ t !! j = Some (Fs.File d))
  ∨ k = [] ∨ ∃ b, t !! k = Some (Fs.Dir b).

(** The top-level directory of a listed path: its first name, and [.]
    for a path of one name. *)
Definition topLevel (f : string) : string :=
  match Str.split Str.slash f with
  | s :: _ :: _ => s
  | _ => "."
  end.

End Driver.
End DiskStorageDriver.

(* ===================================================================== *)
(** ** A concrete host, to run the driver on *)
(* ===================================================================== *)

Module Sample.

#[global] Instance byte_countable : Countable Byte.byte :=
  inj_countable Byte.to_nat Byte.of_nat Byte.of_to_nat.

#[global] Instance tar_entry_eq_dec : EqDecision tar_entry.
Proof. solve_decision. Defined.
#[global] Instance tar_entry_countable : Countable tar_entry :=
  inj_countable' (λ m, (entry_path m, entry_body m)) (λ pb, TarEntry pb.1 pb.2)
    (λ m, match m with TarEntry _ _ => eq_refl end).

(** A stand-in for the archive bytes: the binary digits of a number
    that codes the member list. *)
Fixpoint digits (p : positive) : Fs.Buffer :=
  match p with
  | xH => []
  | xO p' => Byte.x00 :: digits p'
  | xI p' => Byte.x01 :: digits p'
  end.

Fixpoint undigits (b : Fs.Buffer) : option positive :=
  match b with
  | [] => Some xH
  | Byte.x00 :: b' => xO <$> undigits b'
  | Byte.x01 :: b' => xI <$> undigits b'
  | _ => None
  end.

Lemma undigits_digits p : undigits (digits p) = Some p.
Proof. induction p as [p IH | p IH |]; simpl; rewrite ?IH; done. Qed.

(** An archive begins with the two bytes a gzip stream begins with.
    Bytes that begin so and do not decode are damaged.  In bytes that
    do not begin so the unpacker looks for a plain tape archive: less
    than a block of 512 bytes holds no member and is not reported;
    the sample has no plain archives and takes a block or more for
    damaged. *)
Definition pack (ms : list tar_entry) : Fs.Buffer :=
  Byte.x1f :: Byte.x8b :: digits (encode ms).
Definition unpack (b : Fs.Buffer) : option (list tar_entry) :=
  match b with
  | Byte.x1f :: Byte.x8b :: rest => undigits rest ≫= decode
  | _ => if (length b <? 512)%nat then Some [] else None
  end.

Lemma unpack_pack ms : unpack (pack ms) = Some ms.
Proof. unfold unpack, pack. rewrite undigits_digits. simpl. apply decode_encode. Qed.

(** Ordering by character codes. *)
Definition byCode (a b : string) : Prop := String.leb a b = true.
#[global] Instance byCode_dec a b : Decision (byCode a b).
Proof. unfold byCode. apply _. Defined.
Definition sortByCode : list string → list string := merge_sort byCode.

Lemma sortByCode_perm l : sortByCode l ≡ₚ l.
Proof. apply merge_sort_Permutation. Qed.

(** The [ignore] patterns of the sample are literal paths, and
    literal directories followed by [/**]: a literal path matches
    itself; [d/**] matches [d] and all that is below it, and keeps the
    walk out of [d]. *)
Definition keepsOut (patterns : list string) (d : string) : bool :=
  bool_decide (d +:+ "/**" ∈ patterns).

Definition ignores (patterns : list string) (f : string) : bool :=
  bool_decide (f ∈ patterns)
  || (let segs := Str.split Str.slash f in
      existsb (λ i, keepsOut patterns (Str.join (take i segs))) (seq 1 (length segs))).

Lemma keepsOut_nil d : keepsOut [] d = false.
Proof. unfold keepsOut. apply bool_decide_eq_false. apply not_elem_of_nil. Qed.

Lemma ignores_nil f : ignores [] f = false.
Proof.
  unfold ignores. rewrite bool_decide_eq_false_2 by apply not_elem_of_nil.
  apply not_true_is_false. rewrite orb_false_l, existsb_exists.
  intros (i & _ & Hi). by rewrite keepsOut_nil in Hi.
Qed.

(** A host whose [JSON.parse] knows the documents in [known] and
    rejects every other text. *)
Definition host (projectLocation workingDir : string)
    (absolute : Path.isAbsolute workingDir = true)
    (known : list (string * value)) : Host :=
  {| PROJECT_LOCATION := projectLocation;
     cwd := workingDir;
     cwd_absolute := absolute;
     alphasort := sortByCode;
     alphasort_perm := sortByCode_perm;
     ignored := ignores;
     ignored_nil := ignores_nil;
     childrenIgnored := keepsOut;
     childrenIgnored_nil := keepsOut_nil;
     JSON_parse := λ s, snd <$> find (λ kv, bool_decide (kv.1 = s)) known;
     tgz_pack := pack;
     tgz_unpack := unpack;
     tgz_unpack_pack := unpack_pack |}.

Definition file (s : string) : Fs.node := Fs.File (list_byte_of_string s).

(** [/proj] with [a/x.txt], [b/y.txt] and the marker [b/.noghost]. *)
Definition tracked : Fs.tree :=
  list_to_map
    [ (["proj"], Fs.Dir true);
      (["proj"; "a"], Fs.Dir true);
      (["proj"; "a"; "x.txt"], file "x");
      (["proj"; "b"], Fs.Dir true);
      (["proj"; "b"; "y.txt"], file "y");
      (["proj"; "b"; ".noghost"], file "") ].

(** [/proj/docs] with a plain file, a file whose name ends in a dot,
    and a directory with a dot in its name that holds a plain file. *)
Definition docs : Fs.tree :=
  list_to_map
    [ (["proj"], Fs.Dir true);
      (["proj"; "docs"], Fs.Dir true);
      (["proj"; "docs"; "LICENSE"], file "MIT");
      (["proj"; "docs"; "notes."], file "n");
      (["proj"; "docs"; "v1.0"], Fs.Dir true);
      (["proj"; "docs"; "v1.0"; "README"], file "r") ].

(** [/proj/src] with a plain file and two files with an extension. *)
Definition sources : Fs.tree :=
  list_to_map
    [ (["proj"], Fs.Dir true);
      (["proj"; "src"], Fs.Dir true);
      (["proj"; "src"; "README"], file "read me");
      (["proj"; "src"; "a.txt"], file "alpha");
      (["proj"; "src"; "lib"], Fs.Dir true);
      (["proj"; "src"; "lib"; "b.js"], file "beta") ].


(** [/proj/top] with a file in [pub] and, beside it, a directory
    [vault] that has a file and may not be read. *)
Definition nested : Fs.tree :=
  list_to_map
    [ (["proj"], Fs.Dir true);
      (["proj"; "top"], Fs.Dir true);
      (["proj"; "top"; "pub"], Fs.Dir true);
      (["proj"; "top"; "pub"; "a.txt"], file "a");
      (["proj"; "top"; "vault"], Fs.Dir false);
      (["proj"; "top"; "vault"; "k.txt"], file "key") ].

(** The process started in its project directory, and started
    elsewhere. *)
Definition atHome : Host := host "/proj" "/proj" eq_refl [].
Definition away : Host := host "/proj" "/" eq_refl [].

(** A ledger with one entry, as text and as the value it parses to. *)
Definition ledgerText : string :=
  "[{" +:+ Str.dquote +:+ "path" +:+ Str.dquote +:+ ":"
  +:+ Str.dquote +:+ "a/x.txt" +:+ Str.dquote +:+ ","
  +:+ Str.dquote +:+ "revision" +:+ Str.dquote +:+ ":"
  +:+ Str.dquote +:+ "r1" +:+ Str.dquote +:+ "}]".

Definition ledgerValue : value :=
  Array [Object [("path", Text "a/x.txt"); ("revision", Text "r1")]].

(** [tracked] with that ledger in [a], and with a ledger that is not
    JSON in [b]. *)
Definition withLedgers : Fs.tree :=
  <[ ["proj"; "a"; "revisions.json"] := file ledgerText ]>
    (<[ ["proj"; "b"; "revisions.json"] := file "not json" ]> tracked).

Definition reader : Host := host "/proj" "/proj" eq_refl [(ledgerText, ledgerValue)].

(** The bytes of the file at [p], empty when there is none. *)
Definition bytesAt `{Host} (t : Fs.tree) (p : string) : Fs.Buffer :=
  match Fs.readFile t (key_of p) with inr b => b | inl _ => [] end.

(** A name with an extension: a dot followed by at least one
    character. *)
Fixpoint hasExtension (name : string) : bool :=
  match name with
  | EmptyString => false
  | String a rest =>
      (Ascii.eqb a Str.dot && negb (bool_decide (rest = EmptyString))) || hasExtension rest
  end.

(** An archive one of whose members has a path that leads out of the
    destination, and one whose member has an absolute path; bytes that
    begin like an archive and are damaged; an archive of one file. *)
Definition escaping : Fs.Buffer :=
  pack [ TarEntry "../evil.txt" (Some (list_byte_of_string "x"));
         TarEntry "ok.txt" (Some (list_byte_of_string "fine")) ].
Definition rooted : Fs.Buffer :=
  pack [ TarEntry "/etc/evil.txt" (Some (list_byte_of_string "x")) ].
Definition single (name text : string) : Fs.Buffer :=
  pack [TarEntry name (Some (list_byte_of_string text))].

End Sample.

(* ===================================================================== *)
(** ** Facts about strings and paths *)
(* ===================================================================== *)

Section StrFacts.

Lemma split_nonempty c s : Str.split c s ≠ [].
Proof.
  destruct s as [|a s]; simpl; [done|].
  destruct (Ascii.eqb a c); [done|]. by destruct (Str.split c s).
Qed.

Lemma split_app c a b :
  Str.split c (a +:+ String c b) = Str.split c a ++ Str.split c b.
Proof.
  induction a as [|x a IH]; simpl.
  - by rewrite Ascii.eqb_refl.
  - destruct (Ascii.eqb x c); [by rewrite IH|].
    rewrite IH. pose proof (split_nonempty c a).
    by destruct (Str.split c a).
Qed.

Lemma split_none c s : Str.contains c s = false → Str.split c s = [s].
Proof.
  induction s as [|x s IH]; simpl; [done|].
  intros [Hx Hs]%orb_false_iff. rewrite Hx, (IH Hs). done.
Qed.

Lemma split_parts c s : Forall (λ x, Str.contains c x = false) (Str.split c s).
Proof.
  induction s as [|x s IH]; simpl.
  - by constructor.
  - destruct (Ascii.eqb x c) eqn:Hx; [by constructor|].
    pose proof (split_nonempty c s).
    destruct (Str.split c s) as [|w ws]; [done|].
    inversion_clear IH. constructor; [|done]. simpl. by rewrite Hx.
Qed.

Lemma join_cons x y l : Str.join (x :: y :: l) = x +:+ String Str.slash (Str.join (y :: l)).
Proof. done. Qed.

Lemma split_join segs :
  segs ≠ [] → Forall (λ s, Str.contains Str.slash s = false) segs →
  Str.split Str.slash (Str.join segs) = segs.
Proof.
  intros Hne Hall. induction Hall as [|x l Hx Hl IH]; [done|].
  destruct l as [|y l].
  - by apply split_none.
  - rewrite join_cons, split_app, (split_none _ _ Hx), IH; done.
Qed.

Lemma join_head x w ws : Str.join (String x w :: ws) = String x (Str.join (w :: ws)).
Proof. by destruct ws. Qed.


End StrFacts.

Section PathFacts.

Lemma sapp_cons x (a b : string) : String x a +:+ b = String x (a +:+ b).
Proof. reflexivity. Qed.

Lemma sapp_nil_l (a : string) : "" +:+ a = a.
Proof. reflexivity. Qed.

Lemma sapp_assoc (a b c : string) : (a +:+ b) +:+ c = a +:+ (b +:+ c).
Proof. induction a as [|x a IH]; [done|]. by rewrite !sapp_cons, IH. Qed.

Lemma sapp_nil_r (a : string) : a +:+ "" = a.
Proof. induction a as [|x a IH]; [done|]. by rewrite sapp_cons, IH. Qed.

Lemma chars_app a b : Str.chars (a +:+ b) = Str.chars a ++ Str.chars b.
Proof.
  unfold Str.chars. induction a as [|x a IH]; [done|].
  rewrite sapp_cons. simpl. by rewrite IH.
Qed.

Lemma of_chars_chars s : Str.of_chars (Str.chars s) = s.
Proof. apply string_of_list_ascii_of_string. Qed.

Lemma contains_chars c s :
  Str.contains c s = false ↔ Forall (λ a, a ≠ c) (Str.chars s).
Proof.
  induction s as [|x s IH]; simpl.
  - split; [by constructor|done].
  - rewrite orb_false_iff, IH, Forall_cons, Ascii.eqb_neq. done.
Qed.

Lemma fold_names b segs acc :
  ".." ∉ segs →
  fold_left (Path.normalizeStep b) segs acc = rev (Path.names segs) ++ acc.
Proof.
  revert acc. induction segs as [|x segs IH]; intros acc Hno; [done|].
  apply not_elem_of_cons in Hno as [Hx Hno]. simpl. rewrite (IH _ Hno).
  unfold Path.normalizeStep, Path.names. rewrite filter_cons.
  destruct (decide (x = "" ∨ x = ".")) as [Hd|Hd].
  - rewrite decide_False; [done|]. intros [? ?]. destruct Hd; done.
  - rewrite (decide_False (P := x = "..")); [|done].
    rewrite decide_True.
    + simpl. by rewrite <- app_assoc.
    + split; intros ->; apply Hd; auto.
Qed.

Lemma normalizeSegs_app b pre segs :
  ".." ∉ segs →
  Path.normalizeSegs b (pre ++ segs) = Path.normalizeSegs b pre ++ Path.names segs.
Proof.
  intros Hno. unfold Path.normalizeSegs.
  rewrite fold_left_app, (fold_names _ _ _ Hno), rev_app_distr, rev_involutive. done.
Qed.

Lemma no_dotdot_empty : ".." ∉ [""].
Proof. by intros ?%list_elem_of_singleton. Qed.

Lemma normalizeSegs_names b segs :
  ".." ∉ segs → Path.normalizeSegs b segs = Path.names segs.
Proof. intros Hno. by rewrite <- (app_nil_l segs), normalizeSegs_app. Qed.

Lemma names_valid segs : Forall Fs.valid_name segs → Path.names segs = segs.
Proof.
  induction 1 as [|x l Hx Hl IH]; [done|]. unfold Path.names in *.
  rewrite filter_cons, IH. destruct Hx as (? & ? & ? & ?). by rewrite decide_True.
Qed.

Lemma valid_no_dotdot segs : Forall Fs.valid_name segs → ".." ∉ segs.
Proof.
  intros Hall Hin. rewrite Forall_forall in Hall.
  destruct (Hall _ Hin) as (? & ? & ? & ?). done.
Qed.

Lemma normalizeSegs_valid segs :
  Forall (λ s, Str.contains Str.slash s = false) segs →
  Forall Fs.valid_name (Path.normalizeSegs false segs).
Proof.
  intros Hall. unfold Path.normalizeSegs. apply Forall_rev.
  assert (∀ acc, Forall Fs.valid_name acc →
            Forall Fs.valid_name (fold_left (Path.normalizeStep false) segs acc)) as Hgen.
  { induction Hall as [|x l Hx Hl IH]; intros acc Hacc; [done|]. simpl. apply IH.
    unfold Path.normalizeStep. repeat case_decide; try done.
    - destruct acc as [|top rest]; [done|]. case_decide; [done|]. by inversion Hacc.
    - constructor; [|done]. repeat split; auto. }
  by apply Hgen.
Qed.

Lemma resolveLoop_acc c args acc :
  Path.resolveLoop c args acc
  = ((Path.resolveLoop c args "").1 +:+ acc, (Path.resolveLoop c args "").2).
Proof.
  revert acc. induction args as [|p rest IH]; intros acc; simpl.
  - by rewrite !sapp_assoc.
  - case_decide; [apply IH|]. destruct (Path.isAbsolute p); simpl.
    + by rewrite !sapp_assoc.
    + rewrite IH, (IH (p +:+ "/" +:+ "")). simpl. by rewrite !sapp_assoc.
Qed.

Lemma split_sep a b :
  Str.split Str.slash (a +:+ "/" +:+ b) = Str.split Str.slash a ++ Str.split Str.slash b.
Proof. apply split_app. Qed.

Lemma resolveLoop_slash c args :
  ∃ r0, (Path.resolveLoop c args "").1 = r0 +:+ "/" +:+ "".
Proof.
  induction args as [|p rest [r0 IH]]; simpl.
  - by exists c.
  - case_decide; [by exists r0|]. destruct (Path.isAbsolute p); simpl.
    + by exists p.
    + rewrite resolveLoop_acc. simpl. exists ((Path.resolveLoop c rest "").1 +:+ p).
      by rewrite sapp_assoc.
Qed.

Lemma resolveLoop_absolute c args acc :
  Path.isAbsolute c = true → (Path.resolveLoop c args acc).2 = true.
Proof.
  intros Hc. revert acc. induction args as [|p rest IH]; intros acc; simpl; [done|].
  case_decide; [apply IH|]. destruct (Path.isAbsolute p); [done|apply IH].
Qed.

(** Resolving one more relative argument that has no [..] segment
    appends its names. *)
Lemma resolveSegs_snoc c args p :
  Path.isAbsolute c = true → Path.isAbsolute p = false →
  ".." ∉ Str.split Str.slash p →
  (Path.resolveSegs c (args ++ [p])).1
  = (Path.resolveSegs c args).1 ++ Path.names (Str.split Str.slash p).
Proof.
  intros Hc Hp Hno. unfold Path.resolveSegs. rewrite rev_app_distr. simpl.
  destruct (resolveLoop_slash c (rev args)) as [r0 Hr0].
  pose proof (resolveLoop_absolute c (rev args) "" Hc) as Habs.
  destruct (Path.resolveLoop c (rev args) "") as [r a] eqn:Hroot. simpl in *. subst.
  case_decide as Hempty.
  - subst p. simpl. by rewrite app_nil_r.
  - rewrite Hp, resolveLoop_acc, Hroot. simpl.
    rewrite sapp_assoc. rewrite !split_sep. simpl (Str.split _ "").
    rewrite !app_assoc.
    rewrite (normalizeSegs_app _ _ [""]); [|apply no_dotdot_empty].
    rewrite (normalizeSegs_app _ _ (Str.split Str.slash p)); [|done].
    rewrite (normalizeSegs_app _ (Str.split Str.slash r0) [""]); [|apply no_dotdot_empty].
    simpl. by rewrite !app_nil_r.
Qed.

Lemma valid_no_slash segs :
  Forall Fs.valid_name segs → Forall (λ s, Str.contains Str.slash s = false) segs.
Proof. intros Hall. eapply Forall_impl; [done|]. by intros s (? & ? & ? & ?). Qed.

(** What [path.resolve] prints is read back as the same segments. *)
Lemma resolveSegs_print c segs :
  Forall Fs.valid_name segs →
  Path.resolveSegs c ["/" +:+ Str.join segs] = (segs, true).
Proof.
  intros Hvalid. unfold Path.resolveSegs. simpl. f_equal.
  rewrite sapp_nil_l, split_sep. simpl (Str.split _ "").
  destruct segs as [|x l]; [done|].
  rewrite split_join; [|done|by apply valid_no_slash].
  rewrite normalizeSegs_names.
  - unfold Path.names. rewrite filter_cons, decide_False by (intros [? ?]; done).
    rewrite filter_app. fold (Path.names (x :: l)). rewrite names_valid by done.
    rewrite filter_cons, decide_False by (intros [? ?]; done). simpl.
    by rewrite app_nil_r.
  - intros [?|[?%(valid_no_dotdot _ Hvalid)|?%no_dotdot_empty]%elem_of_app]%elem_of_cons;
      done.
Qed.

Lemma resolveSegs_valid c args :
  Path.isAbsolute c = true →
  Forall Fs.valid_name (Path.resolveSegs c args).1
  ∧ (Path.resolveSegs c args).2 = true.
Proof.
  intros Hc. unfold Path.resolveSegs.
  pose proof (resolveLoop_absolute c (rev args) "" Hc) as Habs.
  destruct (Path.resolveLoop c (rev args) "") as [r a]. simpl in *. subst a.
  split; [|done]. apply normalizeSegs_valid, split_parts.
Qed.

Lemma resolve_segs c args :
  Path.isAbsolute c = true →
  Path.resolve c args = "/" +:+ Str.join (Path.resolveSegs c args).1.
Proof.
  intros Hc. unfold Path.resolve.
  destruct (resolveSegs_valid c args Hc) as [_ Habs].
  destruct (Path.resolveSegs c args) as [segs a]. simpl in *. by subst a.
Qed.

Lemma dropWhile_none {A} (f : A → bool) l :
  Forall (λ x, f x = false) l → Str.dropWhile f l = l.
Proof. destruct 1 as [|x l Hx _]; simpl; [done|by rewrite Hx]. Qed.

Lemma dropWhile_app {A} (f : A → bool) l1 l2 :
  Forall (λ x, f x = true) l1 → Str.dropWhile f (l1 ++ l2) = Str.dropWhile f l2.
Proof. induction 1 as [|x l Hx _ IH]; simpl; [done|by rewrite Hx]. Qed.

Lemma dropWhile_keep {A} (f : A → bool) l1 l2 :
  l1 ≠ [] → Forall (λ x, f x = false) l1 → Str.dropWhile f (l1 ++ l2) = l1 ++ l2.
Proof. intros Hne. destruct 1 as [|x l Hx _]; simpl; [done|by rewrite Hx]. Qed.

Lemma takeWhile_app {A} (f : A → bool) l1 l2 :
  Forall (λ x, f x = true) l1 →
  Str.takeWhile f (l1 ++ l2) = l1 ++ Str.takeWhile f l2.
Proof. induction 1 as [|x l Hx _ IH]; simpl; [done|by rewrite Hx, IH]. Qed.

Lemma join_snoc init b :
  init ≠ [] → Str.join (init ++ [b]) = Str.join init +:+ "/" +:+ b.
Proof.
  induction init as [|x l IH]; [done|]. intros _. destruct l as [|y l]; [done|].
  change ((x :: y :: l) ++ [b]) with (x :: (y :: l) ++ [b]).
  simpl ((y :: l) ++ [b]). rewrite (join_cons x y (l ++ [b])), (join_cons x y l).
  change (y :: l ++ [b]) with ((y :: l) ++ [b]). rewrite IH by done.
  rewrite sapp_assoc. done.
Qed.

Lemma join_empty segs :
  Forall Fs.valid_name segs → Str.join segs = "" → segs = [].
Proof.
  destruct 1 as [|x l (Hx & _) _]; [done|].
  destruct x as [|a x]; [done|]. by rewrite join_head.
Qed.

(** The characters of a valid name, last first: none is a slash. *)
Lemma valid_chars b :
  Fs.valid_name b →
  rev (Str.chars b) ≠ []
  ∧ Forall (λ c, bool_decide (c = Str.slash) = false) (rev (Str.chars b))
  ∧ Forall (λ c, bool_decide (c ≠ Str.slash) = true) (rev (Str.chars b)).
Proof.
  intros (Hne & _ & _ & Hslash). apply contains_chars in Hslash. split_and!.
  - destruct b; [done|]. simpl. intros Hnil. by apply app_eq_nil in Hnil as [_ ?].
  - apply Forall_rev. eapply Forall_impl; [done|]. intros x ?. by apply bool_decide_eq_false.
  - apply Forall_rev. eapply Forall_impl; [done|]. intros x ?. by apply bool_decide_eq_true.
Qed.

Lemma chars_join_snoc init b :
  init ≠ [] →
  rev (Str.chars (Str.join (init ++ [b])))
  = rev (Str.chars b) ++ Str.slash :: rev (Str.chars (Str.join init)).
Proof.
  intros Hne. rewrite join_snoc, !chars_app by done. simpl.
  rewrite rev_app_distr. simpl. by rewrite <- app_assoc.
Qed.

Lemma dirname_print segs :
  Forall Fs.valid_name segs →
  Path.dirname ("/" +:+ Str.join segs) = "/" +:+ Str.join (removelast segs).
Proof.
  intros Hvalid. unfold Path.dirname.
  change (Str.chars ("/" +:+ Str.join segs)) with (Str.slash :: Str.chars (Str.join segs)).
  destruct segs as [|b0 init0 _] using rev_ind; [done|].
  apply Forall_app in Hvalid as [Hinit [Hb _]%Forall_cons].
  destruct (valid_chars b0 Hb) as (Hne & Hno & Hall).
  rewrite removelast_last.
  destruct (decide (init0 = [])) as [->|Hinit0].
  - simpl (Str.join ([] ++ [b0])). unfold Str.join at 1. simpl String.concat.
    by rewrite (dropWhile_none _ _ Hno), <- (app_nil_r (rev _)), (dropWhile_app _ _ _ Hall).
  - rewrite chars_join_snoc by done.
    rewrite (dropWhile_keep _ _ _ Hne Hno), (dropWhile_app _ _ _ Hall). simpl.
    rewrite bool_decide_eq_false_2.
    + rewrite rev_involutive. unfold Str.of_chars. simpl.
      by rewrite string_of_list_ascii_of_string.
    + intros Hnil. apply (f_equal (@rev _)) in Hnil. rewrite rev_involutive in Hnil.
      apply Hinit0, join_empty; [done|].
      by rewrite <- (of_chars_chars (Str.join init0)), Hnil.
Qed.

(** [path.dirname] of a relative path of two names or more. *)
Lemma dirname_join rel :
  Forall Fs.valid_name rel → (2 ≤ length rel)%nat →
  Path.dirname (Str.join rel) = Str.join (removelast rel).
Proof.
  intros Hvalid Hlen. unfold Path.dirname.
  destruct rel as [|b0 init0 _] using rev_ind; [simpl in Hlen; lia|].
  apply Forall_app in Hvalid as [Hinit [Hb _]%Forall_cons].
  destruct (valid_chars b0 Hb) as (Hne & Hno & Hall).
  rewrite removelast_last.
  assert (init0 ≠ []) as Hinit0.
  { intros ->. simpl in Hlen. lia. }
  rewrite join_snoc by done.
  destruct (Str.join init0) as [|c0 rest0] eqn:Hjoin.
  { by apply join_empty in Hjoin. }
  rewrite sapp_cons. simpl Str.chars. rewrite chars_app. simpl Str.chars.
  rewrite rev_app_distr. simpl rev. rewrite <- app_assoc. simpl.
  rewrite (dropWhile_keep _ _ _ Hne Hno), (dropWhile_app _ _ _ Hall). simpl.
  assert (Ascii.eqb c0 Str.slash = false) as ->.
  { destruct init0 as [|s0 l0]; [done|].
    apply Forall_cons in Hinit as [(Hs0ne & _ & _ & Hs0) _].
    destruct s0 as [|a0 s0]; [done|].
    rewrite join_head in Hjoin. injection Hjoin as <- _. simpl in Hs0.
    by apply orb_false_iff in Hs0 as [? _]. }
  simpl. rewrite rev_involutive. unfold Str.of_chars. simpl.
  f_equal. apply string_of_list_ascii_of_string.
Qed.

Lemma basename_join rel :
  Forall Fs.valid_name rel → rel ≠ [] →
  Path.basename (Str.join rel) = List.last rel "".
Proof.
  intros Hvalid Hrel. unfold Path.basename.
  destruct rel as [|b0 init0 _] using rev_ind; [done|]. clear Hrel.
  apply Forall_app in Hvalid as [Hinit [Hb _]%Forall_cons].
  destruct (valid_chars b0 Hb) as (Hne & Hno & Hall).
  rewrite last_last.
  destruct (decide (init0 = [])) as [->|Hinit0].
  - simpl (Str.join ([] ++ [b0])). unfold Str.join at 1. simpl String.concat.
    rewrite (dropWhile_none _ _ Hno).
    rewrite <- (app_nil_r (rev (Str.chars b0))), (takeWhile_app _ _ _ Hall). simpl.
    by rewrite app_nil_r, rev_involutive, of_chars_chars.
  - rewrite chars_join_snoc by done.
    rewrite (dropWhile_keep _ _ _ Hne Hno), (takeWhile_app _ _ _ Hall). simpl.
    by rewrite app_nil_r, rev_involutive, of_chars_chars.
Qed.

Lemma drop_step {A} (k : nat) (acc : list A) top rest :
  drop k acc = top :: rest → drop (S k) acc = rest ∧ top ∈ acc.
Proof.
  revert acc. induction k as [|k IH]; intros acc; simpl.
  - rewrite drop_0. intros ->. split; [done|by left].
  - destruct acc as [|a acc]; [done|]. intros Hd.
    destruct (IH _ Hd) as [? ?]. split; [done|by right].
Qed.

Lemma drop_nil_more {A} (k : nat) (acc : list A) : drop k acc = [] → drop (S k) acc = [].
Proof.
  intros Hd. apply drop_ge. apply (f_equal length) in Hd. rewrite length_drop in Hd.
  simpl in Hd. lia.
Qed.

Lemma normalizeStep_above acc N k seg :
  ".." ∉ acc → ".." ∉ N →
  ∃ N' k',
    Path.normalizeStep true (N ++ replicate k "..") seg = N' ++ replicate k' ".."
    ∧ (".." ∉ N')
    ∧ Path.normalizeStep false (N ++ drop k acc) seg = N' ++ drop k' acc.
Proof.
  intros Hacc HN. unfold Path.normalizeStep.
  destruct (decide (seg = "" ∨ seg = ".")) as [Hd|Hd]; [by exists N, k|].
  destruct (decide (seg = "..")) as [->|Hdd].
  - destruct N as [|top N'].
    + simpl. destruct k as [|k].
      * simpl. rewrite drop_0. exists [], 1. split; [done|]. split; [apply not_elem_of_nil|].
        destruct acc as [|top rest]; [done|]. simpl.
        rewrite decide_False; [by rewrite drop_0|]. intros ->. apply Hacc. by left.
      * simpl. exists [], (S (S k)). split; [done|]. split; [apply not_elem_of_nil|].
        change (match acc with [] => [] | _ :: l => drop k l end) with (drop (S k) acc).
        destruct (drop (S k) acc) as [|top rest] eqn:Hdrop.
        { simpl. by rewrite (drop_nil_more _ _ Hdrop). }
        destruct (drop_step _ _ _ _ Hdrop) as [Hnext Hin].
        rewrite decide_False; [by simpl; rewrite Hnext|]. intros ->. done.
    + apply not_elem_of_cons in HN as [Htop HN']. simpl.
      rewrite !decide_False by done. by exists N', k.
  - exists (seg :: N), k. split; [done|]. split; [|done].
    apply not_elem_of_cons. done.
Qed.

Lemma fold_above acc segs N k :
  ".." ∉ acc → ".." ∉ N →
  ∃ N' k',
    fold_left (Path.normalizeStep true) segs (N ++ replicate k "..")
    = N' ++ replicate k' ".."
    ∧ (".." ∉ N')
    ∧ fold_left (Path.normalizeStep false) segs (N ++ drop k acc) = N' ++ drop k' acc.
Proof.
  intros Hacc. revert N k. induction segs as [|seg segs IH]; intros N k HN; simpl.
  - by exists N, k.
  - destruct (normalizeStep_above acc N k seg Hacc HN) as (N1 & k1 & -> & HN1 & ->).
    by apply IH.
Qed.

Lemma rev_replicate {A} k (x : A) : rev (replicate k x) = replicate k x.
Proof.
  induction k as [|k IH]; [done|]. simpl. rewrite IH.
  clear IH. induction k as [|k IH]; [done|]. simpl. by rewrite IH.
Qed.

Lemma climbs_replicate k M :
  ".." ∉ M → Path.climbs (replicate k ".." ++ M) = k.
Proof.
  intros HM. unfold Path.climbs. induction k as [|k IH]; simpl.
  - destruct M as [|s M]; [done|]. simpl. rewrite bool_decide_eq_false_2; [done|].
    intros ->. apply HM. by left.
  - by rewrite IH.
Qed.

(** Resolving the segments [segs] on top of [root]: each [..] that
    nothing of [segs] cancels takes a name off [root]. *)
Lemma resolve_above root segs :
  ".." ∉ root →
  rev (fold_left (Path.normalizeStep false) segs (rev root))
  = take (length root - Path.climbs (Path.normalizeSegs true segs)) root
    ++ drop (Path.climbs (Path.normalizeSegs true segs)) (Path.normalizeSegs true segs).
Proof.
  intros Hroot.
  destruct (fold_above (rev root) segs [] 0) as (N & k & HT & HN & HF).
  { by intros ?%list_elem_of_In%in_rev%list_elem_of_In. }
  { apply not_elem_of_nil. }
  simpl in HT, HF. rewrite drop_0 in HF. unfold Path.normalizeSegs.
  rewrite HT, HF, !rev_app_distr, rev_replicate.
  assert (".." ∉ rev N) as HN' by by intros ?%list_elem_of_In%in_rev%list_elem_of_In.
  rewrite climbs_replicate by done.
  rewrite drop_app_length' by by rewrite length_replicate.
  f_equal. by rewrite skipn_rev, rev_involutive.
Qed.

Lemma normalizeStep_empty b acc : Path.normalizeStep b acc "" = acc.
Proof. unfold Path.normalizeStep. rewrite decide_True; [done|by left]. Qed.

(** An absolute argument makes the ones before it irrelevant. *)
Lemma resolveSegs_absolute c args p :
  Path.isAbsolute p = true →
  Path.resolveSegs c (args ++ [p]) = Path.resolveSegs c [p].
Proof.
  intros Hp. unfold Path.resolveSegs. rewrite rev_app_distr. simpl.
  assert (p ≠ "") as Hne by (by intros ->).
  rewrite !decide_False by done. by rewrite Hp.
Qed.

(** Resolving one more relative argument, whatever its segments. *)
Lemma resolveSegs_relative c args p :
  Path.isAbsolute c = true → Path.isAbsolute p = false →
  (Path.resolveSegs c (args ++ [p])).1
  = rev (fold_left (Path.normalizeStep false) (Str.split Str.slash p)
           (rev (Path.resolveSegs c args).1)).
Proof.
  intros Hc Hp. unfold Path.resolveSegs. rewrite rev_app_distr. simpl.
  destruct (resolveLoop_slash c (rev args)) as [r0 Hr0].
  pose proof (resolveLoop_absolute c (rev args) "" Hc) as Habs.
  destruct (Path.resolveLoop c (rev args) "") as [r a] eqn:Hroot. simpl in *. subst.
  case_decide as Hempty.
  - subst p. simpl. rewrite normalizeStep_empty. by rewrite rev_involutive.
  - rewrite Hp, resolveLoop_acc, Hroot. simpl.
    rewrite sapp_assoc. rewrite !split_sep. simpl (Str.split _ "").
    unfold Path.normalizeSegs. rewrite rev_involutive.
    rewrite !fold_left_app. simpl. by rewrite !normalizeStep_empty.
Qed.

End PathFacts.

(* ===================================================================== *)
(** ** Facts about the file tree *)
(* ===================================================================== *)

Section FsFacts.
Implicit Types (t : Fs.tree) (k j pre rest : Fs.key) (n : Fs.node).

Lemma namei_inr t pre rest n :
  Fs.namei t pre rest = inr n ↔
  Fs.node_at t (pre ++ rest) = Some n ∧ Fs.dirsAbove t pre rest.
Proof.
  revert pre. induction rest as [|s rest IH]; intros pre; simpl.
  - rewrite app_nil_r. destruct (Fs.node_at t pre) as [m|]; split.
    + intros [= ->]. split; [done|]. by intros r1 ->%prefix_nil_inv.
    + by intros [[= ->] _].
    + done.
    + by intros [? _].
  - destruct (Fs.node_at t pre) as [[d|b]|] eqn:Hpre.
    + split; [done|]. intros [_ Hd]. destruct (Hd []) as [b Hb].
      * apply prefix_nil.
      * done.
      * rewrite app_nil_r in Hb. congruence.
    + rewrite IH, <- app_assoc. simpl. apply and_iff_compat_l. split.
      * intros Hd r1 Hr1 Hne. destruct r1 as [|s' r1].
        { rewrite app_nil_r. eauto. }
        pose proof (prefix_cons_inv_1 _ _ _ _ Hr1) as ->.
        apply prefix_cons_inv_2 in Hr1.
        destruct (Hd r1 Hr1) as [b' Hb']; [congruence|].
        rewrite <- app_assoc in Hb'. eauto.
      * intros Hd r1 Hr1 Hne. destruct (Hd (s :: r1)) as [b' Hb'].
        { by apply prefix_cons. }
        { congruence. }
        rewrite <- app_assoc. eauto.
    + split; [done|]. intros [_ Hd]. destruct (Hd []) as [b Hb].
      * apply prefix_nil.
      * done.
      * rewrite app_nil_r in Hb. congruence.
Qed.

Lemma stat_inr t k n :
  Fs.stat t k = inr n ↔ Fs.node_at t k = Some n ∧ Fs.dirsAbove t [] k.
Proof. apply namei_inr. Qed.

Lemma mkdirpFrom_spec t pre rest t' :
  Fs.mkdirpFrom t pre rest = inr t' →
  (∀ j n, t !! j = Some n → t' !! j = Some n)
  ∧ (∀ j n, t' !! j = Some n →
       t !! j = Some n
       ∨ (n = Fs.Dir true ∧ ∃ r1, r1 ≠ [] ∧ r1 `prefix_of` rest ∧ j = pre ++ r1))
  ∧ (∀ r1, r1 ≠ [] → r1 `prefix_of` rest → ∃ b, t' !! (pre ++ r1) = Some (Fs.Dir b)).
Proof.
  revert t pre. induction rest as [|s rest IH]; intros t pre; simpl.
  - intros [= <-]. split_and!; [done|by left|].
    by intros r1 Hne ->%prefix_nil_inv.
  - destruct (t !! (pre ++ [s])) as [[d|b]|] eqn:Hk; [done|..]; intros Hrec;
      destruct (IH _ _ Hrec) as (Hkeep & Hnew & Hdirs); split_and!.
    + done.
    + intros j n Hj. destruct (Hnew j n Hj) as [?|(-> & r1 & ? & ? & ->)]; [by left|].
      right. split; [done|]. exists (s :: r1). split_and!; [done|by apply prefix_cons|].
      by rewrite <- app_assoc.
    + intros [|s' r1] Hne Hpre; [done|].
      pose proof (prefix_cons_inv_1 _ _ _ _ Hpre) as ->.
      apply prefix_cons_inv_2 in Hpre. destruct r1 as [|s2 r1].
      * eauto.
      * destruct (Hdirs (s2 :: r1)) as [b' Hb']; [done..|].
        rewrite <- app_assoc in Hb'. eauto.
    + intros j n Hj. apply Hkeep. rewrite lookup_insert_ne; [done|]. congruence.
    + intros j n Hj. destruct (Hnew j n Hj) as [Hin|(-> & r1 & ? & ? & ->)].
      * destruct (decide (j = pre ++ [s])) as [->|Hne].
        { rewrite lookup_insert_eq in Hin. injection Hin as <-. right. split; [done|].
          exists [s]. split_and!; [done| |done]. apply prefix_cons, prefix_nil. }
        { rewrite lookup_insert_ne in Hin by done. by left. }
      * right. split; [done|]. exists (s :: r1).
        split_and!; [done|by apply prefix_cons|]. by rewrite <- app_assoc.
    + intros [|s' r1] Hne Hpre; [done|].
      pose proof (prefix_cons_inv_1 _ _ _ _ Hpre) as ->.
      apply prefix_cons_inv_2 in Hpre. destruct r1 as [|s2 r1].
      * exists true. apply Hkeep. by rewrite lookup_insert_eq.
      * destruct (Hdirs (s2 :: r1)) as [b' Hb']; [done..|].
        rewrite <- app_assoc in Hb'. eauto.
Qed.

Lemma mkdirpFrom_ok t pre rest :
  (∀ r1 d, r1 ≠ [] → r1 `prefix_of` rest → t !! (pre ++ r1) ≠ Some (Fs.File d)) →
  ∃ t', Fs.mkdirpFrom t pre rest = inr t'.
Proof.
  revert t pre. induction rest as [|s rest IH]; intros t pre Hfree; simpl; [eauto|].
  destruct (t !! (pre ++ [s])) as [[d|b]|] eqn:Hk.
  - destruct (Hfree [s] d); [done| |done]. apply prefix_cons, prefix_nil.
  - apply IH. intros r1 d Hne Hpre. rewrite <- app_assoc. apply Hfree; [done|].
    by apply prefix_cons.
  - apply IH. intros r1 d Hne Hpre. rewrite <- app_assoc. simpl.
    rewrite lookup_insert_ne.
    + apply Hfree; [done|]. by apply prefix_cons.
    + intros Heq. apply (f_equal length) in Heq. rewrite !length_app in Heq.
      destruct r1; [done|]. simpl in Heq. lia.
Qed.

Lemma prefix_removelast j k :
  j `prefix_of` k → j ≠ k → j `prefix_of` removelast k.
Proof.
  intros [r ->] Hne. destruct r as [|x r _] using rev_ind.
  - by rewrite app_nil_r in Hne.
  - rewrite app_assoc, removelast_last. by apply prefix_app_r.
Qed.

Lemma removelast_prefix k : removelast k `prefix_of` k.
Proof.
  destruct k as [|x k _] using rev_ind; [done|].
  rewrite removelast_last. by apply prefix_app_r.
Qed.

Lemma removelast_ne k : k ≠ [] → removelast k ≠ k.
Proof.
  destruct k as [|x k _] using rev_ind; [done|]. intros _.
  rewrite removelast_last. intros Heq. apply (f_equal length) in Heq.
  rewrite length_app in Heq. simpl in Heq. lia.
Qed.

Lemma writeFile_inr t k d t' :
  Fs.writeFile t k d = inr t' →
  k ≠ [] ∧ t' = <[k := Fs.File d]> t
  ∧ (∃ b, Fs.stat t (Fs.parent k) = inr (Fs.Dir b))
  ∧ (∀ b, t !! k ≠ Some (Fs.Dir b)).
Proof.
  unfold Fs.writeFile. destruct k as [|s k]; [done|].
  destruct (Fs.stat t (Fs.parent (s :: k))) as [e|[d'|b]] eqn:Hp; [done..|].
  destruct (t !! (s :: k)) as [[d'|b']|] eqn:Hk; [|done|]; intros [= <-];
    split_and!; eauto; done.
Qed.

Lemma wf_dirsAbove t k n : Fs.wf t → Fs.node_at t k = Some n → Fs.dirsAbove t [] k.
Proof.
  intros Hwf Hk. destruct k as [|s k].
  - by intros r1 ->%prefix_nil_inv.
  - destruct (Hwf _ _ Hk) as (_ & _ & Hd). intros r1 Hr1 Hne. by apply Hd.
Qed.

Lemma wf_stat t k n : Fs.wf t → Fs.stat t k = inr n ↔ Fs.node_at t k = Some n.
Proof.
  intros Hwf. rewrite stat_inr. split; [by intros [? _]|].
  intros Hk. split; [done|]. by eapply wf_dirsAbove.
Qed.

Lemma dirsAbove_parent t k b :
  Fs.node_at t (Fs.parent k) = Some (Fs.Dir b) → Fs.dirsAbove t [] (Fs.parent k) →
  Fs.dirsAbove t [] k.
Proof.
  intros Hp Hd r1 Hr1 Hne. simpl.
  destruct (decide (r1 = Fs.parent k)) as [->|Hne']; [eauto|].
  apply Hd; [|done]. by apply prefix_removelast.
Qed.

Lemma node_at_insert_ne t k j n :
  j ≠ k → Fs.node_at (<[k := n]> t) j = Fs.node_at t j.
Proof. intros Hne. destruct j; [done|]. simpl. by rewrite lookup_insert_ne. Qed.

Lemma wf_insert t k n :
  Fs.wf t → k ≠ [] → Forall Fs.valid_name k → Fs.dirsAbove t [] k →
  (∀ b, t !! k = Some (Fs.Dir b) → ∃ b', n = Fs.Dir b') →
  Fs.wf (<[k := n]> t).
Proof.
  intros Hwf Hk Hvalid Habove Hdir j m Hj.
  destruct (decide (j = k)) as [->|Hne].
  - split_and!; [done..|]. intros j' Hj' Hne'.
    rewrite node_at_insert_ne by done. by apply Habove.
  - rewrite lookup_insert_ne in Hj by done.
    destruct (Hwf _ _ Hj) as (? & ? & Hd). split_and!; [done..|].
    intros j' Hj' Hne'. destruct (Hd j' Hj' Hne') as [b Hb].
    destruct (decide (j' = k)) as [->|Hne2].
    + destruct k as [|s k]; [done|]. simpl in Hb.
      destruct (Hdir _ Hb) as [b' ->]. exists b'. simpl. by rewrite lookup_insert_eq.
    + rewrite node_at_insert_ne by done. eauto.
Qed.

Lemma wf_mkdirpFrom t pre rest t' :
  Fs.wf t → Forall Fs.valid_name (pre ++ rest) →
  (∃ b, Fs.node_at t pre = Some (Fs.Dir b)) →
  Fs.mkdirpFrom t pre rest = inr t' → Fs.wf t'.
Proof.
  revert t pre. induction rest as [|s rest IH]; intros t pre Hwf Hvalid [b Hpre]; simpl.
  - by intros [= <-].
  - assert (Forall Fs.valid_name ((pre ++ [s]) ++ rest)) as Hvalid'
      by by rewrite <- app_assoc.
    assert (pre ++ [s] ≠ []) as Hne by by destruct pre.
    assert (Fs.node_at t (pre ++ [s]) = t !! (pre ++ [s])) as Hat
      by by destruct pre.
    destruct (t !! (pre ++ [s])) as [[d|b']|] eqn:Hk; [done|..].
    + apply IH; [done..|]. exists b'. by rewrite Hat.
    + apply IH; [|done|].
      * apply wf_insert; [done|done|..].
        { apply Forall_app in Hvalid' as [? _]. done. }
        { eapply dirsAbove_parent.
          - unfold Fs.parent. rewrite removelast_last. done.
          - unfold Fs.parent. rewrite removelast_last. by eapply wf_dirsAbove. }
        { intros b'. by rewrite Hk. }
      * exists true. destruct (pre ++ [s]) eqn:?; [done|]. simpl.
        by rewrite lookup_insert_eq.
Qed.

Lemma wf_mkdirp t k t' :
  Fs.wf t → Forall Fs.valid_name k → Fs.mkdirp t k = inr t' → Fs.wf t'.
Proof. intros Hwf Hvalid. apply wf_mkdirpFrom; [done|done|by exists true]. Qed.

Lemma wf_writeFile t k d t' :
  Fs.wf t → Forall Fs.valid_name k → Fs.writeFile t k d = inr t' → Fs.wf t'.
Proof.
  intros Hwf Hvalid (Hk & -> & [b Hp] & Hnodir)%writeFile_inr.
  apply stat_inr in Hp as [Hp Hd].
  apply wf_insert; [done..| |].
  - by eapply dirsAbove_parent.
  - intros b' Hb'. by destruct (Hnodir b').
Qed.

Lemma wf_mkdir t k t' :
  Fs.wf t → Forall Fs.valid_name k → Fs.mkdir t k = inr t' → Fs.wf t'.
Proof.
  intros Hwf Hvalid. unfold Fs.mkdir.
  destruct (Fs.stat t k) as [e|n] eqn:Hk; [|done].
  destruct (Fs.stat t (Fs.parent k)) as [e'|[d|b]] eqn:Hp; [done..|].
  intros [= <-]. apply stat_inr in Hp as [Hp Hd].
  apply wf_insert; [done| |done| |].
  - intros ->. done.
  - by eapply dirsAbove_parent.
  - eauto.
Qed.

Lemma has_children_false t k :
  Fs.has_children t k = false → ∀ j n, t !! j = Some n → k `prefix_of` j → j = k.
Proof.
  unfold Fs.has_children. intros Hno j n Hj Hpre.
  destruct (decide (j = k)) as [|Hne]; [done|].
  assert (existsb (λ j, bool_decide (k `prefix_of` j ∧ j ≠ k)) (map_to_list t).*1 = true)
    as Hyes; [|congruence].
  apply existsb_exists. exists j. split.
  - apply list_elem_of_In, list_elem_of_fmap. exists (j, n). split; [done|].
    by apply elem_of_map_to_list.
  - by apply bool_decide_eq_true.
Qed.

Lemma wf_rmdir t k t' : Fs.wf t → Fs.rmdir t k = inr t' → Fs.wf t'.
Proof.
  intros Hwf. unfold Fs.rmdir.
  destruct (Fs.stat t k) as [e|[d|b]]; [done..|].
  destruct (Fs.has_children t k) eqn:Hc; [done|]. intros [= <-].
  intros j m Hj. apply lookup_delete_Some in Hj as [Hne Hj].
  destruct (Hwf _ _ Hj) as (? & ? & Hd). split_and!; [done..|].
  intros j' Hj' Hne'. destruct (Hd j' Hj' Hne') as [b' Hb'].
  exists b'. destruct j' as [|s j']; [done|]. simpl in *.
  rewrite lookup_delete_ne; [done|]. intros ->.
  apply Hne'. symmetry. by eapply has_children_false.
Qed.

Lemma wfb_wf t : Fs.wfb t = true → Fs.wf t.
Proof.
  unfold Fs.wfb. rewrite forallb_forall. intros Hall k n Hk.
  assert (In k (map_to_list t).*1) as Hin.
  { apply list_elem_of_In, list_elem_of_fmap. exists (k, n). split; [done|].
    by apply elem_of_map_to_list. }
  apply Hall in Hin.
  apply andb_true_iff in Hin as [[Hne Hvalid]%bool_decide_eq_true Hup].
  split_and!; [done..|]. intros j [r ->] Hj. rewrite forallb_forall in Hup.
  specialize (Hup (length j)). rewrite take_app_length in Hup.
  destruct (Fs.node_at t j) as [[d|b]|]; [|by eexists|].
  - assert (false = true); [|done]. apply Hup. apply in_seq. rewrite length_app.
    destruct r; [by rewrite app_nil_r in Hj|]. simpl. lia.
  - assert (false = true); [|done]. apply Hup. apply in_seq. rewrite length_app.
    destruct r; [by rewrite app_nil_r in Hj|]. simpl. lia.
Qed.

Lemma namei_ENOENT t pre rest :
  Fs.node_at t (pre ++ rest) = None →
  (∀ r1 d, r1 `prefix_of` rest → Fs.node_at t (pre ++ r1) ≠ Some (Fs.File d)) →
  Fs.namei t pre rest = inl Fs.ENOENT.
Proof.
  revert pre. induction rest as [|s rest IH]; intros pre Hnone Hfiles; simpl.
  - rewrite app_nil_r in Hnone. by rewrite Hnone.
  - destruct (Fs.node_at t pre) as [[d|b]|] eqn:Hpre; [|apply IH|done].
    + destruct (Hfiles [] d); [apply prefix_nil|by rewrite app_nil_r].
    + by rewrite <- app_assoc.
    + intros r1 d Hr1. rewrite <- app_assoc. apply Hfiles. by apply prefix_cons.
Qed.


Lemma writeFile_ok t k d :
  k ≠ [] → (∃ b, Fs.stat t (Fs.parent k) = inr (Fs.Dir b)) →
  (∀ b, t !! k ≠ Some (Fs.Dir b)) →
  Fs.writeFile t k d = inr (<[k := Fs.File d]> t).
Proof.
  intros Hk [b Hp] Hnodir. unfold Fs.writeFile. rewrite Hp.
  destruct k as [|s k]; [done|].
  destruct (t !! (s :: k)) as [[?|b']|] eqn:Hcur; [done| |done].
  by destruct (Hnodir b').
Qed.

(** Directories that are all there are left alone by [mkdirp]. *)
Lemma mkdirpFrom_noop t pre rest :
  (∀ r1, r1 ≠ [] → r1 `prefix_of` rest → ∃ b, t !! (pre ++ r1) = Some (Fs.Dir b)) →
  Fs.mkdirpFrom t pre rest = inr t.
Proof.
  revert pre. induction rest as [|s rest IH]; intros pre Hall; simpl; [done|].
  destruct (Hall [s]) as [b Hb]; [done|by apply prefix_cons, prefix_nil|].
  rewrite Hb. apply IH. intros r1 Hne Hpre. rewrite <- app_assoc. simpl.
  apply Hall; [done|by apply prefix_cons].
Qed.

(** A failing [mkdirp] has met a regular file. *)
Lemma mkdirpFrom_inl t pre rest e :
  Fs.mkdirpFrom t pre rest = inl e →
  (e = Fs.EEXIST ∨ e = Fs.ENOTDIR)
  ∧ ∃ r1 d, r1 ≠ [] ∧ r1 `prefix_of` rest ∧ t !! (pre ++ r1) = Some (Fs.File d).
Proof.
  revert t pre. induction rest as [|s rest IH]; intros t pre; simpl; [done|].
  destruct (t !! (pre ++ [s])) as [[d|b]|] eqn:Hk.
  - intros [= <-]. split; [destruct rest; by eauto|].
    exists [s], d. split_and!; [done|by apply prefix_cons, prefix_nil|done].
  - intros (He & r1 & d & Hne & Hpre & Hf)%IH. split; [done|].
    exists (s :: r1), d. rewrite <- app_assoc in Hf. split_and!; [done|by apply prefix_cons|done].
  - intros (He & r1 & d & Hne & Hpre & Hf)%IH. split; [done|].
    exists (s :: r1), d. rewrite <- app_assoc in Hf. split_and!; [done|by apply prefix_cons|].
    rewrite lookup_insert_ne in Hf; [done|].
    intros Heq. apply (f_equal length) in Heq. rewrite !length_app in Heq.
    simpl in Heq. destruct r1; [done|]. simpl in Heq. lia.
Qed.

End FsFacts.

(* ===================================================================== *)
(** ** Properties of the driver *)
(* ===================================================================== *)

Section GlobFacts.
Context `{Host}.
Import Js.
Implicit Types (t : Fs.tree) (c rel : Fs.key).

Lemma below_Some pre k rel : below pre k = Some rel ↔ k = pre ++ rel.
Proof.
  revert k. induction pre as [|x pre IH]; intros k; simpl.
  - split; [by intros [= ->]|by intros ->].
  - destruct k as [|y k]; [done|]. case_decide as Hxy.
    + subst y. rewrite IH. split; [by intros ->|by intros [= ->]].
    + split; [done|]. intros [= ? ?]. done.
Qed.

Lemma elem_globWalk t c dot rel :
  rel ∈ globWalk t c dot ↔
  is_Some (t !! (c ++ rel)) ∧ matches dot rel = true ∧ reachable t c rel = true.
Proof.
  unfold globWalk. rewrite list_elem_of_omap. split.
  - intros (k & Hk & Hf). apply list_elem_of_fmap in Hk as ([k' n] & -> & Hkn).
    apply elem_of_map_to_list in Hkn. simpl in Hf.
    destruct (below c k') as [rel'|] eqn:Hb; [|done]. simpl in Hf.
    apply below_Some in Hb as ->.
    destruct (matches dot rel' && reachable t c rel') eqn:Hcond; [|done].
    injection Hf as ->. apply andb_true_iff in Hcond as [? ?]. eauto.
  - intros ([n Hn] & Hm & Hr). exists (c ++ rel). split.
    + apply list_elem_of_fmap. exists (c ++ rel, n). split; [done|].
      by apply elem_of_map_to_list.
    + assert (below c (c ++ rel) = Some rel) as -> by by apply below_Some.
      simpl. by rewrite Hm, Hr.
Qed.

Lemma pruned_nil rel : pruned [] rel = false.
Proof.
  unfold pruned. apply not_true_is_false. rewrite existsb_exists.
  intros (i & _ & Hi). by rewrite childrenIgnored_nil in Hi.
Qed.

Lemma filter_pruned_nil (l : list Fs.key) : filter (λ rel, pruned [] rel = false) l = l.
Proof.
  induction l as [|rel l IH]; [done|].
  rewrite filter_cons_True by apply pruned_nil. by rewrite IH.
Qed.

Lemma entered_nil dot rel : entered dot [] rel = forallb (visible dot) rel.
Proof.
  unfold entered. rewrite pruned_nil, childrenIgnored_nil. simpl.
  by rewrite !andb_true_r.
Qed.

(** No directory that the walk goes into is closed to it. *)
Lemma barred_false t c dot ignore :
  barred t c dot ignore = false ↔
  ∀ rel, rel ≠ [] → t !! (c ++ rel) = Some (Fs.Dir false) →
         entered dot ignore rel = false.
Proof.
  unfold barred. split.
  - intros Hb rel Hne Hrel. apply not_true_is_false. intros Hent.
    apply not_true_iff_false in Hb. apply Hb. apply existsb_exists.
    exists (c ++ rel, Fs.Dir false). split.
    + apply list_elem_of_In. by apply elem_of_map_to_list.
    + simpl. assert (below c (c ++ rel) = Some rel) as -> by by apply below_Some.
      by destruct rel.
  - intros Hall. apply not_true_is_false. rewrite existsb_exists.
    intros ([k n] & Hin & Hk). apply list_elem_of_In, elem_of_map_to_list in Hin.
    simpl in Hk. destruct (below c k) as [[|s rel]|] eqn:Hb; [done| |done].
    apply below_Some in Hb as ->. destruct n as [|[]]; [done..|].
    by rewrite (Hall (s :: rel)) in Hk.
Qed.



(** What the pattern asks of a path: a base name with a dot in it,
    and no hidden name on the way unless [dot] is set. *)
Lemma matches_inv dot rel :
  matches dot rel = true →
  rel ≠ []
  ∧ Str.contains Str.dot (List.last rel "") = true
  ∧ Forall (λ s, visible dot s = true) rel.
Proof.
  unfold matches. destruct rel as [|base init _] using rev_ind; [done|].
  rewrite rev_app_distr. simpl.
  intros [[Hdot Hvis]%andb_true_iff Hdirs]%andb_true_iff.
  rewrite last_last. split_and!; [by destruct init|done|].
  apply Forall_app. split; [|by repeat constructor].
  apply Forall_forall. intros s Hs. rewrite forallb_forall in Hdirs.
  apply Hdirs. apply in_rev, list_elem_of_In. by rewrite rev_involutive.
Qed.

Lemma forceForwardSlashes_id p : forceForwardSlashes p = p.
Proof.
  unfold forceForwardSlashes.
  assert (∀ l, (λ a, if Ascii.eqb a hostSeparator then Str.slash else a) <$> l = l) as ->.
  { induction l as [|a l IH]; [done|]. rewrite fmap_cons, IH.
    destruct (Ascii.eqb a hostSeparator) eqn:Ha; [|done].
    by apply Ascii.eqb_eq in Ha as ->. }
  apply of_chars_chars.
Qed.

Lemma forceForwardSlashes_map (l : list string) : forceForwardSlashes <$> l = l.
Proof. induction l as [|a l IH]; [done|]. by rewrite fmap_cons, forceForwardSlashes_id, IH. Qed.

(** What a successful [glob] lists: paths of matched entries. *)
Lemma glob_listed cwd_opt dot ignore t files f :
  globResult cwd_opt dot ignore t = Fulfilled files → f ∈ files →
  ∃ rel, f = Str.join rel ∧ rel ∈ globWalk t (key_of cwd_opt) dot.
Proof.
  unfold globResult.
  destruct (Fs.stat t (key_of cwd_opt)) as [[]|[d|[]]];
    try destruct (barred t (key_of cwd_opt) dot ignore);
    intros [= <-] Hf; try by apply elem_of_nil in Hf.
  rewrite alphasort_perm in Hf. apply list_elem_of_filter in Hf as [_ Hf].
  apply list_elem_of_fmap in Hf as (rel & -> & Hrel).
  apply list_elem_of_filter in Hrel as [_ Hrel]. eauto.
Qed.

(** In a well-formed tree a matched entry is there under valid
    names, and the base name of its printed path has a dot. *)
Lemma globWalk_entry t c dot rel :
  Fs.wf t → rel ∈ globWalk t c dot →
  Forall Fs.valid_name rel
  ∧ is_Some (t !! (c ++ rel))
  ∧ Str.contains Str.dot (Path.basename (Str.join rel)) = true
  ∧ visible dot (Path.basename (Str.join rel)) = true.
Proof.
  intros Hwf (Hsome & Hm & _)%elem_globWalk.
  destruct Hsome as [n Hn]. destruct (Hwf _ _ Hn) as (_ & [_ Hvalid]%Forall_app & _).
  apply matches_inv in Hm as (Hne & Hdot & Hvis).
  rewrite basename_join by done. split_and!; [done|by eexists|done|].
  rewrite Forall_forall in Hvis. apply Hvis.
  destruct rel as [|x rel _] using rev_ind; [done|].
  rewrite last_last. apply elem_of_app. right. by apply list_elem_of_singleton.
Qed.

Lemma glob_dotted cwd_opt dot ignore t files :
  Fs.wf t → globResult cwd_opt dot ignore t = Fulfilled files →
  dottedListing t (key_of cwd_opt) dot files.
Proof.
  intros Hwf Hglob. split.
  - intros f Hf. destruct (glob_listed _ _ _ _ _ _ Hglob Hf) as (rel & -> & Hrel).
    destruct (globWalk_entry _ _ _ _ Hwf Hrel) as (_ & ? & ? & ?). by exists rel.
  - intros rel [n Hn] Hne Hnodot Hin.
    destruct (glob_listed _ _ _ _ _ _ Hglob Hin) as (rel' & Heq & Hrel').
    destruct (globWalk_entry _ _ _ _ Hwf Hrel') as (_ & _ & Hdot & _).
    rewrite <- Heq in Hdot. rewrite basename_join in Hdot; [congruence| |done].
    by destruct (Hwf _ _ Hn) as (_ & [_ ?]%Forall_app & _).
Qed.

Lemma key_valid (args : list string) : Forall Fs.valid_name (Path.resolveSegs cwd args).1.
Proof. apply resolveSegs_valid, cwd_absolute. Qed.

Lemma wf_place dest t p body t' :
  Fs.wf t → place dest t p body = inr t' → Fs.wf t'.
Proof.
  intros Hwf. unfold place, orError.
  pose proof (key_valid [dest; p]) as Hvalid.
  unfold memberKey.
  set (k := (Path.resolveSegs cwd [dest; p]).1) in *.
  destruct body as [d|].
  - destruct (Fs.mkdirp t (Fs.parent k)) as [e|t1] eqn:Hmk; [done|].
    assert (Fs.wf t1) as Hwf1.
    { eapply wf_mkdirp; [done| |done]. apply Forall_forall. intros x Hx.
      rewrite Forall_forall in Hvalid. apply Hvalid.
      destruct (removelast_prefix k) as [r Hr]. rewrite Hr. apply elem_of_app. by left. }
    destruct (t1 !! k) as [[d'|b]|].
    + destruct (Fs.writeFile t1 k d) as [e|t2] eqn:Hw; [done|]. intros [= <-].
      by eapply wf_writeFile.
    + destruct (Fs.rmdir t1 k) as [e|t2] eqn:Hrm; [done|].
      destruct (Fs.writeFile t2 k d) as [e|t3] eqn:Hw; [done|]. intros [= <-].
      eapply wf_writeFile; [|done|done]. by eapply wf_rmdir.
    + destruct (Fs.writeFile t1 k d) as [e|t2] eqn:Hw; [done|]. intros [= <-].
      by eapply wf_writeFile.
  - destruct (Fs.mkdirp t k) as [e|t1] eqn:Hmk; [done|]. intros [= <-].
    by eapply wf_mkdirp.
Qed.

(** What is left of a path without [..] when its root is taken off
    is a path the unpacker does not object to. *)
Lemma refused_stripRoot p :
  ".." ∉ Str.split Str.slash p → refused (stripRoot p) = false.
Proof.
  unfold stripRoot. induction p as [|a q IH]; [done|]. simpl.
  destruct (Ascii.eqb a Str.slash) eqn:Ha.
  - apply Ascii.eqb_eq in Ha as ->. intros [_ Hq]%not_elem_of_cons.
    rewrite bool_decide_eq_true_2 by done. by apply IH.
  - intros Hno. apply Ascii.eqb_neq in Ha. rewrite bool_decide_eq_false_2 by done.
    change (Str.of_chars (a :: Str.chars q)) with (Str.of_chars (Str.chars (String a q))).
    rewrite of_chars_chars. unfold refused. simpl.
    rewrite (proj2 (Ascii.eqb_neq _ _) Ha). simpl.
    apply bool_decide_eq_false. revert Hno. simpl.
    by rewrite ?(proj2 (Ascii.eqb_neq _ _) Ha).
Qed.

(** A member leaves the tree as it was, or as putting it in its
    place, at a path the unpacker does not object to, leaves it. *)
Lemma unpackMember_cases dest t m :
  (unpackMember dest t m).1 = t
  ∨ (∃ p t', t' = fst (unpackMember dest t m)
             ∧ place dest t p (entry_body m) = inr t'
             ∧ refused p = false).
Proof.
  unfold unpackMember. case_bool_decide as Hdd; [by left|].
  destruct (Path.isAbsolute (entry_path m)) eqn:Habs; simpl.
  - destruct (place dest t (stripRoot (entry_path m)) (entry_body m)) as [e|t'] eqn:Hp;
      [by left|]. right. exists (stripRoot (entry_path m)), t'.
    split_and!; [done..|]. by apply refused_stripRoot.
  - destruct (place dest t (entry_path m) (entry_body m)) as [e|t'] eqn:Hp;
      [by left|]. right. exists (entry_path m), t'. split_and!; [done..|].
    unfold refused. rewrite Habs. by apply bool_decide_eq_false.
Qed.

(** A member the unpacker objects to is reported. *)
Lemma unpackMember_refused dest t m :
  refused (entry_path m) = true → is_Some (unpackMember dest t m).2.
Proof.
  unfold refused, unpackMember. case_bool_decide as Hdd; [by eexists|].
  rewrite orb_false_r. intros ->. by eexists.
Qed.

Lemma wf_unpackMember dest t m :
  Fs.wf t → Fs.wf (unpackMember dest t m).1.
Proof.
  intros Hwf. destruct (unpackMember_cases dest t m) as [->|(p & t' & -> & Hp & _)]; [done|].
  by eapply wf_place.
Qed.

Lemma unpackAll_cons dest t m ms :
  unpackAll dest t (m :: ms)
  = ((unpackAll dest (unpackMember dest t m).1 ms).1,
     match (unpackMember dest t m).2 with
     | Some e => Some e
     | None => (unpackAll dest (unpackMember dest t m).1 ms).2
     end).
Proof.
  simpl. destruct (unpackMember dest t m) as [t1 first]. simpl.
  by destruct (unpackAll dest t1 ms) as [t' later].
Qed.

Lemma wf_unpackAll dest t ms t' r :
  Fs.wf t → unpackAll dest t ms = (t', r) → Fs.wf t'.
Proof.
  revert t r. induction ms as [|m ms IH]; intros t r Hwf.
  - by intros [= <- _].
  - rewrite unpackAll_cons. intros [= <- _].
    destruct (unpackAll dest (unpackMember dest t m).1 ms) as [t2 r2] eqn:Hrest.
    eapply IH; [|done]. by apply wf_unpackMember.
Qed.

End GlobFacts.

Section ArchiveFacts.
Context `{Host}.
Import Js.
Implicit Types (t : Fs.tree) (r x j : Fs.key) (items : list (Fs.key * Fs.Buffer)).

Lemma mkdirp_lookup t k t' j :
  Fs.mkdirp t k = inr t' →
  t' !! j = match t !! j with
            | Some n => Some n
            | None => if decide (j ≠ [] ∧ j `prefix_of` k) then Some (Fs.Dir true) else None
            end.
Proof.
  intros (Hkeep & Hnew & Hdirs)%mkdirpFrom_spec.
  destruct (t !! j) as [n|] eqn:Hj; [by apply Hkeep|].
  case_decide as Hp.
  - destruct Hp as [Hne Hp]. destruct (Hdirs j Hne Hp) as [b Hb]. simpl in Hb.
    destruct (Hnew _ _ Hb) as [?|[Heq _]]; [congruence|]. by rewrite Hb, Heq.
  - destruct (t' !! j) as [n|] eqn:Hj'; [|done].
    destruct (Hnew _ _ Hj') as [?|(-> & r1 & ? & ? & ->)]; [congruence|].
    simpl in Hp. destruct Hp; done.
Qed.

Lemma valid_not_absolute r :
  Forall Fs.valid_name r → r ≠ [] → Path.isAbsolute (Str.join r) = false.
Proof.
  destruct 1 as [|s l (Hs & _ & _ & Hslash) _]; [done|]. intros _.
  destruct s as [|a s]; [done|]. rewrite join_head. simpl in *.
  by apply orb_false_iff in Hslash as [? _].
Qed.

Lemma memberKey_join a r :
  Forall Fs.valid_name r → r ≠ [] → memberKey a (Str.join r) = key_of a ++ r.
Proof.
  intros Hvalid Hne. unfold memberKey, key_of.
  change [a; Str.join r] with ([a] ++ [Str.join r]).
  rewrite resolveSegs_snoc.
  - rewrite split_join, names_valid; [done..|by apply valid_no_slash].
  - apply cwd_absolute.
  - by apply valid_not_absolute.
  - rewrite split_join; [by apply valid_no_dotdot|done|by apply valid_no_slash].
Qed.


Lemma refused_join r :
  Forall Fs.valid_name r → r ≠ [] → refused (Str.join r) = false.
Proof.
  intros Hvalid Hne. unfold refused. rewrite valid_not_absolute by done. simpl.
  apply bool_decide_eq_false. rewrite split_join; [|done|by apply valid_no_slash].
  by apply valid_no_dotdot.
Qed.

Lemma prefix_below d j r :
  j `prefix_of` d ++ r → j `prefix_of` d ∨ ∃ x, j = d ++ x ∧ x `prefix_of` r.
Proof.
  intros Hj. destruct (prefix_weak_total j d (d ++ r)) as [?|[x ->]];
    [done|by apply prefix_app_r|by left|].
  right. exists x. split; [done|]. by apply prefix_app_inv in Hj.
Qed.

Lemma properPrefix_removelast x r : properPrefix x r → x `prefix_of` removelast r.
Proof. intros [? ?]. by apply prefix_removelast. Qed.

Lemma removelast_properPrefix x r : r ≠ [] → x `prefix_of` removelast r → properPrefix x r.
Proof.
  intros Hne Hx. split; [etrans; [done|apply removelast_prefix]|].
  intros ->. apply prefix_length in Hx. destruct r as [|s r _] using rev_ind; [done|].
  rewrite removelast_last, length_app in Hx. simpl in Hx. lia.
Qed.

(** The directory [d] of an unpacked tree and all above it are
    directories. *)
Lemma unpacked_dirs t d items j :
  unpacked t d items → j `prefix_of` d → ∃ b, Fs.node_at t j = Some (Fs.Dir b).
Proof.
  intros [[Hnode Habove]%stat_inr _] Hj.
  destruct (decide (j = d)) as [->|Hne]; [eauto|]. by apply Habove.
Qed.

(** Every directory of an unpacked tree may be read. *)
Lemma unpacked_open t d items dot ignore :
  unpacked t d items → barred t d dot ignore = false.
Proof.
  intros [_ Hlook]. apply barred_false. intros rel Hne Hrel.
  apply Hlook in Hrel; [|done]. by destruct Hrel as [(? & ? & _)|(? & _)].
Qed.

(** Unpacking one more file into an unpacked tree. *)
Lemma unpack_step dest t items r b :
  unpacked t (key_of dest) items → consistent (items ++ [(r, b)]) →
  Forall Fs.valid_name r → r ≠ [] →
  ∃ t', unpackMember dest t (TarEntry (Str.join r) (Some b)) = (t', None)
        ∧ unpacked t' (key_of dest) (items ++ [(r, b)]).
Proof.
  intros Hun Hcons Hvalid Hne. pose proof Hun as [HD Hlook].
  set (d := key_of dest) in *.
  pose proof (refused_join r Hvalid Hne) as [Habs Hdd]%orb_false_iff.
  unfold unpackMember. simpl. rewrite Hdd, Habs. clear Hdd Habs.
  unfold place. rewrite memberKey_join by done. fold d.
  assert (Fs.parent (d ++ r) = d ++ removelast r) as Hparent
    by (unfold Fs.parent; by rewrite removelast_app).
  rewrite Hparent.
  assert ((r, b) ∈ items ++ [(r, b)]) as Hr_in
    by (apply elem_of_app; right; by apply list_elem_of_singleton).
  assert (∀ x b', properPrefix x r → (x, b') ∉ items) as Hnofile.
  { intros x b' Hpp Hin. destruct (Hcons x b' r b) as [_ Hno]; [|done|by apply Hno].
    apply elem_of_app. by left. }
  assert (∀ r' b', (r', b') ∈ items → ¬ properPrefix r r') as Hnodir.
  { intros r' b' Hin. destruct (Hcons r b r' b') as [_ Hno]; [done| |done].
    apply elem_of_app. by left. }
  destruct (mkdirpFrom_ok t [] (d ++ removelast r)) as [t1 Hmk].
  { intros j b' Hj Hpre. simpl. intros Hfile.
    destruct (prefix_below _ _ _ Hpre) as [HjD|(x & -> & Hx)].
    - destruct (unpacked_dirs _ _ _ _ Hun HjD) as [? Hdir].
      destruct j; [done|]. simpl in Hdir. congruence.
    - destruct (decide (x = [])) as [->|Hxne].
      + rewrite app_nil_r in Hfile.
        destruct (unpacked_dirs _ _ _ d Hun) as [? Hdir]; [done|].
        destruct d; [done|]. simpl in Hdir. congruence.
      + apply Hlook in Hfile as [(b0 & [= <-] & Hin)|[? _]]; [|done..].
        eapply Hnofile; [|done]. by apply removelast_properPrefix. }
  fold (Fs.mkdirp t (d ++ removelast r)) in Hmk. rewrite Hmk.
  pose proof (mkdirp_lookup _ _ _ (d ++ r) Hmk) as Hk.
  assert (t1 !! (d ++ r) = t !! (d ++ r)) as Hsame.
  { rewrite Hk. destruct (t !! (d ++ r)); [done|]. rewrite decide_False; [done|].
    intros [_ Hp]. apply prefix_app_inv in Hp.
    by destruct (removelast_properPrefix r r Hne Hp). }
  clear Hk.
  assert (∀ b', t !! (d ++ r) ≠ Some (Fs.Dir b')) as Hnotdir.
  { intros b' Hdir.
    apply Hlook in Hdir as [(? & ? & _)|(_ & r' & b0 & Hin & Hpp)]; [done| |done].
    by eapply Hnodir. }
  exists (<[d ++ r := Fs.File b]> t1).
  assert (Fs.writeFile t1 (d ++ r) b = inr (<[d ++ r := Fs.File b]> t1)) as Hw.
  { apply writeFile_ok; [by destruct d, r| |by rewrite Hsame].
    rewrite Hparent. apply mkdirpFrom_spec in Hmk as (_ & _ & Hdirs).
    assert (∀ j, j `prefix_of` d ++ removelast r →
                 ∃ b', Fs.node_at t1 j = Some (Fs.Dir b')) as Hall.
    { intros [|s j] Hj; [by eexists|]. by apply (Hdirs (s :: j)). }
    destruct (Hall (d ++ removelast r)) as [b' Hb']; [done|]. exists b'.
    apply stat_inr. split; [done|]. intros j Hj _. by apply Hall. }
  split.
  { rewrite Hsame.
    destruct (t !! (d ++ r)) as [[?|b'']|] eqn:Hcur; [|by destruct (Hnotdir b'')|];
      by rewrite Hw. }
  split.
  - apply stat_inr in HD as [HDnode HDabove]. apply stat_inr.
    assert (∀ j, j `prefix_of` d → Fs.node_at (<[d ++ r := Fs.File b]> t1) j
                                    = Fs.node_at t j) as Hup.
    { intros j Hj. rewrite node_at_insert_ne.
      - destruct j as [|s j]; [done|]. simpl.
        rewrite (mkdirp_lookup _ _ _ (s :: j) Hmk).
        destruct (unpacked_dirs _ _ _ _ Hun Hj) as [? Hdir]. simpl in Hdir.
        by rewrite Hdir.
      - intros ->. apply prefix_length in Hj. rewrite length_app in Hj.
        destruct r; [done|]. simpl in Hj. lia. }
    split; [by rewrite Hup|]. intros j Hj Hjne. simpl. rewrite Hup; [|done].
    by apply HDabove.
  - intros x n Hx. destruct (decide (x = r)) as [->|Hxr].
    + rewrite lookup_insert_eq. split.
      * intros [= <-]. left. eauto.
      * intros [(b0 & -> & Hin)|(_ & r' & b0 & Hin & Hpp)].
        { destruct (Hcons r b0 r b Hin Hr_in) as [Heq _]. by rewrite Heq. }
        { destruct (Hcons r b r' b0 Hr_in Hin) as [_ Hno]. done. }
    + rewrite lookup_insert_ne by (intros ?%app_inv_head; done).
      rewrite (mkdirp_lookup _ _ _ (d ++ x) Hmk).
      destruct (t !! (d ++ x)) as [n0|] eqn:Hcur.
      * split.
        { intros [= <-]. apply Hlook in Hcur as [(b0 & -> & Hin)|(-> & r' & b0 & Hin & Hpp)];
            [| |done].
          - left. exists b0. split; [done|]. apply elem_of_app. by left.
          - right. split; [done|]. exists r', b0. split; [|done]. apply elem_of_app. by left. }
        { intros Hrhs. f_equal. apply Hlook in Hcur; [|done].
          destruct Hrhs as [(b0 & -> & Hin)|(-> & r' & b0 & Hin & Hpp)].
          - apply elem_of_app in Hin as [Hin|[= ? ?]%list_elem_of_singleton]; [|done].
            destruct Hcur as [(b1 & -> & Hin1)|(-> & r' & b1 & Hin1 & Hpp)].
            + destruct (Hcons x b1 x b0) as [Heq _]; [apply elem_of_app; by left..|].
              by rewrite Heq.
            + destruct (Hcons x b0 r' b1) as [_ Hno]; [apply elem_of_app; by left..|done].
          - destruct Hcur as [(b1 & -> & Hin1)|(-> & _)]; [|done].
            destruct (Hcons x b1 r' b0) as [_ Hno]; [apply elem_of_app; by left|done|done]. }
      * case_decide as Hp.
        { destruct Hp as [_ Hp]. apply prefix_app_inv in Hp.
          apply (removelast_properPrefix _ _ Hne) in Hp. split.
          - intros [= <-]. right. split; [done|]. by exists r, b.
          - intros [(b0 & -> & Hin)|(-> & _)]; [|done].
            apply elem_of_app in Hin as [Hin|[= ? ?]%list_elem_of_singleton]; [|done].
            by destruct (Hnofile x b0 Hp). }
        { split; [done|].
          intros [(b0 & -> & Hin)|(-> & r' & b0 & Hin & Hpp)].
          - apply elem_of_app in Hin as [Hin|[= ? ?]%list_elem_of_singleton]; [|done].
            assert (t !! (d ++ x) = Some (Fs.File b0)) as Hyes; [|congruence].
            apply Hlook; [done|]. left. eauto.
          - apply elem_of_app in Hin as [Hin|[= -> ->]%list_elem_of_singleton].
            + assert (t !! (d ++ x) = Some (Fs.Dir true)) as Hyes; [|congruence].
              apply Hlook; [done|]. right. split; [done|]. eauto.
            + destruct Hp. split; [by destruct d, x|].
              apply prefix_app. by apply properPrefix_removelast. }
Qed.

Lemma consistent_subseteq items items' :
  items ⊆ items' → consistent items' → consistent items.
Proof. intros Hsub Hcons r b r' b' Hin Hin'. apply Hcons; by apply Hsub. Qed.

Lemma unpackAll_items dest t done new :
  unpacked t (key_of dest) done → consistent (done ++ new) →
  Forall (λ rb, Forall Fs.valid_name rb.1 ∧ rb.1 ≠ []) new →
  ∃ t', unpackAll dest t (fileMembers new) = (t', None)
        ∧ unpacked t' (key_of dest) (done ++ new).
Proof.
  revert t done. induction new as [|[r b] new IH]; intros t done Hun Hcons Hall.
  - exists t. by rewrite app_nil_r.
  - apply Forall_cons in Hall as [[Hvalid Hne] Hall]. simpl in Hvalid, Hne.
    destruct (unpack_step dest t done r b) as (t1 & Hstep & Hun1); [done| |done..|].
    { eapply consistent_subseteq; [|done]. intros x Hx.
      apply elem_of_app in Hx as [Hx|Hx%list_elem_of_singleton]; apply elem_of_app;
        [by left|right; subst; by left]. }
    destruct (IH t1 (done ++ [(r, b)])) as (t' & Hrest & Hun');
      [done|by rewrite <- app_assoc|done|].
    exists t'. rewrite <- app_assoc in Hun'. split; [|done].
    change (fileMembers ((r, b) :: new))
      with (TarEntry (Str.join r) (Some b) :: fileMembers new).
    rewrite unpackAll_cons, Hstep. simpl. by rewrite Hrest.
Qed.








Lemma readFile_File t k b : Fs.readFile t k = inr b ↔ Fs.stat t k = inr (Fs.File b).
Proof.
  unfold Fs.readFile. destruct (Fs.stat t k) as [e|[b'|?]]; split; try done.
  - by intros [= ->].
  - by intros [= ->].
Qed.



Lemma consistentb_consistent items : consistentb items = true → consistent items.
Proof.
  unfold consistentb. rewrite forallb_forall. intros Hall r b r' b' Hin Hin'.
  apply list_elem_of_In, Hall in Hin. rewrite forallb_forall in Hin.
  apply list_elem_of_In, Hin in Hin'. by apply bool_decide_eq_true in Hin'.
Qed.


End ArchiveFacts.

Section DriverFacts.
Context `{Host}.
Import Js DiskStorageDriver.
Implicit Types (t : Fs.tree) (p : string).

Lemma location_segs p :
  location p = (Path.resolveSegs cwd [PROJECT_LOCATION; p]).1.
Proof.
  unfold location, key_of, resolvePath. rewrite resolve_segs by apply cwd_absolute.
  rewrite resolveSegs_print; [done|]. apply resolveSegs_valid, cwd_absolute.
Qed.

Lemma location_valid p : Forall Fs.valid_name (location p).
Proof. rewrite location_segs. apply resolveSegs_valid, cwd_absolute. Qed.

Lemma location_dirname p :
  key_of (Path.dirname (resolvePath p)) = Fs.parent (location p).
Proof.
  rewrite location_segs. unfold key_of, resolvePath.
  rewrite resolve_segs by apply cwd_absolute.
  destruct (resolveSegs_valid cwd [PROJECT_LOCATION; p] cwd_absolute) as [Hv _].
  rewrite dirname_print by done. rewrite resolveSegs_print; [done|].
  apply Forall_forall. intros x Hx. rewrite Forall_forall in Hv. apply Hv.
  destruct (removelast_prefix (Path.resolveSegs cwd [PROJECT_LOCATION; p]).1) as [r Hr].
  rewrite Hr. apply elem_of_app. by left.
Qed.

(** How the calls of the driver unfold. *)
Ltac unfold_driver :=
  unfold upsertFile, readFile, deleteFile, deleteDir, directoryListing, deleteRevision,
    listRevisions, discoverTrackableFolders, createArchive, extractArchive,
    async, tryCatch, await, return_, throw,
    fse_mkdirp, fse_writeFile, fse_readFile, fse_unlink, fse_access_R_OK,
    fse_removeSync, fse_existsSync, fse_mkdirSync, promised, sync, changing, reading,
    mbind, M_bind, mret, M_ret.

Lemma readFile_returns_promise p t :
  readFile p t
  = (t, Normal match Fs.readFile t (location p) with
               | inl e => Rejected (SystemError e "open" (resolvePath p))
               | inr d => Fulfilled d
               end).
Proof. unfold_driver. fold (location p). by destruct (Fs.readFile t (location p)). Qed.

Lemma upsertFile_inv p c rec t t' :
  upsertFile p c rec t = (t', Normal (Fulfilled ())) →
  ∃ t1, Fs.mkdirp t (Fs.parent (location p)) = inr t1
        ∧ Fs.writeFile t1 (location p) (bytes c) = inr t'.
Proof.
  unfold_driver. rewrite location_dirname. fold (location p).
  destruct (Fs.mkdirp t (Fs.parent (location p))) as [e|t1]; simpl; [done|].
  destruct (Fs.writeFile t1 (location p) (bytes c)) as [e|t2] eqn:Hw; simpl; [done|].
  intros [= <-]. eauto.
Qed.

(** C1 (the code departs from the claim).  [readFile] hands back the
    promise of [fse.readFile] as it is, because the [try] block returns
    it without awaiting it: the handler that would turn [ENOENT] into
    the not-found error, and wrap every other failure in a [VError],
    never runs.  Every rejection of [readFile] is the raw system error. *)
Theorem readFile_rejects_raw p t :
  readFile p t = fse_readFile (resolvePath p) t
  ∧ ∀ e, (readFile p t).2 = Normal (Rejected e) →
         ∃ c, e = SystemError c "open" (resolvePath p).
Proof.
  split.
  - rewrite readFile_returns_promise. unfold fse_readFile, promised, reading.
    fold (location p). by destruct (Fs.readFile t (location p)).
  - intros e. rewrite readFile_returns_promise.
    destruct (Fs.readFile t (location p)) as [c|d]; simpl; intros Heq;
      inversion Heq; eauto.
Qed.

(** The round trip holds for every path, with or without traversal
    segments: both calls resolve the path the same way. *)
Lemma upsert_read_any p c rec t t' :
  upsertFile p c rec t = (t', Normal (Fulfilled ())) →
  readFile p t' = (t', Normal (Fulfilled (bytes c)))
  ∧ Fs.dirsAbove t' [] (location p).
Proof.
  intros (t1 & Hmk & Hw)%upsertFile_inv.
  apply writeFile_inr in Hw as (Hroot & -> & _ & _).
  apply mkdirpFrom_spec in Hmk as (_ & _ & Hdirs).
  assert (Fs.dirsAbove (<[location p := Fs.File (bytes c)]> t1) [] (location p)) as Habove.
  { intros j Hj Hne. simpl. destruct j as [|s j]; [by eexists|].
    destruct (Hdirs (s :: j)) as [b Hb]; [done|by apply prefix_removelast|].
    exists b. simpl. rewrite lookup_insert_ne; done. }
  split; [|done]. rewrite readFile_returns_promise. unfold Fs.readFile.
  assert (Fs.stat (<[location p := Fs.File (bytes c)]> t1) (location p)
          = inr (Fs.File (bytes c))) as ->; [|done].
  apply stat_inr. split; [|done].
  destruct (location p); [done|]. simpl. by rewrite lookup_insert_eq.
Qed.


(** C2.  After an [upsertFile(p, c)] that succeeded, for a path [p]
    without traversal segments and a content [c] that is a string or
    a buffer, [readFile(p)] succeeds and returns the bytes of [c]; and
    every ancestor of the file is then a directory of the tree. *)
Theorem upsert_then_read p c rec t t' :
  noTraversal p →
  upsertFile p c rec t = (t', Normal (Fulfilled ())) →
  readFile p t' = (t', Normal (Fulfilled (bytes c)))
  ∧ ∀ j, j `prefix_of` location p → j ≠ location p →
         ∃ b, Fs.node_at t' j = Some (Fs.Dir b).
Proof. intros _ Hup. by apply upsert_read_any in Hup. Qed.

Lemma listRevisions_run prefix t :
  listRevisions prefix t
  = (t, Normal (Fulfilled
          match Fs.readFile t (location (Path.join [prefix; "revisions.json"])) with
          | inr d => match JSON_parse (toString d) with
                     | Some v => v
                     | None => Array []
                     end
          | inl _ => Array []
          end)).
Proof.
  unfold listRevisions, async, tryCatch, await, return_, throw, mbind, M_bind, mret, M_ret.
  rewrite readFile_returns_promise.
  destruct (Fs.readFile t (location (Path.join [prefix; "revisions.json"]))) as [e|d];
    [done|].
  by destruct (JSON_parse (toString d)).
Qed.

Lemma wf_readFile t q b :
  Fs.wf t → Fs.readFile t q = inr b ↔ Fs.node_at t q = Some (Fs.File b).
Proof. intros Hwf. by rewrite readFile_File, wf_stat. Qed.

(** The tree [upsertFile] leaves: the one it found, or that with the
    directories made, or that with the file written as well. *)
Lemma upsertFile_tree p c rec t :
  (upsertFile p c rec t).1 = t
  ∨ ∃ t1, Fs.mkdirp t (Fs.parent (location p)) = inr t1
          ∧ ((upsertFile p c rec t).1 = t1
             ∨ Fs.writeFile t1 (location p) (bytes c) = inr (upsertFile p c rec t).1).
Proof.
  unfold upsertFile, async, tryCatch, await, return_, throw, fse_mkdirp, fse_writeFile,
    promised, changing, mbind, M_bind, mret, M_ret.
  rewrite location_dirname. fold (location p).
  destruct (Fs.mkdirp t (Fs.parent (location p))) as [e|t1]; simpl; [by left|].
  right. exists t1. split; [done|].
  destruct (Fs.writeFile t1 (location p) (bytes c)) as [e|t2]; simpl; [by left|by right].
Qed.

Lemma parent_valid k : Forall Fs.valid_name k → Forall Fs.valid_name (Fs.parent k).
Proof.
  intros Hvalid. apply Forall_forall. intros x Hx. rewrite Forall_forall in Hvalid.
  apply Hvalid. destruct (removelast_prefix k) as [r Hr]. rewrite Hr.
  apply elem_of_app. by left.
Qed.

(** Reading any other file gives the same bytes, or fails, before and
    after an [upsertFile]. *)
Lemma upsertFile_frame p c rec t q b :
  Fs.wf t → q ≠ location p →
  Fs.readFile (upsertFile p c rec t).1 q = inr b ↔ Fs.readFile t q = inr b.
Proof.
  intros Hwf Hq.
  assert (∀ t1, Fs.mkdirp t (Fs.parent (location p)) = inr t1 →
                Fs.wf t1 ∧ (Fs.node_at t1 q = Some (Fs.File b)
                            ↔ Fs.node_at t q = Some (Fs.File b))) as Hmk.
  { intros t1 Hmk. split.
    - eapply wf_mkdirp; [done| |done]. apply parent_valid, location_valid.
    - destruct q as [|s q]; [done|]. simpl.
      rewrite (mkdirp_lookup _ _ _ (s :: q) Hmk).
      destruct (t !! (s :: q)) as [n|]; [done|]. by case_decide. }
  destruct (upsertFile_tree p c rec t) as [->|(t1 & Hmk1 & [->|Hw])]; [done|..].
  - destruct (Hmk _ Hmk1) as [Hwf1 Hiff]. by rewrite !wf_readFile.
  - destruct (Hmk _ Hmk1) as [Hwf1 Hiff].
    assert (Fs.wf (upsertFile p c rec t).1) as Hwf2
      by (eapply wf_writeFile; [done|apply location_valid|done]).
    apply writeFile_inr in Hw as (_ & Heq & _).
    rewrite !wf_readFile by done. rewrite Heq, node_at_insert_ne by done. done.
Qed.

(** C3, as amended.  [upsertFile] does the same with [recordRevision]
    set as without it, and appends no revision: in a well-formed tree,
    [listRevisions] on any prefix whose ledger file is not the file
    written answers after the call what it answered before. *)
Theorem upsertFile_appends_no_revision p c prefix t :
  Fs.wf t →
  location (Path.join [prefix; "revisions.json"]) ≠ location p →
  upsertFile p c true t = upsertFile p c false t
  ∧ (listRevisions prefix (upsertFile p c true t).1).2 = (listRevisions prefix t).2.
Proof.
  intros Hwf Hne. split; [done|]. rewrite !listRevisions_run. simpl.
  destruct (Fs.readFile t (location (Path.join [prefix; "revisions.json"])))
    as [e|b] eqn:Hbefore.
  - destruct (Fs.readFile (upsertFile p c true t).1 _) as [e'|b'] eqn:Hafter; [done|].
    apply upsertFile_frame in Hafter; [congruence|done..].
  - apply (upsertFile_frame p c true) in Hbefore; [|done..]. by rewrite Hbefore.
Qed.

(** C8.  [listRevisions] never fails.  It answers with the empty
    sequence when the ledger file cannot be read (absent, or any
    other failure) and when its text does not parse; a ledger whose
    text parses to a sequence is returned as that sequence, entries
    in order. *)
Theorem listRevisions_never_fails prefix t :
  let ledger := location (Path.join [prefix; "revisions.json"]) in
  (∃ v, listRevisions prefix t = (t, Normal (Fulfilled v)))
  ∧ (∀ e, Fs.readFile t ledger = inl e →
          listRevisions prefix t = (t, Normal (Fulfilled (Array []))))
  ∧ (∀ d, Fs.readFile t ledger = inr d → JSON_parse (toString d) = None →
          listRevisions prefix t = (t, Normal (Fulfilled (Array []))))
  ∧ (∀ d entries, Fs.readFile t ledger = inr d →
          JSON_parse (toString d) = Some (Array entries) →
          listRevisions prefix t = (t, Normal (Fulfilled (Array entries)))).
Proof.
  intros ledger. pose proof (listRevisions_run prefix t) as Hrun. fold ledger in Hrun.
  rewrite Hrun. split_and!.
  - eauto.
  - by intros e ->.
  - by intros d -> ->.
  - by intros d entries -> ->.
Qed.



Lemma directoryListing_run folder exclude dot t :
  directoryListing folder exclude dot t
  = (t, Normal
          match Fs.access_R t (location folder) with
          | inl e =>
              if decide (e = Fs.ENOENT) then Fulfilled []
              else Rejected (VError (SystemError e "access" (resolvePath folder))
                               ("[Disk Storage] No read access to directory "
                                +:+ quoted folder))
          | inr _ =>
              match globResult (resolvePath folder) dot (ignoreOption exclude) t with
              | Fulfilled files => Fulfilled (forceForwardSlashes <$> files)
              | Rejected _ => Fulfilled []
              end
          end).
Proof.
  unfold directoryListing, async, tryCatch, await, return_, throw, fse_access_R_OK,
    promised, reading, mbind, M_bind, mret, M_ret.
  fold (location folder).
  destruct (Fs.access_R t (location folder)) as [e|[]]; simpl.
  - destruct (decide (Some e = Some Fs.ENOENT)) as [[= ->]|Hne].
    + by rewrite decide_True.
    + rewrite decide_False; [done|]. by intros ->.
  - unfold glob.
    by destruct (globResult (resolvePath folder) dot (ignoreOption exclude) t).
Qed.

(** Where a relative path resolves to: each [..] that nothing of the
    path cancels takes a name off the store root, and the names that
    are left of the path follow. *)
Lemma location_relative p :
  Path.isAbsolute p = false →
  location p = take (length storeRoot - Path.climbs (normalized p)) storeRoot
               ++ drop (Path.climbs (normalized p)) (normalized p).
Proof.
  intros Hrel. rewrite location_segs.
  change [PROJECT_LOCATION; p] with ([PROJECT_LOCATION] ++ [p]).
  rewrite (resolveSegs_relative cwd [PROJECT_LOCATION] p cwd_absolute Hrel).
  fold storeRoot. apply resolve_above, valid_no_dotdot.
  apply resolveSegs_valid, cwd_absolute.
Qed.

(** An absolute path resolves to its own segments, whatever the
    store root. *)
Lemma location_absolute p :
  Path.isAbsolute p = true → location p = Path.normalizeSegs false (Str.split Str.slash p).
Proof.
  intros Hp. rewrite location_segs.
  change [PROJECT_LOCATION; p] with ([PROJECT_LOCATION] ++ [p]).
  rewrite resolveSegs_absolute by done. unfold Path.resolveSegs. simpl.
  assert (p ≠ "") as Hne by (by intros ->).
  rewrite decide_False, Hp by done. simpl. rewrite split_sep. simpl (Str.split _ "").
  rewrite normalizeSegs_app by apply no_dotdot_empty. simpl. by rewrite app_nil_r.
Qed.

(** C5, as amended.  [resolvePath] rejects nothing; it prints an
    absolute path without empty, [.] or [..] segments.  For a relative
    [p] the [..] segments are cancelled on the text: those that a name
    of [p] precedes cancel that name, and each of the [k] that are left
    at the front of the normalized [p] takes a name off the store root.
    So the location is the root, cut by [k] names, followed by what is
    left of the normalized [p]; it is inside the root exactly when the
    names cut off are the names that follow.  When [k] is [0], as for
    every [p] without [..] and for [a/../b/x.txt], the location is the
    root followed by the normalized [p]: inside the root, and strictly
    inside when a name is left.  An absolute [p] resolves to its own
    segments, and the store root plays no part. *)
Theorem resolvePath_normalized p :
  resolvePath p = "/" +:+ Str.join (location p)
  ∧ Forall Fs.valid_name (location p)
  ∧ (Path.isAbsolute p = true →
     location p = Path.normalizeSegs false (Str.split Str.slash p))
  ∧ (Path.isAbsolute p = false →
     let n := normalized p in
     let k := Path.climbs n in
     location p = take (length storeRoot - k) storeRoot ++ drop k n
     ∧ (storeRoot `prefix_of` location p
        ↔ drop (length storeRoot - k) storeRoot `prefix_of` drop k n)
     ∧ (k = 0 → location p = storeRoot ++ n
                ∧ storeRoot `prefix_of` location p
                ∧ (n ≠ [] → location p ≠ storeRoot))).
Proof.
  split_and!.
  - rewrite location_segs. apply resolve_segs, cwd_absolute.
  - apply location_valid.
  - apply location_absolute.
  - intros Hrel n k. pose proof (location_relative p Hrel) as Hloc.
    fold n in Hloc. fold k in Hloc. split_and!; [done| |].
    + rewrite Hloc. rewrite <- (take_drop (length storeRoot - k) storeRoot) at 1.
      split; [by intros ?%prefix_app_inv|by apply prefix_app].
    + intros Hk. rewrite Hk, Nat.sub_0_r, firstn_all, drop_0 in Hloc.
      split_and!; [done|rewrite Hloc; by apply prefix_app_r|].
      intros Hne Heq. rewrite Hloc in Heq. rewrite <- (app_nil_r storeRoot) in Heq at 2.
      by apply app_inv_head in Heq.
Qed.


Lemma extractArchive_inv archive dest t t' l :
  extractArchive archive dest t = (t', Normal (Fulfilled l)) →
  ∃ t0 ms files,
    (if Fs.exists_ t (key_of dest) then t0 = t else Fs.mkdir t (key_of dest) = inr t0)
    ∧ tgz_unpack archive = Some ms
    ∧ unpackAll dest t0 ms = (t', None)
    ∧ globResult dest false [] t' = Fulfilled files
    ∧ l = forceForwardSlashes <$> files.
Proof.
  unfold extractArchive, async, await, return_, throw, fse_existsSync, fse_mkdirSync,
    sync, changing, tar_x, glob, mbind, M_bind, mret, M_ret.
  destruct (Fs.exists_ t (key_of dest)) eqn:Hex; simpl.
  - destruct (tgz_unpack archive) as [ms|]; [|done].
    destruct (unpackAll dest t ms) as [t1 [e|]] eqn:Hun; [done|].
    destruct (globResult dest false [] t1) as [files|e] eqn:Hg; [|done].
    intros [= <- <-]. by exists t, ms, files.
  - destruct (Fs.mkdir t (key_of dest)) as [e|t0] eqn:Hmk; [done|].
    destruct (tgz_unpack archive) as [ms|]; [|done].
    destruct (unpackAll dest t0 ms) as [t1 [e|]] eqn:Hun; [done|].
    destruct (globResult dest false [] t1) as [files|e] eqn:Hg; [|done].
    intros [= <- <-]. by exists t0, ms, files.
Qed.





Lemma dropCommon_app (r rel : list string) : Path.dropCommon r (r ++ rel) = ([], rel).
Proof.
  induction r as [|x r IH]; simpl; [by destruct rel|]. by rewrite decide_True.
Qed.

(** With the process in its project directory, a relative path is its
    own path relative to the project. *)
Lemma relative_home rel :
  cwd = PROJECT_LOCATION → Forall Fs.valid_name rel → rel ≠ [] →
  Path.relative cwd PROJECT_LOCATION (Str.join rel) = Str.join rel.
Proof.
  intros Hhome Hvalid Hne. unfold Path.relative.
  pose proof cwd_absolute as Habs. pose proof (valid_not_absolute rel Hvalid Hne) as Hrel.
  rewrite decide_False by (intros Heq; rewrite Hhome, Heq in Habs; congruence).
  assert ((Path.resolveSegs cwd [Str.join rel]).1
          = (Path.resolveSegs cwd [PROJECT_LOCATION]).1 ++ rel) as ->.
  { change [Str.join rel] with ([] ++ [Str.join rel]).
    rewrite resolveSegs_snoc; [|done|done|].
    - rewrite split_join, names_valid; [|done..|by apply valid_no_slash]. f_equal.
      rewrite <- Hhome. unfold Path.resolveSegs. simpl.
      rewrite decide_False by (intros Heq; rewrite Heq in Habs; done).
      by rewrite Habs.
    - rewrite split_join; [by apply valid_no_dotdot|done|by apply valid_no_slash]. }
  by rewrite dropCommon_app.
Qed.

(** The top-level directory [_getBaseDirectories] computes for a
    listed path of two names or more: its first name. *)
Lemma baseDirectory_of rel :
  cwd = PROJECT_LOCATION → Forall Fs.valid_name rel → (2 ≤ length rel)%nat →
  hd "" (Str.split Str.slash
           (Path.dirname (Path.relative cwd PROJECT_LOCATION (Str.join rel))))
  = hd "" rel.
Proof.
  intros Hhome Hvalid Hlen.
  rewrite relative_home; [|done..|intros ->; simpl in Hlen; lia].
  rewrite dirname_join by done.
  destruct rel as [|b0 init0 _] using rev_ind; [done|].
  rewrite removelast_last. apply Forall_app in Hvalid as [Hinit _].
  rewrite length_app in Hlen. simpl in Hlen.
  destruct init0 as [|s0 l0]; [simpl in Hlen; lia|].
  rewrite split_join; [done|done|by apply valid_no_slash].
Qed.

Lemma elem_of_uniq x l : x ∈ uniq l ↔ x ∈ l.
Proof.
  induction l as [|y l IH]; simpl; [done|].
  rewrite !elem_of_cons, list_elem_of_filter, IH.
  destruct (decide (x = y)) as [->|Hne].
  - split; intros _; by left.
  - split; [intros [?|[_ ?]]; [by left|by right]|].
    intros [?|?]; [done|right; by split].
Qed.

Lemma NoDup_uniq l : NoDup (uniq l).
Proof.
  induction l as [|y l IH]; simpl; constructor.
  - rewrite list_elem_of_filter. by intros [Hne _].
  - by apply NoDup_filter.
Qed.

Lemma NoDup_only {A} (a : A) l : NoDup l → (∀ x, x ∈ l ↔ x = a) → l = [a].
Proof.
  intros Hnd Hl. destruct l as [|x l].
  - assert (a ∈ @nil A) as Hin by by apply Hl. by apply elem_of_nil in Hin.
  - assert (x = a) as -> by (apply Hl; by left).
    destruct l as [|y l]; [done|].
    assert (y = a) as -> by (apply Hl; right; by left).
    apply NoDup_cons in Hnd as [Hnot _]. destruct Hnot. by left.
Qed.

Lemma elem_of_getBaseDirectories x files :
  x ∈ _getBaseDirectories files ↔
  ∃ f, f ∈ files
       ∧ x = hd "" (Str.split Str.slash
                      (Path.dirname (Path.relative cwd PROJECT_LOCATION f))).
Proof.
  unfold _getBaseDirectories. rewrite elem_of_uniq, list_elem_of_fmap. split.
  - intros (d & -> & (r & -> & (f & -> & Hf)%list_elem_of_fmap)%list_elem_of_fmap). eauto.
  - intros (f & Hf & ->). eexists. split; [done|].
    apply list_elem_of_fmap. eexists. split; [done|].
    apply list_elem_of_fmap. eauto.
Qed.

(** A marker name has a dot: its first character. *)
Lemma marker_has_dot m : Str.toLowerCase m = ".noghost" → Str.contains Str.dot m = true.
Proof.
  destruct m as [|a m]; [done|]. simpl. intros [= Ha _].
  assert (a = Str.dot) as ->; [|done].
  revert Ha. destruct a as [[] [] [] [] [] [] [] []]; vm_compute; congruence.
Qed.

Lemma discoverTrackableFolders_run baseDir t :
  discoverTrackableFolders baseDir t
  = (t, Normal (Fulfilled
          match (directoryListing baseDir None true t).2 with
          | Normal (Fulfilled allFiles) =>
              without (_getBaseDirectories allFiles)
                (_getBaseDirectories
                   (filter (λ x, Str.toLowerCase (Path.basename x) = ".noghost") allFiles))
          | _ => []
          end)).
Proof.
  unfold discoverTrackableFolders, async, tryCatch, await, return_, throw,
    mbind, M_bind, mret, M_ret.
  rewrite directoryListing_run. simpl.
  destruct (Fs.access_R t (location baseDir)) as [e|[]].
  - by case_decide.
  - by destruct (globResult (resolvePath baseDir) true [] t).
Qed.

(** With the process in its project directory, the tree of the claim
    gives [a], however deep the marker lies under [b]. *)
Theorem discoverTrackableFolders_at_home baseDir t bx by_ bm ds m :
  cwd = PROJECT_LOCATION →
  Forall Fs.valid_name (ds ++ [m]) →
  Str.toLowerCase m = ".noghost" →
  unpacked t (location baseDir) (claimTree bx by_ bm ds m) →
  discoverTrackableFolders baseDir t = (t, Normal (Fulfilled ["a"])).
Proof.
  intros Hhome Hvalid Hmarker Hun. pose proof Hun as [HD Hlook].
  rewrite discoverTrackableFolders_run, directoryListing_run. simpl.
  unfold Fs.access_R. rewrite HD. unfold globResult.
  assert (key_of (resolvePath baseDir) = location baseDir) as -> by done.
  rewrite HD, (unpacked_open _ _ _ _ _ Hun), filter_pruned_nil, forceForwardSlashes_map.
  set (walk := globWalk t (location baseDir) true).
  set (all := alphasort (filter (λ f, ignored [] f = false) (Str.join <$> walk))).
  assert (∀ f, f ∈ all ↔ ∃ rel, rel ∈ walk ∧ f = Str.join rel) as Hall.
  { intros f. unfold all. rewrite alphasort_perm, list_elem_of_filter, list_elem_of_fmap.
    split; [intros (_ & rel & -> & ?); eauto|].
    intros (rel & ? & ->). split; [apply ignored_nil|eauto]. }
  assert (Forall Fs.valid_name ["a"; "x.txt"]) as Hvx by (repeat constructor; by compute).
  assert (Forall Fs.valid_name ("b" :: ds ++ [m])) as Hvm.
  { constructor; [|done]. repeat split; by compute. }
  (* the two files the answer rests on are listed *)
  assert (∀ rel b, (rel, b) ∈ claimTree bx by_ bm ds m → matches true rel = true →
                   rel ∈ walk) as Hlisted.
  { intros rel b Hin Hm. apply elem_globWalk.
    pose proof Hm as (Hne & _)%matches_inv. split_and!; [|done|].
    - exists (Fs.File b). apply Hlook; [done|]. left. eauto.
    - unfold reachable. apply forallb_forall. intros i [Hi1 Hi2]%in_seq.
      assert (t !! (location baseDir ++ take i rel) = Some (Fs.Dir true)) as ->; [|done].
      apply Hlook.
      + intros Hnil. apply (f_equal length) in Hnil. rewrite length_take in Hnil.
        simpl in Hnil. lia.
      + right. split; [done|]. exists rel, b. split; [done|].
        split; [apply prefix_take|]. intros Heq. apply (f_equal length) in Heq.
        rewrite length_take in Heq. lia. }
  assert (["a"; "x.txt"] ∈ walk) as Hx.
  { apply (Hlisted _ bx); [by left|done]. }
  assert ("b" :: ds ++ [m] ∈ walk) as Hm.
  { apply (Hlisted _ bm); [right; right; by left|].
    unfold matches. change ("b" :: ds ++ [m]) with (("b" :: ds) ++ [m]).
    rewrite rev_app_distr. simpl. unfold star_dot_star, visible. simpl.
    rewrite (marker_has_dot _ Hmarker). simpl. by apply forallb_forall. }
  (* every listed path is a/x.txt, or has two names or more and begins with b *)
  assert (∀ rel, rel ∈ walk →
                 Forall Fs.valid_name rel ∧ (2 ≤ length rel)%nat
                 ∧ (rel = ["a"; "x.txt"] ∨ hd "" rel = "b")) as Hshape.
  { intros rel ([n Hn] & Hmatch & _)%elem_globWalk.
    pose proof Hmatch as (Hne & Hdot & _)%matches_inv.
    assert (∀ r b, (r, b) ∈ claimTree bx by_ bm ds m →
                   Forall Fs.valid_name r ∧ (2 ≤ length r)%nat
                   ∧ (r = ["a"; "x.txt"] ∨ hd "" r = "b")) as Hitems.
    { intros r b [[= -> _]|[[= -> _]|[[= -> _]|Hnil]%elem_of_cons]%elem_of_cons]%elem_of_cons.
      - split_and!; [done|simpl; lia|by left].
      - split_and!; [repeat constructor; by compute|simpl; lia|by right].
      - split_and!; [done| |by right]. simpl. rewrite length_app. simpl. lia.
      - by apply elem_of_nil in Hnil. }
    apply Hlook in Hn as [(b & _ & Hin)|(_ & r & b & Hin & [[rest ->] Hpp])]; [by eauto| |done].
    destruct (Hitems _ _ Hin) as (Hvr & Hlen & Hhead).
    apply Forall_app in Hvr as [Hvrel _]. split; [done|].
    destruct rel as [|s1 [|s2 rel]]; [done| |].
    - (* a single name: a or b, which have no dot *)
      simpl in Hdot. destruct Hhead as [Heq|Heq].
      + injection Heq as -> _. done.
      + simpl in Heq. subst s1. done.
    - split; [simpl; lia|]. destruct Hhead as [Heq|Heq]; [|by right].
      left. destruct rel as [|s3 rel]; [|done].
      destruct rest; [by rewrite app_nil_r in Heq|done]. }
  (* the top-level directory of each listed path *)
  assert (∀ rel, rel ∈ walk →
            hd "" (Str.split Str.slash
                     (Path.dirname (Path.relative cwd PROJECT_LOCATION (Str.join rel))))
            = hd "" rel) as Hbase.
  { intros rel (Hv & Hlen & _)%Hshape. by apply baseDirectory_of. }
  apply (f_equal (λ l, (t, Normal (Fulfilled l)))).
  apply NoDup_only.
  { unfold without. apply NoDup_filter, NoDup_uniq. }
  intros x. unfold without. rewrite list_elem_of_filter, !elem_of_getBaseDirectories.
  split.
  - intros [Hnot (f & (rel & Hrel & ->)%Hall & ->)]. rewrite (Hbase _ Hrel).
    destruct (Hshape _ Hrel) as (_ & _ & [->|Hb]); [done|].
    destruct Hnot. exists (Str.join ("b" :: ds ++ [m])). split.
    + apply list_elem_of_filter. split; [|apply Hall; eauto].
      rewrite basename_join by done.
      change ("b" :: ds ++ [m]) with (("b" :: ds) ++ [m]). by rewrite last_last.
    + by rewrite (Hbase _ Hrel), (Hbase _ Hm), Hb.
  - intros ->. split.
    + intros (f & [Hnog (rel & Hrel & ->)%Hall]%list_elem_of_filter & Heq).
      rewrite (Hbase _ Hrel) in Heq.
      destruct (Hshape _ Hrel) as (_ & _ & [->|Hb]); [|congruence].
      rewrite basename_join in Hnog by done. by vm_compute in Hnog.
    + exists (Str.join ["a"; "x.txt"]). split; [apply Hall; eauto|].
      by rewrite (Hbase _ Hx).
Qed.

(** C10, as amended.  In a well-formed tree, what [directoryListing]
    returns, and what [extractArchive] returns for the tree it leaves,
    are paths of entries below the folder whose base name has a dot
    in it (and, unless dot files are asked for, does not begin with
    one).  An entry may be a file or a directory, and the dot may be
    the last character of the name.  No entry whose base name is
    without a dot is listed. *)
Theorem listings_are_dotted t :
  Fs.wf t →
  (∀ folder exclude dot l,
     (directoryListing folder exclude dot t).2 = Normal (Fulfilled l) →
     dottedListing t (location folder) dot l)
  ∧ (∀ archive dest t' l,
       extractArchive archive dest t = (t', Normal (Fulfilled l)) →
       dottedListing t' (key_of dest) false l).
Proof.
  intros Hwf. split.
  - intros folder exclude dot l. rewrite directoryListing_run. simpl.
    assert (dottedListing t (location folder) dot []) as Hnil.
    { split; intros ? Hin; [by apply elem_of_nil in Hin|]. intros _ _. apply not_elem_of_nil. }
    destruct (Fs.access_R t (location folder)) as [e|[]].
    + case_decide; [|done]. by intros [= <-].
    + destruct (globResult (resolvePath folder) dot (ignoreOption exclude) t)
        as [files|e] eqn:Hg; intros [= <-]; [|done].
      rewrite forceForwardSlashes_map. by eapply glob_dotted.
  - intros archive dest t' l (t0 & ms & files & Ht0 & _ & Hun & Hg & ->)%extractArchive_inv.
    rewrite forceForwardSlashes_map. eapply glob_dotted; [|done].
    eapply wf_unpackAll; [|done].
    destruct (Fs.exists_ t (key_of dest)); [by subst|].
    eapply wf_mkdir; [done| |done]. apply key_valid.
Qed.

End DriverFacts.

(* ===================================================================== *)
(** ** The operations one by one: what they change, how they fail,
       how they compose *)
(* ===================================================================== *)

Section Operations.
Context `{Host}.
Import Js DiskStorageDriver.
Implicit Types (t : Fs.tree) (p : string).

Ltac run_driver :=
  unfold upsertFile, createDir, readFile, deleteFile, deleteDir, createArchive,
    extractArchive, async, tryCatch, await, return_, throw,
    fse_ensureDir, fse_mkdirp, fse_writeFile, fse_readFile, fse_unlink,
    fse_removeSync, fse_existsSync, fse_mkdirSync, promised, sync, changing, reading,
    mbind, M_bind, mret, M_ret.

Lemma upsertFile_run p c rec t :
  upsertFile p c rec t
  = match Fs.mkdirp t (Fs.parent (location p)) with
    | inl e =>
        (t, Normal (Rejected
              (VError (SystemError e "mkdir"
                         (Path.resolve cwd [Path.dirname (resolvePath p)]))
                 ("[Disk Storage] Error upserting file " +:+ quoted p))))
    | inr t1 =>
        match Fs.writeFile t1 (location p) (bytes c) with
        | inl e =>
            (t1, Normal (Rejected
                   (VError (SystemError e "open" (resolvePath p))
                      ("[Disk Storage] Error upserting file " +:+ quoted p))))
        | inr t2 => (t2, Normal (Fulfilled ()))
        end
    end.
Proof.
  run_driver. rewrite location_dirname. fold (location p).
  destruct (Fs.mkdirp t (Fs.parent (location p))) as [e|t1]; simpl; [done|].
  by destruct (Fs.writeFile t1 (location p) (bytes c)).
Qed.

(** What stands in the way makes [upsertFile] fail, with the wrapped
    error, and in a well-formed tree nothing is changed: no directory
    is made on the way to a regular file. *)
Theorem upsertFile_blocked p c rec t :
  Fs.wf t → blocked t (location p) →
  ∃ code syscall path,
    upsertFile p c rec t
    = (t, Normal (Rejected (VError (SystemError code syscall path)
                              ("[Disk Storage] Error upserting file " +:+ quoted p)))).
Proof.
  intros Hwf Hblocked. rewrite upsertFile_run.
  destruct (Fs.mkdirp t (Fs.parent (location p))) as [e|t1] eqn:Hmk; [by eauto|].
  assert (t1 = t ∧ ∃ e, Fs.writeFile t (location p) (bytes c) = inl e) as [-> [e ->]];
    [|by eauto].
  pose proof Hmk as (Hkeep & _ & Hdirs)%mkdirpFrom_spec.
  destruct Hblocked as [(j & d & Hj & Hfile)|Hdir].
  { destruct j as [|s j]; [by destruct (Hwf _ _ Hfile)|].
    destruct (Hdirs (s :: j)) as [b Hb]; [done..|].
    apply Hkeep in Hfile. simpl in Hb. congruence. }
  assert (Fs.mkdirp t (Fs.parent (location p)) = inr t) as Hnoop.
  { apply mkdirpFrom_noop. intros r1 Hne Hpre. simpl.
    destruct Hdir as [Hroot|[b Hb]]; [rewrite Hroot in Hpre; by apply prefix_nil_inv in Hpre|].
    destruct (Hwf _ _ Hb) as (Hk & _ & Habove).
    destruct (removelast_properPrefix _ _ Hk Hpre) as [Hp Hneq].
    destruct (Habove r1 Hp Hneq) as [b' Hb']. exists b'. by destruct r1. }
  split; [congruence|]. unfold Fs.writeFile.
  destruct Hdir as [->|[b Hb]]; [by eauto|].
  revert Hb. generalize (location p). intros [|s k] Hb; [by eauto|].
  destruct (Fs.stat t (Fs.parent (s :: k))) as [e|[d|b']]; [by eauto..|].
  rewrite Hb. by eauto.
Qed.

(** [upsertFile] leaves everything off its path as it found it: an
    entry is as before, or it is the file written, or it is a
    directory newly made above the file. *)
Theorem upsertFile_touches_its_path_only p c rec t j :
  let t' := (upsertFile p c rec t).1 in
  t' !! j = t !! j
  ∨ (j = location p ∧ t' !! j = Some (Fs.File (bytes c)))
  ∨ (properPrefix j (location p) ∧ t !! j = None ∧ t' !! j = Some (Fs.Dir true)).
Proof.
  simpl. rewrite upsertFile_run.
  destruct (Fs.mkdirp t (Fs.parent (location p))) as [e|t1] eqn:Hmk; [by left|].
  assert (t1 !! j = t !! j
          ∨ (properPrefix j (location p) ∧ t !! j = None ∧ t1 !! j = Some (Fs.Dir true)))
    as Hstep.
  { rewrite (mkdirp_lookup _ _ _ j Hmk). destruct (t !! j) as [n|] eqn:Hj; [by left|].
    case_decide as Hd; [|by left]. right. destruct Hd as [Hne Hpre].
    split; [|done]. apply removelast_properPrefix; [|done].
    intros Hnil. rewrite Hnil in Hpre. simpl in Hpre. by apply prefix_nil_inv in Hpre. }
  destruct (Fs.writeFile t1 (location p) (bytes c)) as [e|t2] eqn:Hw; simpl.
  { destruct Hstep as [?|?]; [by left|by right; right]. }
  apply writeFile_inr in Hw as (_ & -> & _).
  destruct (decide (j = location p)) as [->|Hne].
  - right; left. by rewrite lookup_insert_eq.
  - rewrite lookup_insert_ne by done.
    destruct Hstep as [?|?]; [by left|by right; right].
Qed.

(** A second [upsertFile] of the same path replaces the content and
    nothing else; with the same content it changes nothing. *)
Theorem upsertFile_overwrites p c1 c2 r1 r2 t t1 :
  upsertFile p c1 r1 t = (t1, Normal (Fulfilled ())) →
  let t2 := <[location p := Fs.File (bytes c2)]> t1 in
  upsertFile p c2 r2 t1 = (t2, Normal (Fulfilled ()))
  ∧ readFile p t2 = (t2, Normal (Fulfilled (bytes c2)))
  ∧ upsertFile p c1 r2 t1 = (t1, Normal (Fulfilled ())).
Proof.
  intros Hfirst t2.
  pose proof Hfirst as (t0 & Hmk & Hw)%upsertFile_inv.
  apply writeFile_inr in Hw as (Hk & Ht1 & _ & _).
  pose proof Hmk as (_ & _ & Hdirs)%mkdirpFrom_spec.
  assert (∀ r, r ≠ [] → r `prefix_of` Fs.parent (location p) →
               ∃ b, t1 !! r = Some (Fs.Dir b)) as Hthere.
  { intros r Hne Hpre. destruct (Hdirs r Hne Hpre) as [b Hb]. exists b.
    rewrite Ht1, lookup_insert_ne; [done|].
    by destruct (removelast_properPrefix _ _ Hk Hpre). }
  assert (∀ c r, upsertFile p c r t1
                 = (<[location p := Fs.File (bytes c)]> t1, Normal (Fulfilled ()))) as Hagain.
  { intros c r. rewrite upsertFile_run.
    unfold Fs.mkdirp. rewrite mkdirpFrom_noop by done.
    rewrite writeFile_ok; [done|done| |].
    - assert (∀ j, j `prefix_of` Fs.parent (location p) →
                   ∃ b, Fs.node_at t1 j = Some (Fs.Dir b)) as Hall.
      { intros [|s j] Hj; [by eexists|]. by apply Hthere. }
      destruct (Hall (Fs.parent (location p))) as [b Hb]; [done|]. exists b.
      apply stat_inr. split; [done|]. intros j Hj _. by apply Hall.
    - intros b. by rewrite Ht1, lookup_insert_eq. }
  split_and!.
  - apply Hagain.
  - by destruct (upsert_read_any p c2 r2 t1 t2 (Hagain c2 r2)).
  - rewrite Hagain. f_equal. rewrite Ht1. apply insert_insert_eq.
Qed.

(** *** [deleteFile] *)

Lemma deleteFile_run p rec t :
  deleteFile p rec t
  = match Fs.unlink t (location p) with
    | inl e => (t, Normal (Rejected (SystemError e "unlink" (resolvePath p))))
    | inr t' => (t', Normal (Fulfilled ()))
    end.
Proof. run_driver. fold (location p). by destruct (Fs.unlink t (location p)). Qed.

Lemma stat_delete_file t k d q n :
  Fs.stat t k = inr (Fs.File d) → q ≠ k →
  Fs.stat (delete k t) q = inr n ↔ Fs.stat t q = inr n.
Proof.
  intros [Hk _]%stat_inr Hq. rewrite !stat_inr.
  assert (k ≠ []) as Hne by (by intros ->).
  assert (t !! k = Some (Fs.File d)) as Hfile by (by destruct k).
  assert (∀ j, j ≠ k → Fs.node_at (delete k t) j = Fs.node_at t j) as Hsame.
  { intros [|s j] Hj; [done|]. simpl. by rewrite lookup_delete_ne. }
  rewrite Hsame by done. split; intros [Hn Habove]; (split; [done|]);
    intros r1 Hr1 Hne1; simpl.
  - destruct (Habove r1 Hr1 Hne1) as [b Hb]. exists b. simpl in Hb.
    destruct (decide (r1 = k)) as [->|Hr1k]; [|by rewrite <- Hsame].
    destruct k; [done|]. simpl in Hb. by rewrite lookup_delete_eq in Hb.
  - destruct (Habove r1 Hr1 Hne1) as [b Hb]. exists b. simpl in Hb.
    rewrite Hsame; [done|]. intros ->. destruct k; [done|]. simpl in Hb. congruence.
Qed.

(** [deleteFile] too returns the promise of the file-system call as
    it is: a regular file at the path is taken away and nothing else
    is touched; in every other case the call is rejected with the raw
    system error, not with the wrapping error of its handler, and the
    tree is as it was. *)
Theorem deleteFile_outcomes p rec t :
  deleteFile p rec t = fse_unlink (resolvePath p) t
  ∧ (∀ d, Fs.stat t (location p) = inr (Fs.File d) →
          deleteFile p rec t = (delete (location p) t, Normal (Fulfilled ())))
  ∧ ((∀ d, Fs.stat t (location p) ≠ inr (Fs.File d)) →
     ∃ c, deleteFile p rec t
          = (t, Normal (Rejected (SystemError c "unlink" (resolvePath p))))).
Proof.
  split_and!.
  - rewrite deleteFile_run. unfold fse_unlink, promised, changing. fold (location p).
    by destruct (Fs.unlink t (location p)).
  - intros d Hd. rewrite deleteFile_run. unfold Fs.unlink. by rewrite Hd.
  - intros Hno. rewrite deleteFile_run. unfold Fs.unlink.
    destruct (Fs.stat t (location p)) as [e|[d|b]] eqn:Hs; [by eauto| |by eauto].
    by destruct (Hno d).
Qed.

(** After a [deleteFile] that succeeded the file is gone: reading it,
    and deleting it once more, are rejected with [ENOENT]; every
    other entry of the tree is as before, and every other file reads
    as before. *)
Theorem deleteFile_then_read p rec t t' :
  deleteFile p rec t = (t', Normal (Fulfilled ())) →
  readFile p t' = (t', Normal (Rejected (SystemError Fs.ENOENT "open" (resolvePath p))))
  ∧ deleteFile p rec t'
    = (t', Normal (Rejected (SystemError Fs.ENOENT "unlink" (resolvePath p))))
  ∧ (∀ j, j ≠ location p → t' !! j = t !! j)
  ∧ (∀ q b, q ≠ location p → Fs.readFile t' q = inr b ↔ Fs.readFile t q = inr b).
Proof.
  rewrite deleteFile_run. unfold Fs.unlink.
  destruct (Fs.stat t (location p)) as [e|[d|b]] eqn:Hs; [done| |done].
  intros [= <-].
  assert (Fs.stat (delete (location p) t) (location p) = inl Fs.ENOENT) as Hgone.
  { apply stat_inr in Hs as [Hk Habove].
    assert (location p ≠ []) as Hne by (intros Heq; by rewrite Heq in Hk).
    apply namei_ENOENT; simpl.
    - destruct (location p); [done|]. simpl. apply lookup_delete_eq.
    - intros r1 d' Hr1 Hf. destruct (decide (r1 = location p)) as [->|Hr].
      + destruct (location p); [done|]. simpl in Hf. by rewrite lookup_delete_eq in Hf.
      + destruct (Habove r1 Hr1 Hr) as [b Hb]. simpl in Hb.
        destruct r1; [done|]. simpl in *. rewrite lookup_delete_ne in Hf by done.
        congruence. }
  split_and!.
  - rewrite readFile_returns_promise. unfold Fs.readFile. by rewrite Hgone.
  - rewrite deleteFile_run. unfold Fs.unlink. by rewrite Hgone.
  - intros j Hj. by rewrite lookup_delete_ne.
  - intros q b Hq. rewrite !readFile_File. by eapply stat_delete_file.
Qed.

(** *** [deleteDir] *)

Lemma remove_lookup t k j :
  Fs.remove t k !! j = if decide (k `prefix_of` j) then None else t !! j.
Proof.
  unfold Fs.remove. case_decide as Hpre.
  - apply map_lookup_filter_None_2. right. intros n _ Hnot. by apply Hnot.
  - destruct (t !! j) as [n|] eqn:Hj.
    + by apply map_lookup_filter_Some_2.
    + apply map_lookup_filter_None_2. by left.
Qed.




Lemma sealedDir_Some t k :
  sealedBelow t k = true →
  ∃ j, sealedDir t k = Some j
       ∧ k `prefix_of` j ∧ t !! j = Some (Fs.Dir false) ∧ Fs.has_children t j = true.
Proof.
  unfold sealedBelow, sealedDir. intros Hsealed.
  destruct (find _ (map_to_list t)) as [[j n]|] eqn:Hfind.
  - apply find_some in Hfind as [Hin Hb].
    apply list_elem_of_In, elem_of_map_to_list in Hin. simpl in Hb.
    apply andb_true_iff in Hb as [[Hpre Hn]%andb_true_iff Hc].
    apply bool_decide_eq_true_1 in Hpre. exists j.
    destruct n as [d|[|]]; done.
  - apply existsb_exists in Hsealed as (jn & Hin & Hb).
    by rewrite (find_none _ _ Hfind jn Hin) in Hb.
Qed.

Lemma deleteDir_run p t :
  let wrapped c syscall path :=
    (t, Normal (Rejected
                  (VError (SystemError c syscall path)
                     ("[Disk Storage] Error deleting directory " +:+ quoted p)))) in
  deleteDir p t
  = match Fs.stat t (location p) with
    | inl Fs.ENOTDIR => wrapped Fs.ENOTDIR "unlink" (resolvePath p)
    | _ => if sealedBelow t (location p)
           then wrapped Fs.EACCES "scandir"
                  ("/" +:+ Str.join (default (location p) (sealedDir t (location p))))
           else (Fs.remove t (location p), Normal (Fulfilled ()))
    end.
Proof.
  simpl. run_driver. fold (location p).
  destruct (Fs.stat t (location p)) as [[]|n];
    try done; by destruct (sealedBelow t (location p)).
Qed.

(** A failure of [deleteDir] is wrapped: the removal is a synchronous
    call, so what it throws is thrown inside the [try].  It fails
    when a regular file stands on the way to the path, with the error
    of [unlink] on the path; and when a directory at or below the
    path has entries and may not be read, with the error of reading
    that directory, which names the directory and not the path given.
    What the tree looks like after a removal that failed is not said:
    the removal may have taken away some of what is below the path. *)
Theorem deleteDir_rejections p t e :
  (deleteDir p t).2 = Normal (Rejected e) →
  ∃ c syscall path,
    e = VError (SystemError c syscall path)
          ("[Disk Storage] Error deleting directory " +:+ quoted p)
    ∧ ((c = Fs.ENOTDIR ∧ syscall = "unlink" ∧ path = resolvePath p
        ∧ Fs.stat t (location p) = inl Fs.ENOTDIR)
       ∨ (c = Fs.EACCES ∧ syscall = "scandir"
          ∧ ∃ j, path = "/" +:+ Str.join j
                 ∧ location p `prefix_of` j ∧ t !! j = Some (Fs.Dir false)
                 ∧ Fs.has_children t j = true)).
Proof.
  rewrite deleteDir_run. simpl.
  set (Q := λ e : exn,
    ∃ c syscall path,
      e = VError (SystemError c syscall path)
            ("[Disk Storage] Error deleting directory " +:+ quoted p)
      ∧ ((c = Fs.ENOTDIR ∧ syscall = "unlink" ∧ path = resolvePath p
          ∧ Fs.stat t (location p) = inl Fs.ENOTDIR)
         ∨ (c = Fs.EACCES ∧ syscall = "scandir"
            ∧ ∃ j, path = "/" +:+ Str.join j
                   ∧ location p `prefix_of` j ∧ t !! j = Some (Fs.Dir false)
                   ∧ Fs.has_children t j = true))).
  change (match Fs.stat t (location p) with
          | inl Fs.ENOTDIR =>
              (t, Normal (Rejected
                    (VError (SystemError Fs.ENOTDIR "unlink" (resolvePath p))
                       ("[Disk Storage] Error deleting directory " +:+ quoted p))))
          | _ =>
              if sealedBelow t (location p)
              then (t, Normal (Rejected
                     (VError (SystemError Fs.EACCES "scandir"
                                ("/" +:+ Str.join (default (location p)
                                                     (sealedDir t (location p)))))
                        ("[Disk Storage] Error deleting directory " +:+ quoted p))))
              else (Fs.remove t (location p), Normal (Fulfilled ()))
          end.2 = Normal (Rejected e) → Q e).
  assert ((if sealedBelow t (location p)
             then (t, Normal (Rejected
                    (VError (SystemError Fs.EACCES "scandir"
                               ("/" +:+ Str.join (default (location p)
                                                    (sealedDir t (location p)))))
                       ("[Disk Storage] Error deleting directory " +:+ quoted p))))
             else (Fs.remove t (location p), Normal (Fulfilled ()))).2
            = Normal (Rejected e) → Q e) as Hsealed.
  { destruct (sealedBelow t (location p)) eqn:Hs; [|done]. simpl.
    destruct (sealedDir_Some _ _ Hs) as (j & -> & Hpre & Hj & Hc). simpl.
    intros [= <-]. exists Fs.EACCES, "scandir", ("/" +:+ Str.join j).
    split; [done|]. right. split_and!; [done..|]. by exists j. }
  destruct (Fs.stat t (location p)) as [[]|n] eqn:Hstat; try (by apply Hsealed).
  simpl. intros [= <-]. exists Fs.ENOTDIR, "unlink", (resolvePath p).
  split; [done|]. by left.
Qed.


(** *** [createDir] *)

Lemma createDir_run d t :
  createDir d t
  = match Fs.mkdirp t (key_of d) with
    | inl e => (t, Normal (Rejected (SystemError e "mkdir" (Path.resolve cwd [d]))))
    | inr t' => (t', Normal (Fulfilled ()))
    end.
Proof. run_driver. by destruct (Fs.mkdirp t (key_of d)). Qed.


(** A regular file at the path or on the way to it makes [createDir]
    fail, with the raw system error, and nothing is made.  The error
    names the path as [ensureDir] resolved it, from the working
    directory of the process.  (A path beyond the limits of the file
    system fails on that account.) *)
Theorem createDir_blocked d t j b :
  Fs.addressable (key_of d) →
  j ≠ [] → j `prefix_of` key_of d → t !! j = Some (Fs.File b) →
  ∃ c, createDir d t
       = (t, Normal (Rejected (SystemError c "mkdir" (Path.resolve cwd [d]))))
       ∧ (c = Fs.EEXIST ∨ c = Fs.ENOTDIR)
       ∧ Path.resolve cwd [d] = "/" +:+ Str.join (key_of d).
Proof.
  intros _ Hne Hj Hfile. rewrite createDir_run.
  destruct (Fs.mkdirp t (key_of d)) as [e|t'] eqn:Hmk.
  - exists e. split_and!; [done| |apply resolve_segs, cwd_absolute].
    by apply mkdirpFrom_inl in Hmk as [He _].
  - apply mkdirpFrom_spec in Hmk as (Hkeep & _ & Hdirs).
    destruct (Hdirs j) as [b' Hb']; [done..|].
    apply Hkeep in Hfile. simpl in Hb'. congruence.
Qed.

(** *** [listRevisions] after [upsertFile] *)

Lemma toString_bytes s : toString (bytes (FromString s)) = s.
Proof. apply string_of_list_byte_of_string. Qed.

(** Nothing but a file [revisions.json] makes a ledger: once one has
    been written under a prefix, [listRevisions] of the prefix answers
    with what its text parses to, whatever that is, and with the empty
    sequence when it does not parse. *)
Theorem listRevisions_after_upsert prefix c rec t t' :
  upsertFile (Path.join [prefix; "revisions.json"]) c rec t = (t', Normal (Fulfilled ())) →
  listRevisions prefix t'
  = (t', Normal (Fulfilled match JSON_parse (toString (bytes c)) with
                           | Some v => v
                           | None => Array []
                           end)).
Proof.
  intros [Hread _]%upsert_read_any. rewrite listRevisions_run.
  rewrite readFile_returns_promise in Hread.
  destruct (Fs.readFile t' (location (Path.join [prefix; "revisions.json"]))) as [e|d];
    [done|].
  by injection Hread as ->.
Qed.

(** *** [resolvePath] of a path that is absolute *)

(** An absolute path is taken as it is: [PROJECT_LOCATION] plays no
    part in where it leads.  So resolving is idempotent, and what
    [resolvePath] prints leads where the path it was given leads. *)
Theorem resolvePath_absolute p :
  Path.isAbsolute p = true →
  location p = Path.normalizeSegs false (Str.split Str.slash p)
  ∧ location p = key_of p
  ∧ resolvePath p = "/" +:+ Str.join (key_of p).
Proof.
  intros Hp.
  assert (location p = key_of p) as Hloc.
  { rewrite location_segs. unfold key_of.
    change [PROJECT_LOCATION; p] with ([PROJECT_LOCATION] ++ [p]).
    rewrite resolveSegs_absolute by done.
    change [p] with ([] ++ [p]) at 2. by rewrite resolveSegs_absolute. }
  split_and!; [|done|].
  - rewrite Hloc. unfold key_of, Path.resolveSegs. simpl.
    assert (p ≠ "") as Hne by (by intros ->).
    rewrite decide_False, Hp by done. simpl. rewrite split_sep. simpl (Str.split _ "").
    rewrite normalizeSegs_app by apply no_dotdot_empty. simpl. by rewrite app_nil_r.
  - rewrite <- Hloc, location_segs. apply resolve_segs, cwd_absolute.
Qed.

(** *** [directoryListing] *)

Lemma directoryListing_readable folder exclude dot t :
  Fs.stat t (location folder) = inr (Fs.Dir true) →
  barred t (location folder) dot (ignoreOption exclude) = false →
  directoryListing folder exclude dot t
  = (t, Normal (Fulfilled
          (alphasort
             (filter (λ f, ignored (ignoreOption exclude) f = false)
                (Str.join <$> filter (λ rel, pruned (ignoreOption exclude) rel = false)
                                (globWalk t (location folder) dot)))))).
Proof.
  intros Hdir Hopen. rewrite directoryListing_run. unfold Fs.access_R, globResult.
  assert (key_of (resolvePath folder) = location folder) as -> by done.
  by rewrite Hdir, Hopen, forceForwardSlashes_map.
Qed.


(** What a listing that succeeded lists, if anything, comes from the
    walk of a directory that may be read, and that met no directory
    closed to it. *)
Lemma directoryListing_inv folder exclude dot t l f :
  (directoryListing folder exclude dot t).2 = Normal (Fulfilled l) → f ∈ l →
  Fs.stat t (location folder) = inr (Fs.Dir true)
  ∧ ignored (ignoreOption exclude) f = false
  ∧ ∃ rel, f = Str.join rel ∧ rel ∈ globWalk t (location folder) dot
           ∧ pruned (ignoreOption exclude) rel = false
           ∧ barred t (location folder) dot (ignoreOption exclude) = false.
Proof.
  rewrite directoryListing_run. simpl. unfold Fs.access_R, globResult.
  assert (key_of (resolvePath folder) = location folder) as -> by done.
  destruct (Fs.stat t (location folder)) as [e|[d|[]]] eqn:Hs; simpl.
  - case_decide; [|done]. intros [= <-] Hf. by apply elem_of_nil in Hf.
  - intros [= <-] Hf. by apply elem_of_nil in Hf.
  - destruct (barred t (location folder) dot (ignoreOption exclude)) eqn:Hb.
    { intros [= <-] Hf. by apply elem_of_nil in Hf. }
    rewrite forceForwardSlashes_map. intros [= <-] Hf.
    rewrite alphasort_perm in Hf. apply list_elem_of_filter in Hf as [Hig Hf].
    apply list_elem_of_fmap in Hf as (rel & -> & Hrel).
    apply list_elem_of_filter in Hrel as [Hpr Hrel]. split_and!; [done..|].
    by exists rel.
  - done.
Qed.

Lemma walk_valid t c dot rel :
  Fs.wf t → rel ∈ globWalk t c dot → Forall Fs.valid_name rel ∧ rel ≠ [].
Proof.
  intros Hwf Hrel. destruct (globWalk_entry _ _ _ _ Hwf Hrel) as (Hvalid & _).
  apply elem_globWalk in Hrel as (_ & (Hne & _)%matches_inv & _). done.
Qed.

(** A walk that shows less, or is kept out of more, goes into no
    directory that the wider walk does not go into. *)
Lemma entered_dot ignore rel :
  entered false ignore rel = true → entered true ignore rel = true.
Proof.
  unfold entered. intros [[Hvis Hpr]%andb_true_iff Hig]%andb_true_iff.
  rewrite Hpr, Hig, !andb_true_r. apply forallb_forall. by intros s _.
Qed.


Lemma barred_narrower t c dot dot' ignore ignore' :
  (∀ rel, entered dot' ignore' rel = true → entered dot ignore rel = true) →
  barred t c dot ignore = false → barred t c dot' ignore' = false.
Proof.
  intros Hsub Hopen. apply barred_false. intros rel Hne Hrel.
  apply not_true_is_false. intros Hent%Hsub.
  by rewrite (proj1 (barred_false t c dot ignore) Hopen rel Hne Hrel) in Hent.
Qed.


Lemma forallb_visible dirs :
  forallb (visible true) dirs = true
  ∧ (forallb (visible false) dirs = true
     ↔ Forall (λ s, Str.startsWith Str.dot s = false) dirs).
Proof.
  induction dirs as [|s dirs [IH1 IH2]]; simpl; [by split|]. split; [done|].
  rewrite andb_true_iff, Forall_cons, IH2. unfold visible. simpl.
  by rewrite negb_true_iff.
Qed.

Lemma matches_hidden rel :
  matches false rel = true
  ↔ matches true rel = true ∧ Forall (λ s, Str.startsWith Str.dot s = false) rel.
Proof.
  assert (Forall (λ s, Str.startsWith Str.dot s = false) rel
          ↔ Forall (λ s, Str.startsWith Str.dot s = false) (rev rel)) as ->.
  { split; intros Hall; [by apply Forall_rev|].
    rewrite <- (rev_involutive rel). by apply Forall_rev. }
  unfold matches. destruct (rev rel) as [|base dirs]; [by split; [|intros []]|].
  rewrite Forall_cons. destruct (forallb_visible dirs) as [-> <-].
  unfold star_dot_star. unfold visible at 1 2. simpl.
  rewrite !andb_true_iff, negb_true_iff. tauto.
Qed.

(** When the walk that shows dot files goes into no directory that
    may not be read, asking for dot files only adds paths: the listing
    without them is the listing with them less the paths that have a
    name beginning with a dot. *)
Theorem directoryListing_dot_files folder exclude t l0 l1 :
  Fs.wf t →
  barred t (location folder) true (ignoreOption exclude) = false →
  (directoryListing folder exclude false t).2 = Normal (Fulfilled l0) →
  (directoryListing folder exclude true t).2 = Normal (Fulfilled l1) →
  ∀ f, f ∈ l0 ↔ f ∈ l1 ∧ Forall (λ s, Str.startsWith Str.dot s = false)
                               (Str.split Str.slash f).
Proof.
  intros Hwf Hopen1 H0 H1 f.
  pose proof (barred_narrower t (location folder) true false _ _
                (entered_dot (ignoreOption exclude)) Hopen1) as Hopen0.
  assert (∀ dot rel, rel ∈ globWalk t (location folder) dot →
                     Str.split Str.slash (Str.join rel) = rel) as Hsplit.
  { intros dot rel [Hv Hne]%(walk_valid _ _ _ _ Hwf).
    apply split_join; [done|by apply valid_no_slash]. }
  split.
  - intros Hf.
    destruct (directoryListing_inv _ _ _ _ _ _ H0 Hf)
      as (Hdir & Hig & rel & -> & Hrel & Hpr & _).
    rewrite (Hsplit _ _ Hrel).
    pose proof Hrel as (Hsome & [Hm Hvis]%matches_hidden & Hreach)%elem_globWalk.
    split; [|done]. rewrite directoryListing_readable in H1 by done.
    injection H1 as <-. rewrite alphasort_perm, list_elem_of_filter, list_elem_of_fmap.
    split; [done|]. exists rel. split; [done|]. apply list_elem_of_filter.
    split; [done|]. by apply elem_globWalk.
  - intros [Hf Hvis].
    destruct (directoryListing_inv _ _ _ _ _ _ H1 Hf)
      as (Hdir & Hig & rel & -> & Hrel & Hpr & _).
    rewrite (Hsplit _ _ Hrel) in Hvis.
    pose proof Hrel as (Hsome & Hm & Hreach)%elem_globWalk.
    rewrite directoryListing_readable in H0 by done.
    injection H0 as <-. rewrite alphasort_perm, list_elem_of_filter, list_elem_of_fmap.
    split; [done|]. exists rel. split; [done|]. apply list_elem_of_filter.
    split; [done|]. apply elem_globWalk.
    split_and!; [done| |done]. by apply matches_hidden.
Qed.


(** *** [discoverTrackableFolders] *)

(** [discoverTrackableFolders] never fails and changes nothing: where
    the listing of the base directory fails, it answers with the
    empty sequence.  No folder is reported twice. *)
Theorem discoverTrackableFolders_never_fails baseDir t :
  ∃ l, discoverTrackableFolders baseDir t = (t, Normal (Fulfilled l))
       ∧ NoDup l
       ∧ (∀ e, (directoryListing baseDir None true t).2 = Normal (Rejected e) → l = [])
       ∧ ((directoryListing baseDir None true t).2 = Normal (Fulfilled []) → l = []).
Proof.
  rewrite discoverTrackableFolders_run. eexists. split; [done|]. split_and!.
  - destruct (directoryListing baseDir None true t).2 as [[all|e]|e];
      try apply NoDup_nil_2.
    unfold without. apply NoDup_filter, NoDup_uniq.
  - by intros e ->.
  - by intros ->.
Qed.

Lemma dirname_name s : Fs.valid_name s → Path.dirname s = ".".
Proof.
  intros Hs. destruct (valid_chars s Hs) as (_ & Hno & _).
  unfold Path.dirname. destruct (Str.chars s) as [|c0 cs] eqn:Hc; [done|].
  simpl in Hno. apply Forall_app in Hno as [Hcs [Hc0 _]%Forall_cons].
  rewrite (dropWhile_none _ _ Hcs).
  assert (Str.dropWhile (λ c, bool_decide (c ≠ Str.slash)) (rev cs) = []) as ->.
  { clear -Hcs. induction Hcs as [|x l Hx _ IH]; simpl; [done|].
    apply bool_decide_eq_false in Hx. by rewrite bool_decide_true. }
  apply bool_decide_eq_false in Hc0. by rewrite (proj2 (Ascii.eqb_neq _ _) Hc0).
Qed.

(** With the process in its project directory, the top-level
    directory [_getBaseDirectories] computes for a listed path. *)
Lemma baseDirectory_topLevel rel :
  cwd = PROJECT_LOCATION → Forall Fs.valid_name rel → rel ≠ [] →
  hd "" (Str.split Str.slash
           (Path.dirname (Path.relative cwd PROJECT_LOCATION (Str.join rel))))
  = topLevel (Str.join rel).
Proof.
  intros Hhome Hvalid Hne. unfold topLevel.
  rewrite (split_join rel) by (done || by apply valid_no_slash).
  destruct rel as [|s [|s' rel]]; [done| |].
  - rewrite relative_home by done. simpl.
    apply Forall_cons in Hvalid as [Hs _]. by rewrite dirname_name.
  - rewrite baseDirectory_of; [done..|simpl; lia].
Qed.

(** With the process in its project directory: a folder is reported
    when a listed path lies in it and no listed path in it is a
    marker, a file or directory whose name lower-cases to [.noghost].
    The folder of a path directly in the base directory is [.]. *)
Theorem discoverTrackableFolders_opt_out baseDir t all :
  cwd = PROJECT_LOCATION → Fs.wf t →
  (directoryListing baseDir None true t).2 = Normal (Fulfilled all) →
  ∃ l, discoverTrackableFolders baseDir t = (t, Normal (Fulfilled l))
       ∧ NoDup l
       ∧ ∀ x, x ∈ l ↔
           (∃ f, f ∈ all ∧ topLevel f = x)
           ∧ ¬ ∃ f, f ∈ all ∧ Str.toLowerCase (Path.basename f) = ".noghost"
                    ∧ topLevel f = x.
Proof.
  intros Hhome Hwf Hall. rewrite discoverTrackableFolders_run, Hall.
  eexists. split; [done|]. split; [apply NoDup_filter, NoDup_uniq|].
  assert (∀ f, f ∈ all →
            hd "" (Str.split Str.slash
                     (Path.dirname (Path.relative cwd PROJECT_LOCATION f)))
            = topLevel f) as Htop.
  { intros f Hf.
    destruct (directoryListing_inv _ _ _ _ _ _ Hall Hf) as (_ & _ & rel & -> & Hrel & _).
    destruct (walk_valid _ _ _ _ Hwf Hrel). by apply baseDirectory_topLevel. }
  intros x. unfold without. rewrite list_elem_of_filter, !elem_of_getBaseDirectories.
  split.
  - intros [Hnot (f & Hf & ->)]. split; [exists f; by rewrite Htop|].
    intros (g & Hg & Hmark & Hx). apply Hnot. exists g. split.
    + by apply list_elem_of_filter.
    + rewrite (Htop g Hg). by rewrite Hx.
  - intros [(f & Hf & <-) Hnot]. split; [|exists f; by rewrite Htop].
    intros (g & [Hmark Hg]%list_elem_of_filter & Heq). apply Hnot.
    exists g. rewrite Htop in Heq by done. done.
Qed.

(** *** [createArchive] *)

Lemma createArchive_run id folder files t :
  let failed (t' : Fs.tree) cause :=
    (t', Normal (Rejected
                   (VError cause ("[Disk Storage] Error creating archive " +:+ quoted id)))) in
  createArchive id folder files t
  = match files with
    | [] => failed t (PlainError "no files or directories specified")
    | _ =>
        match Fs.writeFile t (key_of id) [] with
        | inl e => failed t (SystemError e "open" id)
        | inr t1 =>
            match tarGather t1 folder files with
            | inl (e, f) => failed t1 (SystemError e "lstat" f)
            | inr members =>
                (<[key_of id := Fs.File (tgz_pack members)]> t1, Normal (Fulfilled id))
            end
        end
    end.
Proof.
  simpl. unfold createArchive, async, tryCatch, await, return_, throw, tar_create,
    mbind, M_bind, mret, M_ret.
  destruct files as [|f files]; [done|].
  destruct (Fs.writeFile t (key_of id) []) as [e|t1]; [done|].
  by destruct (tarGather t1 folder (f :: files)) as [[e f']|members].
Qed.





(** *** [extractArchive] *)

Lemma extractArchive_run_all archive dest t :
  extractArchive archive dest t
  = match (if Fs.exists_ t (key_of dest) then inr t else Fs.mkdir t (key_of dest)) with
    | inl e => (t, Normal (Rejected (SystemError e "mkdir" dest)))
    | inr t0 =>
        match tgz_unpack archive with
        | None => (t0, Normal (Rejected (TarError "damaged archive")))
        | Some ms =>
            match unpackAll dest t0 ms with
            | (t', Some e) => (t', Normal (Rejected e))
            | (t', None) =>
                (t', Normal match globResult dest false [] t' with
                            | Fulfilled files => Fulfilled (forceForwardSlashes <$> files)
                            | Rejected e => Rejected e
                            end)
            end
        end
    end.
Proof.
  unfold extractArchive, async, await, return_, throw, fse_existsSync, fse_mkdirSync,
    sync, changing, tar_x, glob, mbind, M_bind, mret, M_ret.
  destruct (Fs.exists_ t (key_of dest)); simpl.
  - destruct (tgz_unpack archive) as [ms|]; [|done].
    destruct (unpackAll dest t ms) as [t1 [e|]]; [done|].
    by destruct (globResult dest false [] t1).
  - destruct (Fs.mkdir t (key_of dest)) as [e|t0]; [done|].
    destruct (tgz_unpack archive) as [ms|]; [|done].
    destruct (unpackAll dest t0 ms) as [t1 [e|]]; [done|].
    by destruct (globResult dest false [] t1).
Qed.

(** Where a member that is not refused is put: below the destination. *)
Lemma memberKey_below dest p :
  refused p = false → memberKey dest p = key_of dest ++ Path.names (Str.split Str.slash p).
Proof.
  unfold refused. intros [Hrel Hno]%orb_false_iff. apply bool_decide_eq_false in Hno.
  unfold memberKey, key_of. change [dest; p] with ([dest] ++ [p]).
  apply resolveSegs_snoc; [apply cwd_absolute|done..].
Qed.

(** How a member is put in its place when it is. *)
Lemma place_inr dest t p body t' :
  refused p = false → place dest t p body = inr t' →
  let k := memberKey dest p in
  key_of dest `prefix_of` k
  ∧ match body with
    | None => Fs.mkdirp t k = inr t'
    | Some d =>
        ∃ t1, Fs.mkdirp t (Fs.parent k) = inr t1
              ∧ t' = <[k := Fs.File d]> t1
              ∧ (∀ b, t1 !! k = Some (Fs.Dir b) → Fs.has_children t1 k = false)
    end.
Proof.
  unfold place. intros Href.
  simpl. intros Hrun. split; [rewrite memberKey_below by done; by apply prefix_app_r|].
  revert Hrun. set (k := memberKey dest p).
  destruct body as [d|].
  - destruct (Fs.mkdirp t (Fs.parent k)) as [e|t1] eqn:Hmk; [done|].
    intros Hrun. exists t1. split; [done|].
    destruct (t1 !! k) as [[d'|b]|] eqn:Hk.
    + unfold orError in Hrun.
      destruct (Fs.writeFile t1 k d) as [e|t2] eqn:Hw; [done|]. injection Hrun as <-.
      apply writeFile_inr in Hw as (_ & -> & _). done.
    + unfold Fs.rmdir in Hrun. destruct (Fs.stat t1 k) as [e|[d'|b']]; [done..|].
      destruct (Fs.has_children t1 k) eqn:Hc; [done|]. unfold orError in Hrun.
      destruct (Fs.writeFile (delete k t1) k d) as [e|t2] eqn:Hw; [done|].
      injection Hrun as <-. apply writeFile_inr in Hw as (_ & -> & _).
      split; [by rewrite insert_delete_eq|done].
    + unfold orError in Hrun.
      destruct (Fs.writeFile t1 k d) as [e|t2] eqn:Hw; [done|]. injection Hrun as <-.
      apply writeFile_inr in Hw as (_ & -> & _). done.
  - unfold orError. destruct (Fs.mkdirp t k) as [e|t1]; [done|]. by intros [= ->].
Qed.

(** Putting a member in its place changes nothing outside the
    destination, and takes no entry away, when everything on the way
    to the destination is there. *)
Lemma place_confined dest t p body t' :
  (∀ j, j ≠ [] → j `prefix_of` key_of dest → is_Some (t !! j)) →
  refused p = false → place dest t p body = inr t' →
  (∀ j, ¬ key_of dest `prefix_of` j → t' !! j = t !! j)
  ∧ (∀ j, is_Some (t !! j) → is_Some (t' !! j)).
Proof.
  intros Hway Href Hrun. destruct (place_inr _ _ _ _ _ Href Hrun) as [Hbelow Hrun'].
  clear Hrun. set (k := memberKey dest p) in *.
  assert (∀ K t1, K `prefix_of` k → Fs.mkdirp t K = inr t1 →
            (∀ j, ¬ key_of dest `prefix_of` j → t1 !! j = t !! j)
            ∧ (∀ j, is_Some (t !! j) → is_Some (t1 !! j))) as Hmk.
  { intros K t1 HK Hmk. split; intros j Hj.
    - rewrite (mkdirp_lookup _ _ _ j Hmk). destruct (t !! j) eqn:Htj; [done|].
      case_decide as Hd; [|done]. destruct Hd as [Hne Hpre].
      destruct Hbelow as [x Hx].
      assert (j `prefix_of` key_of dest ++ x) as Hjk by (rewrite <- Hx; by etrans).
      apply prefix_below in Hjk as [Hjd|(x' & -> & _)].
      + destruct (Hway j Hne Hjd) as [n Hn]. congruence.
      + destruct Hj. by apply prefix_app_r.
    - rewrite (mkdirp_lookup _ _ _ j Hmk). by destruct Hj as [n ->]. }
  destruct body as [d|].
  - destruct Hrun' as (t1 & Hmk1 & -> & _).
    destruct (Hmk _ _ (removelast_prefix k) Hmk1) as [Hout Hkeep]. split; intros j Hj.
    + rewrite lookup_insert_ne; [by apply Hout|]. by intros <-.
    + destruct (decide (j = k)) as [->|Hne]; [by rewrite lookup_insert_eq|].
      rewrite lookup_insert_ne by done. by apply Hkeep.
  - by apply (Hmk k).
Qed.

(** So does one member, whatever its path. *)
Lemma unpackMember_confined dest t m :
  (∀ j, j ≠ [] → j `prefix_of` key_of dest → is_Some (t !! j)) →
  (∀ j, ¬ key_of dest `prefix_of` j → (unpackMember dest t m).1 !! j = t !! j)
  ∧ (∀ j, is_Some (t !! j) → is_Some ((unpackMember dest t m).1 !! j)).
Proof.
  intros Hway.
  destruct (unpackMember_cases dest t m) as [->|(p & t' & Ht' & Hp & Href)]; [done|].
  simpl in Ht'. rewrite <- Ht'. by eapply place_confined.
Qed.

Lemma unpackAll_confined dest t ms :
  (∀ j, j ≠ [] → j `prefix_of` key_of dest → is_Some (t !! j)) →
  ∀ j, ¬ key_of dest `prefix_of` j → (unpackAll dest t ms).1 !! j = t !! j.
Proof.
  revert t. induction ms as [|m ms IH]; intros t Hway j Hj; [done|].
  rewrite unpackAll_cons. simpl.
  destruct (unpackMember_confined dest t m Hway) as [Hout Hkeep].
  rewrite IH; [by apply Hout| |done]. intros i Hi Hpre. by apply Hkeep, Hway.
Qed.

(** Whatever regular files and directories the archive holds, and under
    whatever paths, [extractArchive] leaves everything that is not at
    or below the destination as it was: a member whose path has a
    [..] segment is passed over, and an absolute one is unpacked below
    the destination.  (Archives with link members are outside the
    model, and so are destinations that are not named by names
    only.) *)
Theorem extractArchive_confined archive dest ms t j :
  direct dest →
  tgz_unpack archive = Some ms →
  ¬ key_of dest `prefix_of` j →
  (extractArchive archive dest t).1 !! j = t !! j.
Proof.
  intros _ Hms Hj. rewrite extractArchive_run_all, Hms.
  assert (∀ t0 n, Fs.stat t0 (key_of dest) = inr n →
                  ∀ i, i ≠ [] → i `prefix_of` key_of dest → is_Some (t0 !! i)) as Hway.
  { intros t0 n [Hn Habove]%stat_inr i Hi Hpre.
    destruct (decide (i = key_of dest)) as [->|Hne].
    - destruct (key_of dest); [done|]. by eexists.
    - destruct (Habove i Hpre Hne) as [b Hb]. destruct i; [done|]. by eexists. }
  assert (∀ t0 n, Fs.stat t0 (key_of dest) = inr n →
            (match unpackAll dest t0 ms with
             | (t', Some e) => (t', Normal (Rejected e))
             | (t', None) =>
                 (t', Normal match globResult dest false [] t' with
                             | Fulfilled files =>
                                 Fulfilled (forceForwardSlashes <$> files)
                             | Rejected e => Rejected e
                             end)
             end).1 !! j = t0 !! j) as Hrest.
  { intros t0 n Hstat.
    pose proof (unpackAll_confined dest t0 ms (Hway _ _ Hstat) j Hj) as Hun.
    by destruct (unpackAll dest t0 ms) as [t' [e|]]. }
  unfold Fs.exists_. destruct (Fs.stat t (key_of dest)) as [e|n] eqn:Hstat.
  - destruct (Fs.mkdir t (key_of dest)) as [e'|t0] eqn:Hmk; [done|].
    unfold Fs.mkdir in Hmk. rewrite Hstat in Hmk.
    destruct (Fs.stat t (Fs.parent (key_of dest))) as [e'|[d|b]] eqn:Hp; [done..|].
    injection Hmk as <-.
    assert (key_of dest ≠ []) as Hne by (intros Heq; by rewrite Heq in Hstat).
    rewrite (Hrest _ (Fs.Dir true)).
    + rewrite lookup_insert_ne; [done|]. by intros <-.
    + apply stat_inr in Hp as [Hp Habove]. apply stat_inr. split.
      * destruct (key_of dest); [done|]. simpl. by rewrite lookup_insert_eq.
      * intros i Hi Hik. simpl. rewrite node_at_insert_ne by done.
        by apply (dirsAbove_parent _ _ _ Hp Habove).
  - by apply (Hrest _ n).
Qed.

(** In a well-formed tree putting a member in its place takes no
    entry away, and leaves every entry that has something below it as
    it is. *)
Lemma place_keeps dest t p body t' j :
  Fs.wf t → refused p = false → place dest t p body = inr t' → is_Some (t !! j) →
  is_Some (t' !! j)
  ∧ ∀ i, properPrefix j i → is_Some (t !! i) → t' !! j = t !! j.
Proof.
  intros Hwf Href Hrun [n Hn]. destruct (place_inr _ _ _ _ _ Href Hrun) as [_ Hrun'].
  clear Hrun. set (k := memberKey dest p) in *.
  destruct body as [d|].
  - destruct Hrun' as (t1 & Hmk & -> & Hempty).
    pose proof Hmk as (Hkeep & _)%mkdirpFrom_spec.
    destruct (decide (j = k)) as [->|Hne].
    + rewrite lookup_insert_eq. split; [by eexists|]. intros i [Hpre Hik] [ni Hi].
      destruct n as [d0|b].
      * destruct (Hwf _ _ Hi) as (_ & _ & Habove).
        destruct (Habove k Hpre) as [b Hb]; [done|].
        destruct k; [by destruct (Hwf _ _ Hn)|]. simpl in Hb. congruence.
      * apply Hkeep in Hn, Hi. specialize (Hempty _ Hn).
        by destruct Hik; symmetry; eapply has_children_false.
    + rewrite lookup_insert_ne by done. rewrite (Hkeep _ _ Hn). split; [by eexists|done].
  - apply mkdirpFrom_spec in Hrun' as (Hkeep & _). rewrite (Hkeep _ _ Hn).
    split; [by eexists|done].
Qed.

Lemma unpackMember_keeps dest t m j :
  Fs.wf t → is_Some (t !! j) →
  is_Some ((unpackMember dest t m).1 !! j)
  ∧ ∀ i, properPrefix j i → is_Some (t !! i) → (unpackMember dest t m).1 !! j = t !! j.
Proof.
  intros Hwf Hj.
  destruct (unpackMember_cases dest t m) as [->|(p & t' & Ht' & Hp & Href)]; [done|].
  simpl in Ht'. rewrite <- Ht'. by eapply place_keeps.
Qed.

Lemma unpackAll_keeps dest t ms j :
  Fs.wf t → is_Some (t !! j) →
  is_Some ((unpackAll dest t ms).1 !! j)
  ∧ ∀ i, properPrefix j i → is_Some (t !! i) → (unpackAll dest t ms).1 !! j = t !! j.
Proof.
  revert t. induction ms as [|m ms IH]; intros t Hwf Hj; [done|].
  rewrite unpackAll_cons. simpl.
  destruct (unpackMember_keeps dest t m j Hwf Hj) as [Hj1 Hsame].
  destruct (IH _ (wf_unpackMember dest t m Hwf) Hj1) as [Hj2 Hsame2].
  split; [done|]. intros i Hpp Hi.
  destruct (unpackMember_keeps dest t m i Hwf Hi) as [Hi1 _].
  rewrite (Hsame2 i Hpp Hi1). by apply (Hsame i).
Qed.

(** The listing [extractArchive] returns is the listing of the whole
    destination: what an earlier extraction into the same destination
    listed is listed again by a later one, whatever the later archive
    holds. *)
Theorem extractArchive_accumulates a1 a2 dest t t1 t2 l1 l2 :
  Fs.wf t →
  extractArchive a1 dest t = (t1, Normal (Fulfilled l1)) →
  extractArchive a2 dest t1 = (t2, Normal (Fulfilled l2)) →
  ∀ f, f ∈ l1 → f ∈ l2.
Proof.
  intros Hwf (t0 & ms1 & files1 & Ht0 & _ & Hun1 & Hg1 & ->)%extractArchive_inv
    (t0' & ms2 & files2 & Ht0' & _ & Hun2 & Hg2 & ->)%extractArchive_inv f.
  rewrite !forceForwardSlashes_map. intros Hf.
  set (d := key_of dest) in *.
  assert (Fs.wf t1) as Hwf1.
  { eapply wf_unpackAll; [|done]. destruct (Fs.exists_ t d); [by subst|].
    eapply wf_mkdir; [done|apply key_valid|done]. }
  assert (Fs.stat t1 d = inr (Fs.Dir true)) as Hdir.
  { revert Hg1 Hf. unfold globResult. fold d.
    destruct (Fs.stat t1 d) as [[]|[?|[]]]; try done; intros [= <-] Hf;
      by apply elem_of_nil in Hf. }
  destruct (glob_listed _ _ _ _ _ _ Hg1 Hf) as (rel & -> & Hrel). fold d in Hrel.
  pose proof Hrel as (Hsome & Hm & Hreach)%elem_globWalk.
  pose proof Hm as (Hne & _)%matches_inv.
  unfold Fs.exists_ in Ht0'. rewrite Hdir in Ht0'. subst t0'.
  assert (t2 = (unpackAll dest t1 ms2).1) as Ht2 by (by rewrite Hun2).
  assert (∀ x, x `prefix_of` rel → x ≠ rel → d ++ x ≠ [] →
               t2 !! (d ++ x) = t1 !! (d ++ x)) as Hsame.
  { intros x Hx Hxr Hnil.
    assert (is_Some (t1 !! (d ++ x))) as Hthere.
    { destruct Hsome as [n Hn]. destruct (Hwf1 _ _ Hn) as (_ & _ & Habove).
      destruct (Habove (d ++ x)) as [b Hb].
      - by apply prefix_app.
      - by intros ?%app_inv_head.
      - destruct (d ++ x); [done|]. by eexists. }
    rewrite Ht2. apply (unpackAll_keeps dest t1 ms2 (d ++ x) Hwf1 Hthere) with (d ++ rel);
      [|done]. split; [by apply prefix_app|by intros ?%app_inv_head]. }
  assert (∀ j, j `prefix_of` d → Fs.node_at t2 j = Fs.node_at t1 j) as Habove.
  { intros [|s j] Hj; [done|]. simpl.
    assert (is_Some (t1 !! (s :: j))) as Hthere.
    { apply stat_inr in Hdir as [Hd Hab].
      destruct (decide (s :: j = d)) as [Heq|Hneq].
      - rewrite Heq. destruct d; [done|]. by eexists.
      - destruct (Hab (s :: j) Hj Hneq) as [b Hb]. by eexists. }
    rewrite Ht2. apply (unpackAll_keeps dest t1 ms2 (s :: j) Hwf1 Hthere) with (d ++ rel);
      [|done]. split; [by etrans; [|apply prefix_app_r]|].
    intros Heq. destruct Hj as [y Hy]. rewrite Hy, <- app_assoc in Heq.
    rewrite <- (app_nil_r (s :: j)) in Heq at 1. apply app_inv_head in Heq.
    symmetry in Heq. by apply app_eq_nil in Heq as [_ ?]. }
  assert (Fs.stat t2 d = inr (Fs.Dir true)) as Hdir2.
  { apply stat_inr in Hdir as [Hd Hab]. apply stat_inr. rewrite Habove by done.
    split; [done|]. intros j Hj Hjd. simpl. rewrite Habove by done. by apply Hab. }
  revert Hg2. unfold globResult. fold d. rewrite Hdir2.
  destruct (barred t2 d false []); [done|]. rewrite filter_pruned_nil. intros [= <-].
  rewrite alphasort_perm, list_elem_of_filter, list_elem_of_fmap.
  split; [apply ignored_nil|]. exists rel. split; [done|]. apply elem_globWalk.
  split_and!; [|done|].
  - rewrite Ht2. by apply unpackAll_keeps.
  - unfold reachable in *. rewrite forallb_forall in Hreach. apply forallb_forall.
    intros i Hi. specialize (Hreach i Hi). apply in_seq in Hi as [Hi1 Hi2].
    rewrite Hsame; [done|apply prefix_take| |].
    + intros Heq. apply (f_equal length) in Heq. rewrite length_take in Heq. lia.
    + intros Heq. apply app_eq_nil in Heq as [_ Heq]. apply (f_equal length) in Heq.
      rewrite length_take in Heq. simpl in Heq. lia.
Qed.

(** The destination is made one level deep, and before the archive
    is looked at: when nothing is at the destination and the
    directory that is to hold it is not there, the call fails with
    the raw error of [mkdir], whatever the archive, and changes
    nothing. *)
Theorem extractArchive_destination_missing archive dest t :
  Fs.exists_ t (key_of dest) = false →
  (∀ b, Fs.stat t (Fs.parent (key_of dest)) ≠ inr (Fs.Dir b)) →
  ∃ c, extractArchive archive dest t
       = (t, Normal (Rejected (SystemError c "mkdir" dest))).
Proof.
  intros Hex Hparent. rewrite extractArchive_run_all, Hex.
  unfold Fs.exists_ in Hex. unfold Fs.mkdir.
  destruct (Fs.stat t (key_of dest)) as [e|n]; [|done].
  destruct (Fs.stat t (Fs.parent (key_of dest))) as [e'|[d|b]]; [by eauto..|].
  by destruct (Hparent b).
Qed.


Lemma unpackAll_refused dest t ms m :
  m ∈ ms → refused (entry_path m) = true → is_Some (unpackAll dest t ms).2.
Proof.
  revert t. induction ms as [|m' ms IH]; intros t Hin Href; [by apply elem_of_nil in Hin|].
  rewrite unpackAll_cons. simpl.
  destruct (unpackMember dest t m').2 as [e|] eqn:Hfirst; [by eexists|].
  apply elem_of_cons in Hin as [->|Hin]; [|by apply IH].
  destruct (unpackMember_refused dest t m' Href) as [e He]. congruence.
Qed.

(** An archive with a member whose path is absolute or has a [..]
    segment is never extracted with success. *)
Theorem extractArchive_refuses archive dest t ms m :
  tgz_unpack archive = Some ms → m ∈ ms → refused (entry_path m) = true →
  ∃ e, (extractArchive archive dest t).2 = Normal (Rejected e).
Proof.
  intros Hms Hin Href. rewrite extractArchive_run_all, Hms.
  destruct (if Fs.exists_ t (key_of dest) then inr t else Fs.mkdir t (key_of dest))
    as [e|t0]; [by eauto|].
  destruct (unpackAll_refused dest t0 ms m Hin Href) as [e He].
  destruct (unpackAll dest t0 ms) as [t' r]. simpl in He. subst r. by eauto.
Qed.

(** *** What every operation keeps *)

Lemma wf_delete_file t k d : Fs.wf t → t !! k = Some (Fs.File d) → Fs.wf (delete k t).
Proof.
  intros Hwf Hk j n [Hjk Hj]%lookup_delete_Some.
  destruct (Hwf _ _ Hj) as (Hne & Hvalid & Habove). split_and!; [done..|].
  intros i Hi Hij. destruct (Habove i Hi Hij) as [r Hr]. exists r.
  destruct i as [|s i]; [done|]. simpl in *. rewrite lookup_delete_ne; [done|].
  intros ->. congruence.
Qed.

Lemma wf_remove t k : Fs.wf t → Fs.wf (Fs.remove t k).
Proof.
  intros Hwf j n. rewrite remove_lookup. case_decide as Hkj; [done|]. intros Hj.
  destruct (Hwf _ _ Hj) as (Hne & Hvalid & Habove). split_and!; [done..|].
  intros i Hi Hij. destruct (Habove i Hi Hij) as [r Hr]. exists r.
  destruct i as [|s i]; [done|]. simpl in *. rewrite remove_lookup, decide_False; [done|].
  intros Hki. apply Hkj. by etrans.
Qed.

(** A well-formed tree stays well-formed under every operation of the
    driver, whether the operation succeeds or fails: what is in the
    tree hangs below directories that are in the tree. *)
Theorem driver_keeps_well_formed t :
  Fs.wf t →
  (∀ p c rec, Fs.wf (upsertFile p c rec t).1)
  ∧ (∀ d, Fs.wf (createDir d t).1)
  ∧ (∀ p rec, Fs.wf (deleteFile p rec t).1)
  ∧ (∀ p, Fs.wf (deleteDir p t).1)
  ∧ (∀ id folder files, Fs.wf (createArchive id folder files t).1)
  ∧ (∀ archive dest, Fs.wf (extractArchive archive dest t).1).
Proof.
  intros Hwf. split_and!.
  - intros p c rec. rewrite upsertFile_run.
    destruct (Fs.mkdirp t (Fs.parent (location p))) as [e|t1] eqn:Hmk; [done|].
    assert (Fs.wf t1) as Hwf1.
    { eapply wf_mkdirp; [done| |done]. apply parent_valid, location_valid. }
    destruct (Fs.writeFile t1 (location p) (bytes c)) as [e|t2] eqn:Hw; [done|].
    simpl. eapply wf_writeFile; [done|apply location_valid|done].
  - intros d. rewrite createDir_run.
    destruct (Fs.mkdirp t (key_of d)) as [e|t1] eqn:Hmk; [done|].
    simpl. eapply wf_mkdirp; [done|apply key_valid|done].
  - intros p rec. rewrite deleteFile_run. unfold Fs.unlink.
    destruct (Fs.stat t (location p)) as [e|[d|b]] eqn:Hs; [done| |done].
    simpl. apply (wf_delete_file _ _ d); [done|].
    apply stat_inr in Hs as [Hn _]. by destruct (location p).
  - intros p. rewrite deleteDir_run. simpl.
    destruct (Fs.stat t (location p)) as [[]|n]; try done;
      destruct (sealedBelow t (location p)); try done; by apply wf_remove.
  - intros id folder files. rewrite createArchive_run. simpl.
    destruct files as [|f files]; [done|].
    destruct (Fs.writeFile t (key_of id) []) as [e|t1] eqn:Hw; [done|].
    assert (Fs.wf t1) as Hwf1 by (eapply wf_writeFile; [done|apply key_valid|done]).
    destruct (tarGather t1 folder (f :: files)) as [[e g]|members]; [done|].
    simpl. apply writeFile_inr in Hw as (Hk & Ht1 & _).
    assert (t1 !! key_of id = Some (Fs.File [])) as Hfile
      by (by rewrite Ht1, lookup_insert_eq).
    destruct (Hwf1 _ _ Hfile) as (_ & Hvalid & Habove).
    apply wf_insert; [done..| |].
    + intros j Hj Hjk. by apply Habove.
    + intros b Hb. congruence.
  - intros archive dest. rewrite extractArchive_run_all.
    destruct (if Fs.exists_ t (key_of dest) then inr t else Fs.mkdir t (key_of dest))
      as [e|t0] eqn:Hready; [done|].
    assert (Fs.wf t0) as Hwf0.
    { destruct (Fs.exists_ t (key_of dest)); [by injection Hready as <-|].
      eapply wf_mkdir; [done|apply key_valid|done]. }
    destruct (tgz_unpack archive) as [ms|]; [|done].
    pose proof (wf_unpackAll dest t0 ms) as Hun.
    destruct (unpackAll dest t0 ms) as [t' [e|]]; simpl; by eapply Hun.
Qed.

(** *** The two ways a path is taken *)

(** With the process in its project directory, a path resolves from
    the working directory to where it resolves from the project
    directory. *)
Lemma location_home p : cwd = PROJECT_LOCATION → location p = key_of p.
Proof.
  intros Hhome. rewrite location_segs. unfold key_of, Path.resolveSegs. simpl.
  pose proof cwd_absolute as Habs.
  assert (PROJECT_LOCATION ≠ "") as Hne
    by (intros Heq; rewrite Hhome, Heq in Habs; done).
  rewrite <- Hhome in *. destruct (decide (p = "")) as [->|Hp].
  - rewrite decide_False by done. by rewrite Habs.
  - destruct (Path.isAbsolute p); [done|].
    rewrite decide_False by done. by rewrite Habs.
Qed.

(** [createDir] resolves its path from the working directory of the
    process, the operations on files from the project directory.
    With the process in its project directory the two agree: the
    directory [createDir] has made is where the other operations take
    its path to lead, a directory; and nothing off the way to it has
    changed. *)
Theorem createDir_at_home d t t' :
  cwd = PROJECT_LOCATION →
  createDir d t = (t', Normal (Fulfilled ())) →
  (∃ b, Fs.stat t' (location d) = inr (Fs.Dir b))
  ∧ (∀ j n, t !! j = Some n → t' !! j = Some n)
  ∧ (∀ j, ¬ j `prefix_of` location d → t' !! j = t !! j).
Proof.
  intros Hhome. rewrite createDir_run, (location_home d Hhome).
  destruct (Fs.mkdirp t (key_of d)) as [e|t1] eqn:Hmk; [done|]. intros [= <-].
  pose proof Hmk as (Hkeep & Hnew & Hdirs)%mkdirpFrom_spec.
  assert (∀ j, j `prefix_of` key_of d → ∃ b, Fs.node_at t1 j = Some (Fs.Dir b)) as Hall.
  { intros [|s j] Hj; [by eexists|]. by apply (Hdirs (s :: j)). }
  split_and!; [|done|].
  - destruct (Hall (key_of d)) as [b Hb]; [done|]. exists b.
    apply stat_inr. split; [done|]. intros j Hj _. by apply Hall.
  - intros j Hj. rewrite (mkdirp_lookup _ _ _ j Hmk).
    destruct (t !! j); [done|]. rewrite decide_False; [done|]. by intros [_ ?].
Qed.

End Operations.

(* ===================================================================== *)
(** ** The driver at work: instances of the properties, and inputs on
       which the claims as worded do not hold *)
(* ===================================================================== *)

Section Instances.
Import Js DiskStorageDriver Sample.

(** A proposition that can be decided holds when deciding it says so. *)
Ltac by_evaluation :=
  match goal with
  | |- ?P => apply (bool_decide_eq_true_1 P); vm_compute; reflexivity
  end.

(** C1 at work: a file that is not there, and a directory, read
    through [readFile]. *)
Example readFile_raw_errors :
  (@readFile atHome "a/zz.txt" tracked).2
  = Normal (Rejected (SystemError Fs.ENOENT "open" "/proj/a/zz.txt"))
  ∧ (code <$> match (@readFile atHome "a" tracked).2 with
               | Normal (Rejected e) => Some e
               | _ => None
               end) = Some (Some Fs.EISDIR)
  ∧ (@readFile atHome "a/x.txt" (@deleteFile atHome "a/x.txt" false tracked).1).2
    = Normal (Rejected (SystemError Fs.ENOENT "open" "/proj/a/x.txt")).
Proof. split_and!; vm_compute; reflexivity. Qed.


Lemma upsert_then_read_witness :
  let t' := (@upsertFile atHome "c/d/e.txt" (FromString "hi") false tracked).1 in
  @readFile atHome "c/d/e.txt" t' = (t', Normal (Fulfilled (bytes (FromString "hi"))))
  ∧ ∀ j, j `prefix_of` @location atHome "c/d/e.txt" → j ≠ @location atHome "c/d/e.txt" →
         ∃ b, Fs.node_at t' j = Some (Fs.Dir b).
Proof.
  apply (@upsert_then_read atHome "c/d/e.txt" (FromString "hi") false tracked).
  - by_evaluation.
  - vm_compute. reflexivity.
Defined.

(** C8 at work: a ledger that parses, one that does not, and none. *)
Example listRevisions_on_ledgers :
  (@listRevisions reader "a" withLedgers).2 = Normal (Fulfilled ledgerValue)
  ∧ (@listRevisions reader "b" withLedgers).2 = Normal (Fulfilled (Array []))
  ∧ (@listRevisions reader "c" withLedgers).2 = Normal (Fulfilled (Array [])).
Proof. split_and!; vm_compute; reflexivity. Qed.


(** C3 does not hold: an [upsertFile] with [recordRevision] set
    succeeds, and the ledger of the enclosing prefix is as empty
    after it as before. *)
Lemma upsertFile_recorded_nothing :
  let t' := (@upsertFile atHome "a/x.txt" (FromString "v2") true tracked).1 in
  (@listRevisions atHome "a" tracked).2 = Normal (Fulfilled (Array []))
  ∧ (@upsertFile atHome "a/x.txt" (FromString "v2") true tracked).2
    = Normal (Fulfilled ())
  ∧ (@listRevisions atHome "a" t').2 = Normal (Fulfilled (Array [])).
Proof. split_and!; vm_compute; reflexivity. Qed.

Lemma upsertFile_appends_no_revision_witness :
  @upsertFile atHome "a/x.txt" (FromString "v2") true tracked
  = @upsertFile atHome "a/x.txt" (FromString "v2") false tracked
  ∧ (@listRevisions atHome "a"
       (@upsertFile atHome "a/x.txt" (FromString "v2") true tracked).1).2
    = (@listRevisions atHome "a" tracked).2.
Proof.
  apply (@upsertFile_appends_no_revision atHome "a/x.txt" (FromString "v2") "a" tracked).
  - apply wfb_wf. vm_compute. reflexivity.
  - by_evaluation.
Defined.

(** C4 (the code departs from the claim).  On the tree of the claim
    the answer is [a] when the process runs in its project directory,
    and empty when it was started elsewhere: the listed paths are
    taken relative to the working directory of the process. *)
Theorem discoverTrackableFolders_follows_cwd :
  (@discoverTrackableFolders atHome "." tracked).2 = Normal (Fulfilled ["a"])
  ∧ (@directoryListing away "." None true tracked).2
    = Normal (Fulfilled ["a/x.txt"; "b/.noghost"; "b/y.txt"])
  ∧ @_getBaseDirectories away ["a/x.txt"; "b/.noghost"; "b/y.txt"] = [".."]
  ∧ (@discoverTrackableFolders away "." tracked).2 = Normal (Fulfilled []).
Proof. split_and!; vm_compute; reflexivity. Qed.

(** C5 does not hold: a path with a traversal segment resolves to a
    location outside the store root. *)
Lemma resolvePath_leaves_root :
  @resolvePath atHome "../etc/passwd" = "/etc/passwd"
  ∧ @storeRoot atHome = ["proj"]
  ∧ ¬ (@storeRoot atHome `prefix_of` @location atHome "../etc/passwd").
Proof.
  split_and!; [vm_compute; reflexivity..|].
  intros Hp. apply (bool_decide_eq_true_2 _) in Hp. vm_compute in Hp. discriminate.
Qed.

Lemma resolvePath_normalized_witness :
  let n := normalized "a/../b/x.txt" in
  let k := Path.climbs n in
  @location atHome "a/../b/x.txt" = take (length (@storeRoot atHome) - k) (@storeRoot atHome)
                                    ++ drop k n
  ∧ (@storeRoot atHome `prefix_of` @location atHome "a/../b/x.txt"
     ↔ drop (length (@storeRoot atHome) - k) (@storeRoot atHome) `prefix_of` drop k n)
  ∧ (k = 0 → @location atHome "a/../b/x.txt" = @storeRoot atHome ++ n
             ∧ @storeRoot atHome `prefix_of` @location atHome "a/../b/x.txt"
             ∧ (n ≠ [] → @location atHome "a/../b/x.txt" ≠ @storeRoot atHome)).
Proof. apply (@resolvePath_normalized atHome "a/../b/x.txt"). reflexivity. Defined.

(** C5 at work: [a/../b/x.txt] stays inside the root, [../proj/x]
    leaves it and comes back, [../etc/passwd] leaves it. *)
Example resolvePath_on_traversals :
  normalized "a/../b/x.txt" = ["b"; "x.txt"]
  ∧ @location atHome "a/../b/x.txt" = ["proj"; "b"; "x.txt"]
  ∧ normalized "../proj/x" = [".."; "proj"; "x"]
  ∧ @location atHome "../proj/x" = ["proj"; "x"]
  ∧ normalized "../etc/passwd" = [".."; "etc"; "passwd"]
  ∧ @location atHome "../etc/passwd" = ["etc"; "passwd"].
Proof. split_and!; vm_compute; reflexivity. Qed.





(** C10 does not hold as worded: the listing of [docs] has the
    directory [v1.0], and the file [notes.], whose dot has nothing
    after it; the plain files [LICENSE] and [v1.0/README] are left
    out. *)
Lemma listing_has_directory_and_bare_dot :
  (@directoryListing atHome "docs" None false docs).2
  = Normal (Fulfilled ["notes."; "v1.0"])
  ∧ docs !! ["proj"; "docs"; "v1.0"] = Some (Fs.Dir true)
  ∧ hasExtension "notes." = false.
Proof. split_and!; vm_compute; reflexivity. Qed.

Lemma listings_are_dotted_witness :
  (∀ folder exclude dot l,
     (@directoryListing atHome folder exclude dot docs).2 = Normal (Fulfilled l) →
     dottedListing docs (@location atHome folder) dot l)
  ∧ (∀ archive dest t' l,
       @extractArchive atHome archive dest docs = (t', Normal (Fulfilled l)) →
       dottedListing t' (@key_of atHome dest) false l).
Proof.
  apply (@listings_are_dotted atHome docs). apply wfb_wf. vm_compute. reflexivity.
Defined.

(** The tree of claim C4 with the marker three directories deep and in
    capitals, built by unpacking its files into an empty [/proj]. *)
Lemma discoverTrackableFolders_at_home_witness :
  let files := claimTree (list_byte_of_string "x") (list_byte_of_string "y") []
                 ["deep"; "er.d"; "still"] ".NoGhost" in
  let t := (@unpackAll atHome "." {[ ["proj"] := Fs.Dir true ]} (fileMembers files)).1 in
  @discoverTrackableFolders atHome "." t = (t, Normal (Fulfilled ["a"])).
Proof.
  intros files t.
  apply (@discoverTrackableFolders_at_home atHome "." t (list_byte_of_string "x")
           (list_byte_of_string "y") [] ["deep"; "er.d"; "still"] ".NoGhost").
  - reflexivity.
  - by_evaluation.
  - reflexivity.
  - destruct (@unpackAll_items atHome "." {[ ["proj"] := Fs.Dir true ]} [] files)
      as (t' & Heq & Hun).
    + split; [vm_compute; reflexivity|]. intros x n Hx. split.
      * intros [Hk _]%lookup_singleton_Some. change (["proj"] ++ [] = ["proj"] ++ x) in Hk.
        apply app_inv_head in Hk. by destruct Hx.
      * intros [(? & _ & Hin)|(_ & ? & ? & Hin & _)]; by apply elem_of_nil in Hin.
    + apply consistentb_consistent. vm_compute. reflexivity.
    + by_evaluation.
    + unfold t. rewrite Heq. exact Hun.
Defined.

End Instances.

(* ===================================================================== *)
(** ** The operations at work on the sample trees *)
(* ===================================================================== *)

Import Js DiskStorageDriver Sample.

(** A run is settled by how it completes. *)
Lemma settled {A} (r : Fs.tree * completion A) (c : completion A) :
  r.2 = c → r = (r.1, c).
Proof. destruct r. by intros <-. Qed.

Ltac by_running := apply settled; vm_compute; reflexivity.

Ltac by_deciding :=
  match goal with
  | |- ?P => apply (bool_decide_eq_true_1 P); vm_compute; reflexivity
  end.

Lemma upsertFile_blocked_witness :
  ∃ code syscall path,
    @upsertFile atHome "a/x.txt/sub/f.txt" (FromString "v") false tracked
    = (tracked,
       Normal (Rejected (VError (SystemError code syscall path)
                           ("[Disk Storage] Error upserting file "
                            +:+ quoted "a/x.txt/sub/f.txt")))).
Proof.
  apply (@upsertFile_blocked atHome "a/x.txt/sub/f.txt" (FromString "v") false tracked).
  - apply wfb_wf. vm_compute. reflexivity.
  - left. exists ["proj"; "a"; "x.txt"], (list_byte_of_string "x").
    split; [by_deciding|vm_compute; reflexivity].
Defined.

Lemma upsertFile_overwrites_witness :
  let t1 := (@upsertFile atHome "c/d/e.txt" (FromString "one") false tracked).1 in
  let t2 := <[@location atHome "c/d/e.txt" := Fs.File (bytes (FromString "two"))]> t1 in
  @upsertFile atHome "c/d/e.txt" (FromString "two") true t1 = (t2, Normal (Fulfilled ()))
  ∧ @readFile atHome "c/d/e.txt" t2 = (t2, Normal (Fulfilled (bytes (FromString "two"))))
  ∧ @upsertFile atHome "c/d/e.txt" (FromString "one") true t1 = (t1, Normal (Fulfilled ())).
Proof.
  apply (@upsertFile_overwrites atHome "c/d/e.txt" (FromString "one") (FromString "two")
           false true tracked).
  by_running.
Defined.

Lemma deleteFile_then_read_witness :
  let t' := (@deleteFile atHome "a/x.txt" false tracked).1 in
  @readFile atHome "a/x.txt" t'
  = (t', Normal (Rejected (SystemError Fs.ENOENT "open" (@resolvePath atHome "a/x.txt"))))
  ∧ @deleteFile atHome "a/x.txt" false t'
    = (t', Normal (Rejected (SystemError Fs.ENOENT "unlink" (@resolvePath atHome "a/x.txt"))))
  ∧ (∀ j, j ≠ @location atHome "a/x.txt" → t' !! j = tracked !! j)
  ∧ (∀ q b, q ≠ @location atHome "a/x.txt" →
            Fs.readFile t' q = inr b ↔ Fs.readFile tracked q = inr b).
Proof.
  apply (@deleteFile_then_read atHome "a/x.txt" false tracked). by_running.
Defined.

Lemma deleteDir_rejections_witness :
  ∃ c syscall path,
    VError (SystemError Fs.EACCES "scandir" "/proj/top/vault")
      ("[Disk Storage] Error deleting directory " +:+ quoted "top")
    = VError (SystemError c syscall path)
        ("[Disk Storage] Error deleting directory " +:+ quoted "top")
    ∧ ((c = Fs.ENOTDIR ∧ syscall = "unlink" ∧ path = @resolvePath atHome "top"
        ∧ Fs.stat nested (@location atHome "top") = inl Fs.ENOTDIR)
       ∨ (c = Fs.EACCES ∧ syscall = "scandir"
          ∧ ∃ j, path = "/" +:+ Str.join j
                 ∧ @location atHome "top" `prefix_of` j
                 ∧ nested !! j = Some (Fs.Dir false)
                 ∧ Fs.has_children nested j = true)).
Proof.
  apply (@deleteDir_rejections atHome "top" nested). vm_compute. reflexivity.
Defined.



Lemma createDir_blocked_witness :
  ∃ c, @createDir atHome "a/x.txt/sub" tracked
       = (tracked,
          Normal (Rejected (SystemError c "mkdir"
                              (Path.resolve (@cwd atHome) ["a/x.txt/sub"]))))
       ∧ (c = Fs.EEXIST ∨ c = Fs.ENOTDIR)
       ∧ Path.resolve (@cwd atHome) ["a/x.txt/sub"]
         = "/" +:+ Str.join (@key_of atHome "a/x.txt/sub").
Proof.
  apply (@createDir_blocked atHome "a/x.txt/sub" tracked ["proj"; "a"; "x.txt"]
           (list_byte_of_string "x")).
  - by_deciding.
  - done.
  - by_deciding.
  - vm_compute. reflexivity.
Defined.

Lemma listRevisions_after_upsert_witness :
  let t' := (@upsertFile reader (Path.join ["c"; "revisions.json"])
               (FromString ledgerText) false tracked).1 in
  @listRevisions reader "c" t'
  = (t', Normal (Fulfilled match @JSON_parse reader (toString (bytes (FromString ledgerText))) with
                           | Some v => v
                           | None => Array []
                           end)).
Proof.
  apply (@listRevisions_after_upsert reader "c" (FromString ledgerText) false tracked).
  by_running.
Defined.

Lemma resolvePath_absolute_witness :
  @location atHome "/etc/../etc//hosts"
  = Path.normalizeSegs false (Str.split Str.slash "/etc/../etc//hosts")
  ∧ @location atHome "/etc/../etc//hosts" = @key_of atHome "/etc/../etc//hosts"
  ∧ @resolvePath atHome "/etc/../etc//hosts"
    = "/" +:+ Str.join (@key_of atHome "/etc/../etc//hosts").
Proof. apply (@resolvePath_absolute atHome "/etc/../etc//hosts"). reflexivity. Defined.


Lemma directoryListing_dot_files_witness :
  "b/.noghost" ∈ ["a/x.txt"; "b/y.txt"]
  ↔ "b/.noghost" ∈ ["a/x.txt"; "b/.noghost"; "b/y.txt"]
    ∧ Forall (λ s, Str.startsWith Str.dot s = false) (Str.split Str.slash "b/.noghost").
Proof.
  apply (@directoryListing_dot_files atHome "." None tracked
           ["a/x.txt"; "b/y.txt"] ["a/x.txt"; "b/.noghost"; "b/y.txt"]).
  - apply wfb_wf. vm_compute. reflexivity.
  - vm_compute. reflexivity.
  - vm_compute. reflexivity.
  - vm_compute. reflexivity.
Defined.


(** The evaluation of the pattern is strict.  The listing of [top] is
    empty, with dot files and without, because the walk goes into
    [vault] and may not read it; excluding what is below [vault] keeps
    the walk out of it, and the file in [pub] is listed. *)
Example directoryListing_is_strict :
  (@directoryListing atHome "top" None false nested).2 = Normal (Fulfilled [])
  ∧ (@directoryListing atHome "top" None true nested).2 = Normal (Fulfilled [])
  ∧ (@directoryListing atHome "top" (Some (inl "vault/**")) false nested).2
    = Normal (Fulfilled ["pub/a.txt"])
  ∧ (@directoryListing atHome "top/pub" None false nested).2
    = Normal (Fulfilled ["a.txt"]).
Proof. split_and!; vm_compute; reflexivity. Qed.

Lemma discoverTrackableFolders_opt_out_witness :
  ∃ l, @discoverTrackableFolders atHome "src" sources = (sources, Normal (Fulfilled l))
       ∧ NoDup l
       ∧ ∀ x, x ∈ l ↔
           (∃ f, f ∈ ["a.txt"; "lib/b.js"] ∧ topLevel f = x)
           ∧ ¬ ∃ f, f ∈ ["a.txt"; "lib/b.js"]
                    ∧ Str.toLowerCase (Path.basename f) = ".noghost"
                    ∧ topLevel f = x.
Proof.
  apply (@discoverTrackableFolders_opt_out atHome "src" sources).
  - reflexivity.
  - apply wfb_wf. vm_compute. reflexivity.
  - vm_compute. reflexivity.
Defined.


(** A name that begins with [@] is not archived as a file: the file
    behind it is read as an archive, no member is found in it, and the
    archive written has no member. *)
Example createArchive_at_sign :
  let t1 := (@createArchive atHome "out.tgz" "src" ["@a.txt"] sources).1 in
  (@createArchive atHome "out.tgz" "src" ["@a.txt"] sources).2
  = Normal (Fulfilled "out.tgz")
  ∧ @tgz_unpack atHome (@bytesAt atHome t1 "out.tgz") = Some []
  ∧ (@extractArchive atHome (@bytesAt atHome t1 "out.tgz") "dest" t1).2
    = Normal (Fulfilled []).
Proof. split_and!; vm_compute; reflexivity. Qed.

Lemma extractArchive_confined_witness :
  (@extractArchive atHome rooted "dest" sources).1 !! ["etc"; "evil.txt"]
  = sources !! ["etc"; "evil.txt"].
Proof.
  apply (@extractArchive_confined atHome rooted "dest"
           [ TarEntry "/etc/evil.txt" (Some (list_byte_of_string "x")) ]
           sources ["etc"; "evil.txt"]).
  - by_deciding.
  - apply unpack_pack.
  - by_deciding.
Defined.

(** A member with an absolute path is unpacked below the destination,
    and reported: the call fails and the file is there. *)
Example extractArchive_strips_root :
  (@extractArchive atHome rooted "dest" sources).2
  = Normal (Rejected (TarError "stripping / from absolute path /etc/evil.txt"))
  ∧ (@extractArchive atHome rooted "dest" sources).1 !! ["proj"; "dest"; "etc"; "evil.txt"]
    = Some (Fs.File (list_byte_of_string "x"))
  ∧ (@extractArchive atHome rooted "dest" sources).1 !! ["etc"; "evil.txt"] = None.
Proof. split_and!; vm_compute; reflexivity. Qed.

Lemma extractArchive_accumulates_witness :
  "one.txt" ∈ ["one.txt"; "two.txt"].
Proof.
  apply (@extractArchive_accumulates atHome (single "one.txt" "1") (single "two.txt" "2")
           "dest" sources
           (@extractArchive atHome (single "one.txt" "1") "dest" sources).1
           (@extractArchive atHome (single "two.txt" "2") "dest"
              (@extractArchive atHome (single "one.txt" "1") "dest" sources).1).1
           ["one.txt"] ["one.txt"; "two.txt"]).
  - apply wfb_wf. vm_compute. reflexivity.
  - by_running.
  - by_running.
  - by_deciding.
Defined.

Lemma extractArchive_destination_missing_witness :
  ∃ c, @extractArchive atHome (single "one.txt" "1") "no/where" sources
       = (sources, Normal (Rejected (SystemError c "mkdir" "no/where"))).
Proof.
  apply (@extractArchive_destination_missing atHome (single "one.txt" "1") "no/where" sources).
  - vm_compute. reflexivity.
  - intros b. vm_compute. discriminate.
Defined.


(** Bytes too few to hold a member are an archive without members:
    the call succeeds with an empty listing, and the destination made
    for it is there. *)
Example extractArchive_short_buffer :
  (@extractArchive atHome [Byte.x02] "dest" sources).2 = Normal (Fulfilled [])
  ∧ (@extractArchive atHome [Byte.x02] "dest" sources).1 !! ["proj"; "dest"]
    = Some (Fs.Dir true).
Proof. split_and!; vm_compute; reflexivity. Qed.

Lemma extractArchive_refuses_witness :
  ∃ e, (@extractArchive atHome escaping "dest" sources).2 = Normal (Rejected e).
Proof.
  apply (@extractArchive_refuses atHome escaping "dest" sources
           [ TarEntry "../evil.txt" (Some (list_byte_of_string "x"));
             TarEntry "ok.txt" (Some (list_byte_of_string "fine")) ]
           (TarEntry "../evil.txt" (Some (list_byte_of_string "x")))).
  - apply unpack_pack.
  - by left.
  - reflexivity.
Defined.


Lemma driver_keeps_well_formed_witness :
  (∀ p c rec, Fs.wf (@upsertFile atHome p c rec tracked).1)
  ∧ (∀ d, Fs.wf (@createDir atHome d tracked).1)
  ∧ (∀ p rec, Fs.wf (@deleteFile atHome p rec tracked).1)
  ∧ (∀ p, Fs.wf (@deleteDir atHome p tracked).1)
  ∧ (∀ id folder files, Fs.wf (@createArchive atHome id folder files tracked).1)
  ∧ (∀ archive dest, Fs.wf (@extractArchive atHome archive dest tracked).1).
Proof.
  apply (@driver_keeps_well_formed atHome tracked). apply wfb_wf. vm_compute. reflexivity.
Defined.

Lemma createDir_at_home_witness :
  let t' := (@createDir atHome "a/new/deep" tracked).1 in
  (∃ b, Fs.stat t' (@location atHome "a/new/deep") = inr (Fs.Dir b))
  ∧ (∀ j n, tracked !! j = Some n → t' !! j = Some n)
  ∧ (∀ j, ¬ j `prefix_of` @location atHome "a/new/deep" → t' !! j = tracked !! j).
Proof.
  apply (@createDir_at_home atHome "a/new/deep" tracked); [reflexivity|by_running].
Defined.

(** Away from the project directory the two differ: a directory made
    by [createDir] is not where [upsertFile] puts a file of that
    directory. *)
Example createDir_follows_cwd :
  @location away "a/new" = ["proj"; "a"; "new"]
  ∧ @key_of away "a/new" = ["a"; "new"]
  ∧ (@createDir away "a/new" tracked).1 !! ["a"; "new"] = Some (Fs.Dir true)
  ∧ (@createDir away "a/new" tracked).1 !! ["proj"; "a"; "new"] = None.
Proof. split_and!; vm_compute; reflexivity. Qed.
